(** * leancrypto: sponge engine, fast-key-erasure DRBGs, ChaCha20 DRNG and
    the hash based AEAD, embedded from the C sources.

    Machine integers are [Z] with the wrap-around of the C type written
    out, buffers are [list Z] of bytes, C structures are records, and
    functions that mutate a context return the new context together with
    the bytes they wrote. *)

From Stdlib Require Import Ascii String.
From stdpp Require Import base list.
From Stdlib Require Import ZArith Lia Btauto.

Open Scope Z_scope.

(** ** Machine integers and byte buffers *)

Definition u8 (x : Z) : Z := x mod 256.
Definition u32 (x : Z) : Z := x mod 2 ^ 32.
Definition u64 (x : Z) : Z := x mod 2 ^ 64.

(** Modelled from the spec: [min_size] of math_helper.h, which is not
    among the sources: the smaller of two [size_t]. *)
Definition min_size (a b : Z) : Z := if a <? b then a else b.

Definition len (l : list Z) : Z := Z.of_nat (length l).

(** [buf + n] and the first [n] bytes at [buf]. *)
Definition zdrop (n : Z) (l : list Z) : list Z := drop (Z.to_nat n) l.
Definition ztake (n : Z) (l : list Z) : list Z := take (Z.to_nat n) l.

(** [memcpy] of [src] to the start of [dst]. *)
Definition store (dst src : list Z) : list Z :=
  src ++ drop (length src) dst.

(** ** Sponge engine (keccak_arm_asm_absorb_internal / _squeeze_internal) *)

Module Sponge.

(** The Keccak context shared by all lc_sha3_*_state structures.  The
    lanes are the 25 words of [uint64_t state[25]]; on the little-endian
    ARMv8 target byte [i] of the state is bits [8*(i mod 8) ..] of lane
    [i / 8].  [offset], [r] and [padding] are bytes, as the casts in the
    squeeze function show. *)
Record lc_sha3_224_state : Type := mk_state {
  state : list Z;
  msg_len : Z;
  digestsize : Z;
  offset : Z;
  r : Z;
  padding : Z;
  squeeze_more : bool
}.

Definition set_state (A : list Z) (c : lc_sha3_224_state) :=
  mk_state A (msg_len c) (digestsize c) (offset c) (r c) (padding c)
    (squeeze_more c).
Definition set_msg_len (m : Z) (c : lc_sha3_224_state) :=
  mk_state (state c) m (digestsize c) (offset c) (r c) (padding c)
    (squeeze_more c).
Definition set_offset (o : Z) (c : lc_sha3_224_state) :=
  mk_state (state c) (msg_len c) (digestsize c) o (r c) (padding c)
    (squeeze_more c).
(** shake_set_digestsize: only the target output length changes. *)
Definition set_digestsize (d : Z) (c : lc_sha3_224_state) :=
  mk_state (state c) (msg_len c) d (offset c) (r c) (padding c)
    (squeeze_more c).
Definition set_squeeze_more (b : bool) (c : lc_sha3_224_state) :=
  mk_state (state c) (msg_len c) (digestsize c) (offset c) (r c) (padding c) b.

(** [((unsigned char * )state)[pos] ^= byte], the body of
    keccakf1600_add_byte, seen on the lanes. *)
Definition state_xor_byte (A : list Z) (pos : Z) (byte : Z) : list Z :=
  alter (fun lane => Z.lxor lane (Z.shiftl byte (8 * (pos mod 8))))
        (Z.to_nat (pos / 8)) A.

(** Modelled from the spec: sha3_fill_state_bytes(state, in, byte_offset,
    inlen) of keccak_internal.h, which is not among the sources, is the
    engine's sponge_add_bytes: it XORs [inlen] bytes of [in] into the
    state from byte [byte_offset] on, as the loop of
    keccakf1600_add_bytes does. *)
Fixpoint fill_loop (A : list Z) (inp : list Z) (pos : Z) : list Z :=
  match inp with
  | [] => A
  | b :: rest => fill_loop (state_xor_byte A pos b) rest (pos + 1)
  end.

Definition sha3_fill_state_bytes (A : list Z) (inp : list Z)
    (byte_offset inlen : Z) : list Z :=
  fill_loop A (ztake inlen inp) byte_offset.

(** [(uint8_t)(ctx->state[word] >> byte)] with [word = i / 8] and
    [byte = (i % 8) << 3]. *)
Definition state_byte (A : list Z) (i : Z) : Z :=
  u8 (Z.shiftr (nth (Z.to_nat (i / 8)) A 0) (Z.shiftl (i mod 8) 3)).

(** The byte-wise loop [for (i = offset; i < todo + offset; i++, digest++)]. *)
Definition extract_loop (A : list Z) (off todo : Z) : list Z :=
  map (fun k => state_byte A (off + Z.of_nat k)) (seq 0 (Z.to_nat todo)).

Section Engine.

(** The two function pointers handed to the inline functions.
    [absorb A inp r] consumes whole blocks of [inp] and returns the lanes
    and the number of bytes left; [squeeze A n r] returns the lanes and
    the [n] bytes written; [keccakf1600] permutes the lanes. *)
Variable absorb : list Z -> list Z -> Z -> list Z * Z.
Variable squeeze : list Z -> Z -> Z -> list Z * list Z.
Variable keccakf1600 : list Z -> list Z.

(** Tail of the absorb function: whole blocks through [absorb], the rest
    into the partial block. *)
Definition absorb_tail (ctx : lc_sha3_224_state) (inp : list Z)
    (blocksize : Z) : lc_sha3_224_state :=
  let inlen := len inp in
  if blocksize <=? inlen then
    let '(A, rest) := absorb (state ctx) inp blocksize in
    let inp' := zdrop (inlen - rest) inp in
    set_state (sha3_fill_state_bytes A inp' 0 rest) ctx
  else
    set_state (sha3_fill_state_bytes (state ctx) inp 0 inlen) ctx.

(** keccak_arm_asm_absorb_internal; [None] is the null context. *)
Definition keccak_arm_asm_absorb_internal (_state : option lc_sha3_224_state)
    (inp : list Z) : option lc_sha3_224_state :=
  match _state with
  | None => None
  | Some ctx =>
    let inlen := len inp in
    let blocksize := r ctx in
    let partial := msg_len ctx mod blocksize in
    let ctx := set_squeeze_more false ctx in
    let ctx := set_msg_len (u64 (msg_len ctx + inlen)) ctx in
    if partial =? 0 then Some (absorb_tail ctx inp blocksize)
    else
      let todo := blocksize - partial in
      if inlen <? todo then
        Some (set_state (sha3_fill_state_bytes (state ctx) inp partial inlen)
                        ctx)
      else
        let A := sha3_fill_state_bytes (state ctx) inp partial todo in
        let inp' := zdrop todo inp in
        let ctx := set_state (keccakf1600 A) ctx in
        Some (absorb_tail ctx inp' blocksize)
  end.

(** The block [if (!ctx->squeeze_more) { ... }]: final round of the
    absorbing phase. *)
Definition finalize_absorb (ctx : lc_sha3_224_state) (blocksize : Z)
    : lc_sha3_224_state :=
  let partial := u8 (msg_len ctx mod blocksize) in
  let A1 := sha3_fill_state_bytes (state ctx) [padding ctx] partial 1 in
  let A2 := if (128 <=? padding ctx) && (partial =? blocksize - 1)
            then keccakf1600 A1 else A1 in
  let A3 := state_xor_byte A2 (blocksize - 1) 128 in
  set_squeeze_more true (set_state (keccakf1600 A3) ctx).

(** The closing part: bulk squeeze, then advance and wrap the offset. *)
Definition squeeze_tail (ctx : lc_sha3_224_state) (out : list Z)
    (digest_len blocksize : Z) : lc_sha3_224_state * list Z :=
  let '(A, out2) := squeeze (state ctx) digest_len blocksize in
  let digest_len := u64 (digest_len + offset ctx) in
  let digest_len := digest_len mod blocksize in
  (set_offset (u8 (offset ctx + u8 digest_len)) (set_state A ctx),
   out ++ out2).

(** keccak_arm_asm_squeeze_internal on a non-null context; [digest] tells
    whether the output pointer is non-null.  The result is the context
    and the bytes written to [digest], in order. *)
Definition keccak_arm_asm_squeeze_internal (ctx : lc_sha3_224_state)
    (digest : bool) : lc_sha3_224_state * list Z :=
  let squeeze_more0 := squeeze_more ctx in
  if negb digest then (ctx, [])
  else
    let digest_len := digestsize ctx in
    let blocksize := u8 (r ctx) in
    let ctx := if squeeze_more ctx then ctx
               else finalize_absorb ctx blocksize in
    if negb (offset ctx =? 0) then
      let todo := u8 (blocksize - offset ctx) in
      let todo := u8 (min_size digest_len todo) in
      let digest_len := u64 (digest_len - todo) in
      let out := extract_loop (state ctx) (offset ctx) todo in
      let ctx := set_offset (u8 (offset ctx + todo)) ctx in
      let ctx := set_offset (offset ctx mod blocksize) ctx in
      if digest_len =? 0 then (ctx, out)
      else
        let ctx := set_state (keccakf1600 (state ctx)) ctx in
        squeeze_tail ctx out digest_len blocksize
    else if squeeze_more0 then
      let ctx := set_state (keccakf1600 (state ctx)) ctx in
      squeeze_tail ctx [] digest_len blocksize
    else
      squeeze_tail ctx [] digest_len blocksize.

End Engine.

End Sponge.

(** ** Keccak-f[1600] and the bulk block functions *)

Module Keccak.

Import Sponge.

Definition rol64 (x : Z) (n : Z) : Z :=
  u64 (Z.lor (Z.shiftl x n) (Z.shiftr x (64 - n))).

Definition lane (A : list Z) (x y : nat) : Z := nth (x + 5 * y)%nat A 0.

Definition rho_offsets : list Z :=
  [ 0;  1; 62; 28; 27;
   36; 44;  6; 55; 20;
    3; 10; 43; 25; 39;
   41; 45; 15; 21;  8;
   18;  2; 61; 56; 14].

Definition round_constants : list Z :=
  [0x0000000000000001; 0x0000000000008082; 0x800000000000808A;
   0x8000000080008000; 0x000000000000808B; 0x0000000080000001;
   0x8000000080008081; 0x8000000000008009; 0x000000000000008A;
   0x0000000000000088; 0x0000000080008009; 0x000000008000000A;
   0x000000008000808B; 0x800000000000008B; 0x8000000000008089;
   0x8000000000008003; 0x8000000000008002; 0x8000000000000080;
   0x000000000000800A; 0x800000008000000A; 0x8000000080008081;
   0x8000000000008080; 0x0000000080000001; 0x8000000080008008].

Definition coords : list (nat * nat) :=
  flat_map (fun y => map (fun x => (x, y)) (seq 0 5)) (seq 0 5).

Definition theta (A : list Z) : list Z :=
  let C := map (fun x => fold_left Z.lxor
                   (map (fun y => lane A x y) (seq 0 5)) 0) (seq 0 5) in
  let D := map (fun x => Z.lxor (nth ((x + 4) mod 5)%nat C 0)
                                (rol64 (nth ((x + 1) mod 5)%nat C 0) 1))
               (seq 0 5) in
  map (fun '(x, y) => Z.lxor (lane A x y) (nth x D 0)) coords.

Definition rho_pi (A : list Z) : list Z :=
  map (fun '(x, y) =>
         let x0 := ((x + 3 * y) mod 5)%nat in
         rol64 (lane A x0 x) (nth (x0 + 5 * x)%nat rho_offsets 0)) coords.

Definition chi (B : list Z) : list Z :=
  map (fun '(x, y) =>
         Z.lxor (lane B x y)
           (Z.land (Z.lxor (lane B ((x + 1) mod 5)%nat y) (2 ^ 64 - 1))
                   (lane B ((x + 2) mod 5)%nat y))) coords.

Definition iota (rc : Z) (A : list Z) : list Z :=
  alter (fun l => Z.lxor l rc) 0%nat A.

Definition keccak_round (A : list Z) (rc : Z) : list Z :=
  iota rc (chi (rho_pi (theta A))).

(** Modelled from the spec: the permutation behind the [keccakf1600]
    function pointer (lc_keccakf1600_arm_asm, assembler that is not among
    the sources) is Keccak-f[1600], the 24 rounds of FIPS 202 on the 25
    lanes. *)
Definition keccakf1600 (A : list Z) : list Z :=
  fold_left keccak_round round_constants A.

Fixpoint squeeze_blocks (fuel : nat) (A : list Z) (n r : Z)
    : list Z * list Z :=
  match fuel with
  | O => (A, [])
  | S fuel =>
    if n <=? r then (A, extract_loop A 0 n)
    else
      let '(A', out) := squeeze_blocks fuel (keccakf1600 A) (n - r) r in
      (A', extract_loop A 0 r ++ out)
  end.

(** Modelled from the spec: the bulk squeeze behind the [squeeze] function
    pointer (lc_keccak_squeeze_arm_asm, assembler).  It delivers whole
    rate-sized blocks from the start of the state and, as the comments of
    the squeeze function say, first outputs the state and permutes only
    when more output is due. *)
Definition lc_keccak_squeeze (A : list Z) (n r : Z) : list Z * list Z :=
  squeeze_blocks (S (Z.to_nat n)) A n r.

Fixpoint absorb_blocks (fuel : nat) (A : list Z) (inp : list Z) (r : Z)
    : list Z * Z :=
  match fuel with
  | O => (A, len inp)
  | S fuel =>
    if len inp <? r then (A, len inp)
    else absorb_blocks fuel
           (keccakf1600 (sha3_fill_state_bytes A inp 0 r)) (zdrop r inp) r
  end.

(** Modelled from the spec: the bulk absorb behind the [absorb] function
    pointer (lc_keccak_absorb_arm_asm, assembler): XOR and permute every
    whole block of the input and return the number of bytes left over. *)
Definition lc_keccak_absorb (A : list Z) (inp : list Z) (r : Z)
    : list Z * Z :=
  absorb_blocks (S (length inp)) A inp r.

(** The inline functions as the ARM wrappers instantiate them. *)
Definition absorb_arm :=
  keccak_arm_asm_absorb_internal lc_keccak_absorb keccakf1600.
Definition squeeze_arm :=
  keccak_arm_asm_squeeze_internal lc_keccak_squeeze keccakf1600.

Definition zero_lanes : list Z := repeat 0 25.

End Keccak.

(** ** Byte access to the Keccak state (RISC-V glue code) *)

Module KeccakGlue.

(** The state behind [void *state] is taken as its 200 bytes in memory
    order.  An access past the end of the array, undefined in C, leaves
    the state alone here and reads as 0. *)

(** keccakf1600_add_byte: [((unsigned char * )state)[offset] ^= byte]. *)
Definition keccakf1600_add_byte (state : list Z) (byte : Z) (offset : Z)
    : list Z :=
  alter (fun b => Z.lxor b byte) (Z.to_nat offset) state.

(** The loop of keccakf1600_add_bytes from index [i] on; the position is
    cast to [unsigned int]. *)
Fixpoint add_bytes_loop (state : list Z) (data : list Z) (offset i : Z)
    : list Z :=
  match data with
  | [] => state
  | b :: rest =>
    add_bytes_loop (keccakf1600_add_byte state b (u32 (offset + i))) rest
      offset (i + 1)
  end.

(** keccakf1600_add_bytes *)
Definition keccakf1600_add_bytes (state : list Z) (data : list Z)
    (offset length : Z) : list Z :=
  add_bytes_loop state (ztake length data) offset 0.

(** [lanes[word]] for [const uint32_t *lanes = state] on the
    little-endian RISC-V target. *)
Definition lane32 (state : list Z) (word : Z) : Z :=
  let byte k := nth (Z.to_nat (4 * word + k)) state 0 in
  byte 0 + Z.shiftl (byte 1) 8 + Z.shiftl (byte 2) 16 + Z.shiftl (byte 3) 24.

(** keccakf1600_extract_bytes: the bytes written to [digest]. *)
Definition keccakf1600_extract_bytes (state : list Z) (offset length : Z)
    : list Z :=
  map (fun k =>
         let i := offset + Z.of_nat k in
         let word := i / 4 in
         let byte := Z.shiftl (i mod 4) 3 in
         u8 (Z.shiftr (lane32 state word) byte))
      (seq 0 (Z.to_nat length)).

(** keccak_riscv_add_bytes and keccak_riscv_extract_bytes, the entries of
    the [lc_hash] tables. *)
Definition keccak_riscv_add_bytes := keccakf1600_add_bytes.
Definition keccak_riscv_extract_bytes := keccakf1600_extract_bytes.

(** keccak_riscv_newstate: [memcpy((uint8_t * )state + offset, data,
    length)]. *)
Definition keccak_riscv_newstate (state : list Z) (data : list Z)
    (offset length : Z) : list Z :=
  ztake offset state ++ ztake length data ++ zdrop (offset + length) state.

End KeccakGlue.

(** ** Fast-key-erasure DRBGs (kmac_drng.c, XDRBG) *)

Module Drng.

(** errno values of the return codes. *)
Definition EINVAL : Z := 22.

(** A call either completes with a value or reads through a null pointer,
    which leaves the behaviour of the C program undefined. *)
Inductive outcome (A : Type) : Type :=
| Fault : outcome A
| Done : A -> outcome A.
Arguments Fault {A}.
Arguments Done {A} _.

Definition bind {A B} (m : outcome A) (k : A -> outcome B) : outcome B :=
  match m with
  | Fault => Fault
  | Done a => k a
  end.

Notation "'let*' x ':=' m 'in' k" := (bind m (fun x => k))
  (at level 10, x name, k at level 200).

(** [p->field]: reading through a pointer faults on the null pointer. *)
Definition deref {A} (p : option A) : outcome A :=
  match p with
  | None => Fault
  | Some a => Done a
  end.

Definition is_null {A} (p : option A) : bool :=
  match p with
  | None => true
  | Some _ => false
  end.

(** Writes that a call performs, in program order: the store of a fresh
    key into the DRBG state and the bytes put into the caller's buffer. *)
Inductive event : Type :=
| StoreKey : list Z -> event
| Release : list Z -> event.

(** The bytes of a C string literal, without the terminating NUL:
    [(uint8_t * )s] with length [sizeof(s) - 1]. *)
Definition bytes_of_string (s : String.string) : list Z :=
  map (fun c => Z.of_N (Ascii.N_of_ascii c)) (String.list_ascii_of_string s).

(** Output bytes [pos .. pos + n) of an extendable output stream. *)
Definition stream_bytes (f : nat -> Z) (pos : nat) (n : Z) : list Z :=
  map f (seq pos (Z.to_nat n)).

Module Kmac.

Definition LC_KMAC_DRNG_SEED_CUSTOMIZATION_STRING : String.string :=
  "KMAC-DRNG seed"%string.
Definition LC_KMAC_DRNG_CTX_CUSTOMIZATION_STRING : String.string :=
  "KMAC-DRNG generate"%string.

Definition LC_KMAC256_DRNG_ENCODE_LENGTH : Z := 84.

(** Modelled from the spec: lc_kmac256_drng.h is not among the sources.
    The key is 512 bits.  The chunk size is a multiple of the
    cSHAKE-256 rate of 136 bytes (the BUILD_BUG_ON in the generate
    function); the value used here, two blocks, is the one that the
    abstract in kmac_drng.c states (fast key erasure at least after
    twice the cSHAKE256 block size) and that reproduces the known answer
    of kmac256_drng_selftest. *)
Definition LC_KMAC256_DRNG_KEYSIZE : Z := 64.
Definition LC_SHA3_256_SIZE_BLOCK : Z := 136.
Definition LC_KMAC256_DRNG_MAX_CHUNK : Z := LC_SHA3_256_SIZE_BLOCK * 2.

Record lc_kmac256_drng_state : Type := mk_state {
  initially_seeded : Z;
  key : list Z
}.

(** Modelled from the spec: the KMAC context of lc_kmac.h, which is not
    among the sources.  KMAC in XOF mode is a function of the
    key K, the absorbed message X and the customization string S that
    yields an output stream; the context records K, S, the message
    absorbed so far and how many bytes of the stream were squeezed. *)
Record lc_kmac_ctx : Type := mk_kmac {
  kmac_key : list Z;
  kmac_s : list Z;
  kmac_x : list Z;
  kmac_squeezed : nat
}.

Section KmacDrng.

(** KMACXOF256(K, X, S) as an output stream, and the return code of
    lc_kmac_init. *)
Variable KMACXOF256 : list Z -> list Z -> list Z -> nat -> Z.
Variable kmac_init_ret : Z.

Definition lc_kmac_init (k s : list Z) : Z * lc_kmac_ctx :=
  (kmac_init_ret, mk_kmac k s [] 0).

Definition lc_kmac_update (ctx : lc_kmac_ctx) (data : list Z) : lc_kmac_ctx :=
  mk_kmac (kmac_key ctx) (kmac_s ctx) (kmac_x ctx ++ data) (kmac_squeezed ctx).

Definition lc_kmac_final_xof (ctx : lc_kmac_ctx) (n : Z)
    : lc_kmac_ctx * list Z :=
  (mk_kmac (kmac_key ctx) (kmac_s ctx) (kmac_x ctx)
           (kmac_squeezed ctx + Z.to_nat n),
   stream_bytes (KMACXOF256 (kmac_key ctx) (kmac_x ctx) (kmac_s ctx))
                (kmac_squeezed ctx) n).

(** lc_kmac256_drng_encode *)
Definition lc_kmac256_drng_encode (kmac_ctx : lc_kmac_ctx) (n : Z)
    (alpha : list Z) : lc_kmac_ctx :=
  let alphalen := len alpha in
  let alphalen := if 84 <? alphalen then 84 else alphalen in
  let encode := u8 (n * 85 + alphalen) in
  let kmac_ctx := lc_kmac_update kmac_ctx (ztake alphalen alpha) in
  lc_kmac_update kmac_ctx [encode].

(** lc_kmac256_drng_fke_init_ctx: return code, state, KMAC context and
    the writes performed. *)
Definition lc_kmac256_drng_fke_init_ctx (state : lc_kmac256_drng_state)
    (addtl_input : list Z)
    : Z * lc_kmac256_drng_state * lc_kmac_ctx * list event :=
  let '(ret, kmac_ctx) :=
    lc_kmac_init (ztake LC_KMAC256_DRNG_KEYSIZE (key state))
      (bytes_of_string LC_KMAC_DRNG_CTX_CUSTOMIZATION_STRING) in
  if negb (ret =? 0) then (ret, state, kmac_ctx, [])
  else
    let kmac_ctx := lc_kmac256_drng_encode kmac_ctx 2 addtl_input in
    let '(kmac_ctx, k) := lc_kmac_final_xof kmac_ctx LC_KMAC256_DRNG_KEYSIZE in
    (0, mk_state (initially_seeded state) (store (key state) k), kmac_ctx,
     [StoreKey k]).

(** Result of a generate call: return code, state, bytes put into [out]
    and the writes in program order. *)
Definition gen_result : Type :=
  Z * lc_kmac256_drng_state * list Z * list event.

(** The loop [while (outlen) { ... }] of lc_kmac256_drng_generate;
    [None] when the iteration budget is used up. *)
Fixpoint generate_loop (fuel : nat) (state : lc_kmac256_drng_state)
    (addtl_input : list Z) (outlen : Z) (out : list Z) (tr : list event)
    : option gen_result :=
  if outlen =? 0 then Some (0, state, out, tr)
  else
    match fuel with
    | O => None
    | S fuel =>
      let todo := min_size outlen
                    (LC_KMAC256_DRNG_MAX_CHUNK - LC_KMAC256_DRNG_KEYSIZE) in
      let '(ret, state, kmac_ctx, ev) :=
        lc_kmac256_drng_fke_init_ctx state addtl_input in
      if negb (ret =? 0) then Some (ret, state, out, tr ++ ev)
      else
        let '(_, bytes) := lc_kmac_final_xof kmac_ctx todo in
        generate_loop fuel state addtl_input (outlen - todo)
          (out ++ bytes) (tr ++ ev ++ [Release bytes])
    end.

(** lc_kmac256_drng_generate; the result is the return code together
    with the state, output and writes when the state pointer is not
    null. *)
Definition lc_kmac256_drng_generate (_state : option lc_kmac256_drng_state)
    (addtl_input : list Z) (outlen : Z) : option (Z * option gen_result) :=
  match _state with
  | None => Some (- EINVAL, None)
  | Some state =>
    option_map (fun res => (fst (fst (fst res)), Some res))
      (generate_loop (Z.to_nat outlen) state addtl_input outlen [] [])
  end.

(** The body of lc_kmac256_drng_seed_nocheck after the null check. *)
Definition seed_body (state : lc_kmac256_drng_state) (initially_seeded0 : Z)
    (seed persbuf : list Z) : Z * lc_kmac256_drng_state * list event :=
  let '(ret, kmac_ctx) :=
    if negb (initially_seeded0 =? 0) then
      lc_kmac_init (ztake LC_KMAC256_DRNG_KEYSIZE (key state))
        (bytes_of_string LC_KMAC_DRNG_SEED_CUSTOMIZATION_STRING)
    else
      lc_kmac_init []
        (bytes_of_string LC_KMAC_DRNG_SEED_CUSTOMIZATION_STRING) in
  if negb (ret =? 0) then (ret, state, [])
  else
    let state := if negb (initially_seeded0 =? 0) then state
                 else mk_state 1 (key state) in
    let kmac_ctx := lc_kmac_update kmac_ctx seed in
    let kmac_ctx := lc_kmac256_drng_encode kmac_ctx initially_seeded0 persbuf in
    let '(_, k) := lc_kmac_final_xof kmac_ctx LC_KMAC256_DRNG_KEYSIZE in
    (0, mk_state (initially_seeded state) (store (key state) k), [StoreKey k]).

(** lc_kmac256_drng_seed_nocheck: [state->initially_seeded] is read in
    the declarations, before [if (!state)]. *)
Definition lc_kmac256_drng_seed_nocheck
    (_state : option lc_kmac256_drng_state) (seed persbuf : list Z)
    : outcome (Z * option lc_kmac256_drng_state * list event) :=
  let* state := deref _state in
  let initially_seeded0 := initially_seeded state in
  if is_null _state then Done (- EINVAL, _state, [])
  else
    let '(ret, state, tr) := seed_body state initially_seeded0 seed persbuf in
    Done (ret, Some state, tr).

End KmacDrng.

(** lc_kmac256_drng_zero: every byte of the state structure is set to
    zero, the seeded flag with the key; the null pointer is left alone. *)
Definition lc_kmac256_drng_zero (_state : option lc_kmac256_drng_state)
    : option lc_kmac256_drng_state :=
  match _state with
  | None => None
  | Some state => Some (mk_state 0 (repeat 0 (length (key state))))
  end.

End Kmac.

Module Xdrbg.

(** Modelled from the spec: the Hash capability of lc_hash.h, which is
    not among the sources, for an extendable output function:
    the return code of its init and its output stream as a function of
    the absorbed message. *)
Record lc_hash : Type := mk_hash {
  hash_init_ret : Z;
  hash_xof : list Z -> nat -> Z
}.

Record lc_hash_ctx : Type := mk_hash_ctx {
  hash_msg : list Z;
  hash_squeezed : nat
}.

Record lc_xdrbg_drng_state : Type := mk_state {
  status : Z;
  chunksize : Z;
  xof : lc_hash;
  v : list Z
}.

Definition lc_hash_init (h : lc_hash) : Z * lc_hash_ctx :=
  (hash_init_ret h, mk_hash_ctx [] 0).

Definition lc_hash_update (ctx : lc_hash_ctx) (data : list Z) : lc_hash_ctx :=
  mk_hash_ctx (hash_msg ctx ++ data) (hash_squeezed ctx).

(** lc_xdrbg_xof_final: set the digest size, then squeeze that many
    bytes. *)
Definition lc_xdrbg_xof_final (h : lc_hash) (ctx : lc_hash_ctx)
    (digest_len : Z) : lc_hash_ctx * list Z :=
  (mk_hash_ctx (hash_msg ctx) (hash_squeezed ctx + Z.to_nat digest_len),
   stream_bytes (hash_xof h (hash_msg ctx)) (hash_squeezed ctx) digest_len).

Definition LC_XDRBG_DRNG_ENCODE_LENGTH : Z := 84.
Definition LC_XDRBG_DRNG_ENCODE_N (x : Z) : Z := x * 85.

Section XdrbgDrng.

(** Constants of lc_xdrbg.h and xdrbg_internal.h, which are not among
    the sources: the status flag and mask, the key size tags of
    [enum lc_xdrbg_status_keysize] and the key sizes in bytes. *)
Variable LC_XDRBG_DRNG_INITIALLY_SEEDED : Z.
Variable LC_XDRBG_DRNG_KEYSIZE_MASK : Z.
Variable lc_xdrbg_keysize_xdrbg128 : Z.
Variable lc_xdrbg_keysize_xdrbg256 : Z.
Variable lc_xdrbg_keysize_xdrbg512 : Z.
Variable LC_XDRBG128_DRNG_KEYSIZE : Z.
Variable LC_XDRBG256_DRNG_KEYSIZE : Z.
Variable LC_XDRBG512_DRNG_KEYSIZE : Z.

Definition lc_xdrbg_initially_seeded (state : lc_xdrbg_drng_state) : Z :=
  if Z.land (status state) LC_XDRBG_DRNG_INITIALLY_SEEDED =? 0 then 0 else 1.

Definition lc_xdrbg_keysize (state : lc_xdrbg_drng_state) : Z :=
  let st := Z.land (status state) LC_XDRBG_DRNG_KEYSIZE_MASK in
  if st =? lc_xdrbg_keysize_xdrbg128 then u8 LC_XDRBG128_DRNG_KEYSIZE
  else if st =? lc_xdrbg_keysize_xdrbg256 then u8 LC_XDRBG256_DRNG_KEYSIZE
  else if st =? lc_xdrbg_keysize_xdrbg512 then u8 LC_XDRBG512_DRNG_KEYSIZE
  else 255.

(** lc_xdrbg_drng_encode; the parameter [n] is a [uint8_t]. *)
Definition lc_xdrbg_drng_encode (xof_ctx : lc_hash_ctx) (n : Z)
    (alpha : list Z) : lc_hash_ctx :=
  let n := u8 n in
  let alphalen := len alpha in
  let alphalen := if 84 <? alphalen then 84 else alphalen in
  let encode := u8 (n + alphalen) in
  let xof_ctx := lc_hash_update xof_ctx (ztake alphalen alpha) in
  lc_hash_update xof_ctx [encode].

Definition set_v (state : lc_xdrbg_drng_state) (bytes : list Z) :=
  mk_state (status state) (chunksize state) (xof state)
           (store (v state) bytes).

(** lc_xdrbg_drng_fke_init_ctx *)
Definition lc_xdrbg_drng_fke_init_ctx (state : lc_xdrbg_drng_state)
    (alpha : list Z)
    : Z * lc_xdrbg_drng_state * lc_hash_ctx * list event :=
  let keysize := lc_xdrbg_keysize state in
  let '(ret, xof_ctx) := lc_hash_init (xof state) in
  if negb (ret =? 0) then (ret, state, xof_ctx, [])
  else
    let xof_ctx := lc_hash_update xof_ctx (ztake keysize (v state)) in
    let xof_ctx :=
      lc_xdrbg_drng_encode xof_ctx (LC_XDRBG_DRNG_ENCODE_N 2) alpha in
    let '(xof_ctx, k) := lc_xdrbg_xof_final (xof state) xof_ctx keysize in
    (0, set_v state k, xof_ctx, [StoreKey k]).

Definition gen_result : Type :=
  Z * lc_xdrbg_drng_state * list Z * list event.

(** The loop of lc_xdrbg_drng_generate; [None] when the iteration budget
    is used up. *)
Fixpoint generate_loop (fuel : nat) (state : lc_xdrbg_drng_state)
    (alpha : list Z) (outlen : Z) (out : list Z) (tr : list event)
    : option gen_result :=
  if outlen =? 0 then Some (0, state, out, tr)
  else
    match fuel with
    | O => None
    | S fuel =>
      let todo := min_size outlen (chunksize state) in
      let '(ret, state, xof_ctx, ev) :=
        lc_xdrbg_drng_fke_init_ctx state alpha in
      if negb (ret =? 0) then Some (ret, state, out, tr ++ ev)
      else
        let '(_, bytes) := lc_xdrbg_xof_final (xof state) xof_ctx todo in
        generate_loop fuel state alpha (outlen - todo)
          (out ++ bytes) (tr ++ ev ++ [Release bytes])
    end.

(** lc_xdrbg_drng_generate; the result is the return code together with
    the state, output and writes when the state pointer is not null. *)
Definition lc_xdrbg_drng_generate (_state : option lc_xdrbg_drng_state)
    (alpha : list Z) (outlen : Z) : option (Z * option gen_result) :=
  match _state with
  | None => Some (- EINVAL, None)
  | Some state =>
    option_map (fun res => (fst (fst (fst res)), Some res))
      (generate_loop (Z.to_nat outlen) state alpha outlen [] [])
  end.

(** The body of lc_xdrbg_drng_seed_nocheck once [keysize] has been read
    from the state. *)
Definition seed_body (state : lc_xdrbg_drng_state) (keysize : Z)
    (seed alpha : list Z) : Z * lc_xdrbg_drng_state * list event :=
  let initially_seeded := lc_xdrbg_initially_seeded state in
  let '(ret, xof_ctx) := lc_hash_init (xof state) in
  if negb (ret =? 0) then (ret, state, [])
  else
    let '(xof_ctx, state) :=
      if negb (initially_seeded =? 0)
      then (lc_hash_update xof_ctx (ztake keysize (v state)), state)
      else (xof_ctx,
            mk_state (Z.lor (status state) LC_XDRBG_DRNG_INITIALLY_SEEDED)
                     (chunksize state) (xof state) (v state)) in
    let xof_ctx := lc_hash_update xof_ctx seed in
    let xof_ctx :=
      lc_xdrbg_drng_encode xof_ctx (LC_XDRBG_DRNG_ENCODE_N initially_seeded)
        alpha in
    let '(_, k) := lc_xdrbg_xof_final (xof state) xof_ctx keysize in
    (0, set_v state k, [StoreKey k]).

(** lc_xdrbg_drng_seed_nocheck: the declarations call
    [lc_xdrbg_keysize(state)], which reads [state->status]; there is no
    null check. *)
Definition lc_xdrbg_drng_seed_nocheck (_state : option lc_xdrbg_drng_state)
    (seed alpha : list Z)
    : outcome (Z * option lc_xdrbg_drng_state * list event) :=
  let* state := deref _state in
  let keysize := lc_xdrbg_keysize state in
  let '(ret, state, tr) := seed_body state keysize seed alpha in
  Done (ret, Some state, tr).

(** lc_xdrbg_drng_zero: the seeded flag is cleared with the [uint8_t]
    complement of its mask, then [lc_xdrbg_keysize(state)] bytes of [v]
    are set to zero. *)
Definition lc_xdrbg_drng_zero (_state : option lc_xdrbg_drng_state)
    : option lc_xdrbg_drng_state :=
  match _state with
  | None => None
  | Some state =>
    let state :=
      mk_state
        (Z.land (status state) (u8 (Z.lnot LC_XDRBG_DRNG_INITIALLY_SEEDED)))
        (chunksize state) (xof state) (v state) in
    Some (set_v state (repeat 0 (Z.to_nat (lc_xdrbg_keysize state))))
  end.

End XdrbgDrng.

End Xdrbg.

End Drng.

(** ** KMAC in XOF mode over the sponge engine *)

Module KmacXof.

Import Sponge.

(** Big-endian bytes of a length below 2^16, and the integer encodings of
    SP 800-185. *)
Definition be_bytes (x : Z) : list Z :=
  if x <? 256 then [x] else [x / 256; x mod 256].
Definition left_encode (x : Z) : list Z := len (be_bytes x) :: be_bytes x.
Definition right_encode (x : Z) : list Z := be_bytes x ++ [len (be_bytes x)].
Definition encode_string (s : list Z) : list Z :=
  left_encode (8 * len s) ++ s.
Definition bytepad (x : list Z) (w : Z) : list Z :=
  let y := left_encode w ++ x in
  y ++ repeat 0 (Z.to_nat ((w - len y mod w) mod w)).

(** cSHAKE-256 after its init: rate 136, padding byte 0x04, and
    [bytepad(encode_string(N) || encode_string(S), rate)] absorbed. *)
Definition cshake256_init (n s : list Z) : option lc_sha3_224_state :=
  Keccak.absorb_arm (Some (mk_state Keccak.zero_lanes 0 0 0 136 4 false))
    (bytepad (encode_string n ++ encode_string s) 136).

(** The first [n] output bytes of KMAC in XOF mode. *)
Definition kmac_bytes (k x s : list Z) (n : Z) : list Z :=
  match cshake256_init (Drng.bytes_of_string "KMAC") s with
  | None => []
  | Some c =>
    match Keccak.absorb_arm (Some c)
            (bytepad (encode_string k) 136 ++ x ++ right_encode 0) with
    | None => []
    | Some c => snd (Keccak.squeeze_arm (set_digestsize n c) true)
    end
  end.

(** Modelled from the spec: KMAC of lc_kmac.h, which is not among the
    sources, in XOF mode: cSHAKE-256 with N = "KMAC" and the
    caller's customization string S absorbs
    [bytepad(encode_string(K), rate)], the message and [right_encode(0)],
    and is squeezed.  The result is the output stream; its first 512
    bytes are computed once. *)
Definition KMACXOF256 (k x s : list Z) : nat -> Z :=
  let prefix := kmac_bytes k x s 512 in
  fun i =>
    if (i <? 512)%nat then nth i prefix 0
    else nth i (kmac_bytes k x s (Z.of_nat (S i))) 0.

(** The first [n] output bytes of SHAKE-256 (rate 136, padding 0x1f). *)
Definition shake256_bytes (msg : list Z) (n : Z) : list Z :=
  match Keccak.absorb_arm
          (Some (mk_state Keccak.zero_lanes 0 0 0 136 31 false)) msg with
  | None => []
  | Some c => snd (Keccak.squeeze_arm (set_digestsize n c) true)
  end.

(** SHAKE-256 as the XOF of an XDRBG state. *)
Definition lc_shake256 : Drng.Xdrbg.lc_hash :=
  Drng.Xdrbg.mk_hash 0
    (fun msg =>
       let prefix := shake256_bytes msg 512 in
       fun i =>
         if (i <? 512)%nat then nth i prefix 0
         else nth i (shake256_bytes msg (Z.of_nat (S i))) 0).

End KmacXof.

(** ** ChaCha20 DRNG (chacha20_drng.c) *)

Module ChaCha20Drng.

Definition LC_CC20_KEY_SIZE : Z := 32.
Definition LC_CC20_KEY_SIZE_WORDS : Z := 8.
Definition LC_CC20_BLOCK_SIZE : Z := 64.
Definition LC_CC20_BLOCK_SIZE_WORDS : Z := 16.

(** [struct lc_sym_state] of lc_chacha20_private.h: the 16 words of the
    ChaCha20 state.  [key] holds the words [key.u]; the byte view [key.b]
    is little-endian. [counter[0]] is the block counter, [counter[1..3]]
    the nonce. *)
Record lc_sym_state : Type := mk_state {
  constants : list Z;
  key : list Z;
  counter : list Z
}.

Definition set_key (k : list Z) (s : lc_sym_state) :=
  mk_state (constants s) k (counter s).
Definition set_counter (c : list Z) (s : lc_sym_state) :=
  mk_state (constants s) (key s) c.

Definition word (l : list Z) (i : nat) : Z := nth i l 0.

Definition rol32 (x n : Z) : Z :=
  u32 (Z.lor (Z.shiftl x n) (Z.shiftr x (32 - n))).

Definition quarterround (a b c d : nat) (ws : list Z) : list Z :=
  let ws := <[a := u32 (word ws a + word ws b)]> ws in
  let ws := <[d := rol32 (Z.lxor (word ws d) (word ws a)) 16]> ws in
  let ws := <[c := u32 (word ws c + word ws d)]> ws in
  let ws := <[b := rol32 (Z.lxor (word ws b) (word ws c)) 12]> ws in
  let ws := <[a := u32 (word ws a + word ws b)]> ws in
  let ws := <[d := rol32 (Z.lxor (word ws d) (word ws a)) 8]> ws in
  let ws := <[c := u32 (word ws c + word ws d)]> ws in
  <[b := rol32 (Z.lxor (word ws b) (word ws c)) 7]> ws.

Definition doubleround (ws : list Z) : list Z :=
  let ws := quarterround 0 4 8 12 ws in
  let ws := quarterround 1 5 9 13 ws in
  let ws := quarterround 2 6 10 14 ws in
  let ws := quarterround 3 7 11 15 ws in
  let ws := quarterround 0 5 10 15 ws in
  let ws := quarterround 1 6 11 12 ws in
  let ws := quarterround 2 7 8 13 ws in
  quarterround 3 4 9 14 ws.

Definition state_words (s : lc_sym_state) : list Z :=
  constants s ++ key s ++ counter s.

(** Modelled from the spec: cc20_block of the ChaCha20 implementation,
    which is not among the sources.  It is the block function
    of RFC 7539 (ten double rounds, then the addition of the input
    state); the result is the 16 keystream words, stored little-endian,
    and the state with the 32 bit block counter [counter[0]] advanced by
    one, which the loop of lc_cc20_drng_generate relies on for
    consecutive blocks (see its comment on the 32 bit counter). *)
Definition cc20_block (s : lc_sym_state) : lc_sym_state * list Z :=
  let ws := Nat.iter 10 doubleround (state_words s) in
  let stream := zip_with (fun a b => u32 (a + b)) ws (state_words s) in
  (set_counter (<[0%nat := u32 (word (counter s) 0 + 1)]> (counter s)) s,
   stream).

(** The loop [for (i = 0; i < LC_CC20_KEY_SIZE_WORDS; i++)
    key.u[i] ^= le_bswap32(src[i])]. *)
Definition xor_key (k : list Z) (src : list Z) : list Z :=
  zip_with Z.lxor k (take 8 (src ++ repeat 0 8)).

(** The nonce increment at the end of lc_cc20_drng_update. *)
Definition increment_nonce (c : list Z) : list Z :=
  let c := <[1%nat := u32 (word c 1 + 1)]> c in
  if word c 1 =? 0 then
    let c := <[2%nat := u32 (word c 2 + 1)]> c in
    if word c 2 =? 0 then <[3%nat := u32 (word c 3 + 1)]> c
    else c
  else c.

(** lc_cc20_drng_update on a non-null context.  [buf] holds the words of
    the caller's keystream block. *)
Definition lc_cc20_drng_update (s : lc_sym_state) (buf : list Z)
    (used_words : Z) : lc_sym_state :=
  let s :=
    if LC_CC20_KEY_SIZE_WORDS <? used_words then
      let '(s, tmp) := cc20_block s in
      set_key (xor_key (key s) tmp) s
    else
      set_key (xor_key (key s) (drop (Z.to_nat used_words) buf)) s in
  set_counter (increment_nonce (counter s)) s.

(** Little-endian bytes of 32 bit words, and back. *)
Definition word_bytes (w : Z) : list Z :=
  [u8 w; u8 (Z.shiftr w 8); u8 (Z.shiftr w 16); u8 (Z.shiftr w 24)].
Definition words_bytes (ws : list Z) : list Z := flat_map word_bytes ws.

(** [key.b[i] ^= byte]: byte [i mod 4] of word [i / 4]. *)
Definition xor_key_byte (k : list Z) (i : nat) (byte : Z) : list Z :=
  alter (fun w => Z.lxor w (Z.shiftl byte (8 * Z.of_nat (i mod 4))))
        (i / 4)%nat k.

Fixpoint xor_key_bytes (k : list Z) (i : nat) (inbuf : list Z) : list Z :=
  match inbuf with
  | [] => k
  | b :: rest => xor_key_bytes (xor_key_byte k i b) (S i) rest
  end.

(** The loop [while (inbuflen) { ... }] of lc_cc20_drng_seed. *)
Fixpoint seed_loop (fuel : nat) (s : lc_sym_state) (inbuf : list Z)
    : lc_sym_state :=
  match fuel, inbuf with
  | O, _ => s
  | _, [] => s
  | S fuel, _ =>
    let todo := min_size (len inbuf) LC_CC20_KEY_SIZE in
    let s := set_key (xor_key_bytes (key s) 0 (ztake todo inbuf)) s in
    let s := lc_cc20_drng_update s [] LC_CC20_BLOCK_SIZE_WORDS in
    seed_loop fuel s (zdrop todo inbuf)
  end.

(** lc_cc20_drng_seed past the self-test gate. *)
Definition lc_cc20_drng_seed (cc20_ctx : option lc_sym_state)
    (inbuf : list Z) : Z * option lc_sym_state :=
  match cc20_ctx with
  | None => (- Drng.EINVAL, None)
  | Some s => (0, Some (seed_loop (length inbuf) s inbuf))
  end.

(** The loop [while (outbuflen >= LC_CC20_BLOCK_SIZE)] over the whole
    blocks. *)
Fixpoint generate_blocks (n : nat) (s : lc_sym_state) (out : list Z)
    : lc_sym_state * list Z :=
  match n with
  | O => (s, out)
  | S n =>
    let '(s, stream) := cc20_block s in
    generate_blocks n s (out ++ words_bytes stream)
  end.

(** lc_cc20_drng_generate on a non-null context: the state and the
    bytes written to [outbuf].  [aligned_buf] is read by the update only
    after a partial block has been put into it. *)
Definition lc_cc20_drng_generate (s : lc_sym_state) (outbuflen : Z)
    : lc_sym_state * list Z :=
  let '(s, out) :=
    generate_blocks (Z.to_nat (outbuflen / LC_CC20_BLOCK_SIZE)) s [] in
  let outbuflen := outbuflen mod LC_CC20_BLOCK_SIZE in
  if negb (outbuflen =? 0) then
    let '(s, aligned_buf) := cc20_block s in
    let out := out ++ ztake outbuflen (words_bytes aligned_buf) in
    let used := (outbuflen + 4 - 1) / 4 in
    (lc_cc20_drng_update s aligned_buf used, out)
  else
    (lc_cc20_drng_update s [] LC_CC20_BLOCK_SIZE_WORDS, out).

Definition zero_state : lc_sym_state :=
  mk_state [0x61707865; 0x3320646e; 0x79622d32; 0x6b206574]
           (repeat 0 8) (repeat 0 4).

End ChaCha20Drng.

(** ** Hash based AEAD (lc_hc_* of the hash crypt source) *)

Module HashCrypt.

Definition EBADMSG : Z := 74.
Definition LC_SHA_MAX_SIZE_DIGEST : nat := 64.

(** Memory is one array of bytes, pointers are offsets into it; byte
    counts are [nat]: the code never lets one of its [size_t]
    subtractions go below zero. *)
Definition load (m : list Z) (p n : nat) : list Z := take n (drop p m).

Definition store_at (m : list Z) (p : nat) (bytes : list Z) : list Z :=
  take p m ++ bytes ++ drop (p + length bytes) m.

(** xor_64(dst, src, n) on the bytes. *)
Definition xor_bytes (a b : list Z) : list Z := zip_with Z.lxor a b.

(** Modelled from the spec: the HMAC context of lc_hmac.h, which is not
    among the sources.  The MAC is a function of the key and
    of the concatenation of everything fed by update; final completes
    the inner hash and returns the outer digest. *)
Record lc_hmac_ctx : Type := mk_hmac {
  hmac_key : list Z;
  hmac_msg : list Z;
  hmac_finalized : bool
}.

Section HashAead.

(** Modelled from the spec: the RNG capability behind [struct
    lc_rng_ctx] (seed and generate with their return codes), the MAC
    function and its digest size, the return code of lc_hmac_init, and
    the constant LC_HC_KEYSTREAM_BLOCK of lc_hash_crypt.h. *)
Variable rng_state : Type.
Variable lc_rng_seed : rng_state -> list Z -> list Z -> Z * rng_state.
Variable lc_rng_generate : rng_state -> list Z -> nat -> Z * rng_state * list Z.
Variable HMAC : list Z -> list Z -> list Z.
Variable digestsize : nat.
Variable hmac_init_ret : Z.
Variable LC_HC_KEYSTREAM_BLOCK : nat.

Record lc_hc_cryptor : Type := mk_hc {
  drbg : rng_state;
  auth_ctx : lc_hmac_ctx;
  keystream : list Z;
  keystream_ptr : nat
}.

Definition set_drbg (d : rng_state) (hc : lc_hc_cryptor) :=
  mk_hc d (auth_ctx hc) (keystream hc) (keystream_ptr hc).
Definition set_auth_ctx (a : lc_hmac_ctx) (hc : lc_hc_cryptor) :=
  mk_hc (drbg hc) a (keystream hc) (keystream_ptr hc).
Definition set_keystream (k : list Z) (hc : lc_hc_cryptor) :=
  mk_hc (drbg hc) (auth_ctx hc) k (keystream_ptr hc).
Definition set_keystream_ptr (p : nat) (hc : lc_hc_cryptor) :=
  mk_hc (drbg hc) (auth_ctx hc) (keystream hc) p.

Definition lc_hmac_init (key : list Z) : Z * lc_hmac_ctx :=
  (hmac_init_ret, mk_hmac key [] false).
Definition lc_hmac_update (ctx : lc_hmac_ctx) (data : list Z) : lc_hmac_ctx :=
  mk_hmac (hmac_key ctx) (hmac_msg ctx ++ data) (hmac_finalized ctx).
Definition lc_hmac_final (ctx : lc_hmac_ctx) : lc_hmac_ctx * list Z :=
  (mk_hmac (hmac_key ctx) (hmac_msg ctx) true,
   HMAC (hmac_key ctx) (hmac_msg ctx)).

(** lc_rng_generate(drbg, NULL, 0, hc->keystream, n): on success the
    bytes land at the start of the keystream buffer. *)
Definition generate_keystream (hc : lc_hc_cryptor) (n : nat)
    : Z * lc_hc_cryptor :=
  let '(ret, d, ks) := lc_rng_generate (drbg hc) [] n in
  let hc := set_drbg d hc in
  if negb (ret =? 0) then (ret, hc)
  else (0, set_keystream (store (keystream hc) ks) hc).

(** lc_hc_setkey_nocheck, which lc_hc_setkey calls behind the self-test;
    [None] is the null key pointer. *)
Definition lc_hc_setkey_nocheck (hc : lc_hc_cryptor) (key : option (list Z))
    (iv : list Z) : Z * lc_hc_cryptor :=
  match key with
  | None => (- Drng.EINVAL, hc)
  | Some key =>
    if (length key =? 0)%nat then (- Drng.EINVAL, hc)
    else
      let '(ret, d) := lc_rng_seed (drbg hc) key iv in
      let hc := set_drbg d hc in
      if negb (ret =? 0) then (ret, hc)
      else
        let '(ret, hc) := generate_keystream hc LC_SHA_MAX_SIZE_DIGEST in
        if negb (ret =? 0) then (ret, hc)
        else
          let '(ret, a) :=
            lc_hmac_init (take LC_SHA_MAX_SIZE_DIGEST (keystream hc)) in
          let hc := set_auth_ctx a hc in
          if negb (ret =? 0) then (ret, hc)
          else
            let '(ret, hc) := generate_keystream hc LC_HC_KEYSTREAM_BLOCK in
            if negb (ret =? 0) then (ret, hc)
            else (ret, set_keystream_ptr 0 hc)
  end.

(** The loop of lc_hc_crypt over memory [m], reading at [in_p] and
    writing at [out_p]; [None] when the iteration budget is used up. *)
Fixpoint crypt_loop (fuel : nat) (hc : lc_hc_cryptor) (m : list Z)
    (in_p out_p len : nat) : option (lc_hc_cryptor * list Z) :=
  if (len =? 0)%nat then Some (hc, m)
  else
    match fuel with
    | O => None
    | S fuel =>
      let todo := Nat.min len LC_HC_KEYSTREAM_BLOCK in
      let '(ret, hc) :=
        if (LC_HC_KEYSTREAM_BLOCK <=? keystream_ptr hc)%nat then
          let '(ret, hc) := generate_keystream hc LC_HC_KEYSTREAM_BLOCK in
          if negb (ret =? 0) then (ret, hc)
          else (0, set_keystream_ptr 0 hc)
        else (0, hc) in
      if negb (ret =? 0) then Some (hc, m)
      else
        let todo :=
          Nat.min todo (LC_HC_KEYSTREAM_BLOCK - keystream_ptr hc) in
        let m := if (in_p =? out_p)%nat then m
                 else store_at m out_p (load m in_p todo) in
        let m := store_at m out_p
                   (xor_bytes (load m out_p todo)
                              (load (keystream hc) (keystream_ptr hc) todo)) in
        crypt_loop fuel (set_keystream_ptr (keystream_ptr hc + todo) hc) m
          (in_p + todo) (out_p + todo) (len - todo)
    end.

(** lc_hc_crypt.  The loop takes at least one byte per iteration as soon
    as LC_HC_KEYSTREAM_BLOCK is positive, so [len] iterations are
    enough. *)
Definition lc_hc_crypt (hc : lc_hc_cryptor) (m : list Z)
    (in_p out_p len : nat) : lc_hc_cryptor * list Z :=
  match crypt_loop len hc m in_p out_p len with
  | Some res => res
  | None => (hc, m)
  end.

(** lc_hc_add_aad *)
Definition lc_hc_add_aad (hc : lc_hc_cryptor) (aad : list Z) : lc_hc_cryptor :=
  set_auth_ctx (lc_hmac_update (auth_ctx hc) aad) hc.

(** lc_hc_encrypt_tag; [tag] is the content of the tag buffer before the
    call, the result its content after it. *)
Definition lc_hc_encrypt_tag (hc : lc_hc_cryptor) (tag : list Z)
    (taglen : nat) : lc_hc_cryptor * list Z :=
  if (LC_SHA_MAX_SIZE_DIGEST <? digestsize)%nat then (hc, tag)
  else
    let '(a, digest) := lc_hmac_final (auth_ctx hc) in
    if (taglen <? digestsize)%nat
    then (set_auth_ctx a hc, store tag (take taglen digest))
    else (set_auth_ctx a hc, store tag digest).

(** lc_hc_encrypt *)
Definition lc_hc_encrypt (hc : lc_hc_cryptor) (m : list Z)
    (plaintext ciphertext datalen : nat) : lc_hc_cryptor * list Z :=
  let '(hc, m) := lc_hc_crypt hc m plaintext ciphertext datalen in
  (set_auth_ctx (lc_hmac_update (auth_ctx hc) (load m ciphertext datalen)) hc,
   m).

(** lc_hc_decrypt *)
Definition lc_hc_decrypt (hc : lc_hc_cryptor) (m : list Z)
    (ciphertext plaintext datalen : nat) : lc_hc_cryptor * list Z :=
  let hc :=
    set_auth_ctx (lc_hmac_update (auth_ctx hc) (load m ciphertext datalen))
                 hc in
  lc_hc_crypt hc m ciphertext plaintext datalen.

(** lc_hc_encrypt_oneshot: the cryptor, the memory and the tag buffer. *)
Definition lc_hc_encrypt_oneshot (hc : lc_hc_cryptor) (m : list Z)
    (plaintext ciphertext datalen : nat) (aad : list Z)
    (tag : list Z) (taglen : nat) : lc_hc_cryptor * list Z * list Z :=
  let hc := lc_hc_add_aad hc aad in
  let '(hc, m) := lc_hc_encrypt hc m plaintext ciphertext datalen in
  let '(hc, tag) := lc_hc_encrypt_tag hc tag taglen in
  (hc, m, tag).

(** lc_memcmp_secure(a, n, b, n): zero exactly when the [n] bytes agree. *)
Definition lc_memcmp_secure (a b : list Z) (n : nat) : bool :=
  negb (bool_decide (take n a = take n b)).

(** lc_hc_decrypt_authenticate; [calctag] is what the uninitialised
    stack array holds on entry. *)
Definition lc_hc_decrypt_authenticate (hc : lc_hc_cryptor)
    (calctag : list Z) (tag : list Z) (taglen : nat) : Z * lc_hc_cryptor :=
  if (LC_SHA_MAX_SIZE_DIGEST <? taglen)%nat then (- Drng.EINVAL, hc)
  else
    let '(hc, calctag) := lc_hc_encrypt_tag hc calctag taglen in
    ((if lc_memcmp_secure calctag tag taglen then - EBADMSG else 0), hc).

(** lc_hc_decrypt_oneshot: return code, cryptor and memory. *)
Definition lc_hc_decrypt_oneshot (hc : lc_hc_cryptor) (m : list Z)
    (ciphertext plaintext datalen : nat) (aad : list Z)
    (calctag : list Z) (tag : list Z) (taglen : nat)
    : Z * lc_hc_cryptor * list Z :=
  let hc := lc_hc_add_aad hc aad in
  let '(hc, m) := lc_hc_decrypt hc m ciphertext plaintext datalen in
  let '(ret, hc) := lc_hc_decrypt_authenticate hc calctag tag taglen in
  (ret, hc, m).

End HashAead.

End HashCrypt.

(** ** Conditional moves (sidechannel_resistantce.h) *)

(** [uint16_t] wrap-around. *)
Definition u16 (x : Z) : Z := x mod 2 ^ 16.

Module SideChannel.

(** Conversion of an [int] value to [int16_t] and of a wider value to
    [int] (32 bit), both two's complement. *)
Definition s16 (x : Z) : Z := (x + 2 ^ 15) mod 2 ^ 16 - 2 ^ 15.
Definition s32 (x : Z) : Z := (x + 2 ^ 31) mod 2 ^ 32 - 2 ^ 31.

(** The loop of cmov from index [i] on, [n] rounds to go:
    [r[i] ^= (b & (r[i] ^ x[i])) ^ opt_blocker].  A read past the end of
    an array, undefined in C, gives 0 here and a write there is dropped. *)
Fixpoint cmov_loop (n : nat) (r x : list Z) (i : nat) (b opt_blocker : Z)
    : list Z :=
  match n with
  | O => r
  | S n' =>
    let ri := nth i r 0 in
    let xi := nth i x 0 in
    cmov_loop n'
      (<[i := u8 (Z.lxor ri (Z.lxor (Z.land b (Z.lxor ri xi)) opt_blocker))]>
         r)
      x (S i) b opt_blocker
  end.

(** cmov.  The volatile [optimization_blocker_int8] is declared outside
    this header; its value at the time of the call is an argument. *)
Definition cmov (optimization_blocker_int8 : Z) (r x : list Z) (len : Z)
    (b : Z) : list Z :=
  let opt_blocker := u8 optimization_blocker_int8 in
  let b := u8 (- b) in
  cmov_loop (Z.to_nat len) r x 0 b opt_blocker.

(** cmov_int16: [b = -b; *r ^= (int16_t)(b & (( *r) ^ v))] with [b] a
    [uint16_t]; the operands of [&] and [^] are promoted to [int]. *)
Definition cmov_int16 (r v : Z) (b : Z) : Z :=
  let b := u16 (- b) in
  s16 (Z.lxor r (s16 (Z.land b (Z.lxor r v)))).

(** cmov_uint32: the same on [uint32_t], the condition too. *)
Definition cmov_uint32 (r v : Z) (b : Z) : Z :=
  let b := u32 (- b) in
  u32 (Z.lxor r (u32 (Z.land b (Z.lxor r v)))).

(** cmov_int: the value is an [int], the condition a [uint16_t]. *)
Definition cmov_int (r v : Z) (b : Z) : Z :=
  let b := u16 (- b) in
  s32 (Z.lxor r (s32 (Z.land b (Z.lxor r v)))).

End SideChannel.

(** ** GF(2^8) helpers of HQC (gf.c) *)

Module Gf.

(** One round of trailing_zero_bits_count on the pair [(tmp, mask)]:
    [tmp += (uint16_t)((1 - ((a >> i) & 0x0001)) & mask);
     mask &= (uint16_t)(-(1 - ((a >> i) & 0x0001)))]. *)
Definition tzbc_round (a : Z) (st : Z * Z) (i : Z) : Z * Z :=
  let '(tmp, mask) := st in
  let tmp := u16 (tmp + u16 (Z.land (1 - Z.land (Z.shiftr a i) 1) mask)) in
  let mask :=
    u16 (Z.land mask (u16 (- (1 - Z.land (Z.shiftr a i) 1)))) in
  (tmp, mask).

(** trailing_zero_bits_count: fourteen rounds, [i] from 0 to 13. *)
Definition trailing_zero_bits_count (a : Z) : Z :=
  fst (fold_left (tzbc_round a) (map Z.of_nat (seq 0 14)) (0, 65535)).

(** The selection mask of gf_carryless_mul,
    [(uint32_t)(0 - (1 - ((uint32_t)(tmp2 | (0 - tmp2)) >> 31)))]. *)
Definition select_mask (tmp2 : Z) : Z :=
  u32 (0 - u32 (1 - Z.shiftr (u32 (Z.lor tmp2 (u32 (0 - tmp2)))) 31)).

(** The inner loop of gf_carryless_mul over [j] from 0 to 3, starting
    from [g = 0]: [tmp2 = (uint32_t)(tmp1 - j);
    g ^= (uint16_t)(u[j] & mask)], the difference taken in [size_t]. *)
Definition select_u (u : list Z) (tmp1 : Z) : Z :=
  fold_left
    (fun g j =>
       let tmp2 := u32 (u64 (tmp1 - j)) in
       Z.lxor g (u16 (Z.land (nth (Z.to_nat j) u 0) (select_mask tmp2))))
    [0; 1; 2; 3] 0.

(** gf_carryless_mul; the result is the pair [(c[0], c[1])]. *)
Definition gf_carryless_mul (a b : Z) : Z * Z :=
  let u1 := Z.land b 127 in
  let u2 := u16 (Z.shiftl u1 1) in
  let u3 := Z.lxor u2 u1 in
  let u := [0; u1; u2; u3] in
  let l := select_u u (Z.land a 3) in
  let h := 0 in
  let '(l, h) :=
    fold_left
      (fun '(l, h) i =>
         let g := select_u u (Z.land (Z.shiftr a i) 3) in
         (u16 (Z.lxor l (Z.shiftl g i)),
          u16 (Z.lxor h (Z.shiftr g (8 - i)))))
      [2; 4; 6] (l, h) in
  let mask := u16 (- Z.land (Z.shiftr b 7) 1) in
  let l := u16 (Z.lxor l (Z.land (Z.shiftl a 7) mask)) in
  let h := u16 (Z.lxor h (Z.land (Z.shiftr a 1) mask)) in
  (u8 l, u8 h).

End Gf.

(** * Properties *)

(** ** Sponge engine *)

Module SpongeSpec.

Import Sponge.

(** Fresh contexts as the variants' init functions leave them: zero
    lanes, [msg_len = 0], [offset = 0], absorbing. *)
Definition sha3_256_ctx : lc_sha3_224_state :=
  mk_state Keccak.zero_lanes 0 32 0 136 6 false.
Definition shake128_ctx (digestsize : Z) : lc_sha3_224_state :=
  mk_state Keccak.zero_lanes 0 digestsize 0 168 31 false.

Definition ascii_abc : list Z := [97; 98; 99].

(** Known answers of FIPS 202 through the embedded functions. *)
Example sha3_256_empty :
  snd (Keccak.squeeze_arm sha3_256_ctx true) =
  [0xa7; 0xff; 0xc6; 0xf8; 0xbf; 0x1e; 0xd7; 0x66; 0x51; 0xc1; 0x47; 0x56;
   0xa0; 0x61; 0xd6; 0x62; 0xf5; 0x80; 0xff; 0x4d; 0xe4; 0x3b; 0x49; 0xfa;
   0x82; 0xd8; 0x0a; 0x4b; 0x80; 0xf8; 0x43; 0x4a].
Proof. vm_compute. reflexivity. Qed.

Example sha3_256_abc :
  option_map (fun c => snd (Keccak.squeeze_arm c true))
             (Keccak.absorb_arm (Some sha3_256_ctx) ascii_abc) =
  Some
  [0x3a; 0x98; 0x5d; 0xa7; 0x4f; 0xe2; 0x25; 0xb2; 0x04; 0x5c; 0x17; 0x2d;
   0x6b; 0xd3; 0x90; 0xbd; 0x85; 0x5f; 0x08; 0x6e; 0x3e; 0x9d; 0x52; 0x5b;
   0x46; 0xbf; 0xe2; 0x45; 0x11; 0x43; 0x15; 0x32].
Proof. vm_compute. reflexivity. Qed.

Example shake256_empty :
  KmacXof.shake256_bytes [] 32 =
  [0x46; 0xb9; 0xdd; 0x2b; 0x0b; 0xa8; 0x8d; 0x13; 0x23; 0x3b; 0x3f; 0xeb;
   0x74; 0x3e; 0xeb; 0x24; 0x3f; 0xcd; 0x52; 0xea; 0x62; 0xb8; 0x1b; 0x82;
   0xb5; 0x0c; 0x27; 0x64; 0x6e; 0xd5; 0x76; 0x2f].
Proof. vm_compute. reflexivity. Qed.

Section Engine.

Variable absorb : list Z -> list Z -> Z -> list Z * Z.
Variable squeeze : list Z -> Z -> Z -> list Z * list Z.
Variable keccakf1600 : list Z -> list Z.

Local Abbreviation absorb_internal :=
  (keccak_arm_asm_absorb_internal absorb keccakf1600).
Local Abbreviation squeeze_internal :=
  (keccak_arm_asm_squeeze_internal squeeze keccakf1600).

Lemma fill_one_byte A b pos :
  sha3_fill_state_bytes A [b] pos 1 = state_xor_byte A pos b.
Proof. reflexivity. Qed.

Lemma u8_small x : 0 <= x < 256 -> u8 x = x.
Proof. intros H. unfold u8. apply Z.mod_small. exact H. Qed.



(** The guard of the finalize block: a padding byte of 0x80 or more on
    the last byte of the block gets a permutation of its own before 0x80
    is XORed in. *)
Lemma finalize_guard_extra_permutation (ctx : lc_sha3_224_state) :
  0 < r ctx < 256 ->
  128 <= padding ctx ->
  msg_len ctx mod r ctx = r ctx - 1 ->
  state (finalize_absorb keccakf1600 ctx (r ctx)) =
    keccakf1600
      (state_xor_byte
         (keccakf1600
            (state_xor_byte (state ctx) (r ctx - 1) (padding ctx)))
         (r ctx - 1) 128).
Proof.
  intros Hr Hpad Hpart. unfold finalize_absorb.
  rewrite Hpart, (u8_small (r ctx - 1)) by lia.
  rewrite fill_one_byte.
  assert (H1 : (128 <=? padding ctx) = true) by (apply Z.leb_le; exact Hpad).
  rewrite H1, Z.eqb_refl. reflexivity.
Qed.

(** C5, as the code has it.  An update on a sponge that is already
    squeezing is not rejected: [squeeze_more] is cleared, the input
    length is added to [msg_len], and the data are absorbed exactly as
    for the same context with [squeeze_more] clear; [offset], rate,
    padding and digest size stay as they are. *)
Theorem update_after_squeeze_reabsorbs (ctx : lc_sha3_224_state)
    (inp : list Z) :
  exists ctx',
    absorb_internal (Some ctx) inp = Some ctx' /\
    absorb_internal (Some (set_squeeze_more false ctx)) inp = Some ctx' /\
    squeeze_more ctx' = false /\
    msg_len ctx' = u64 (msg_len ctx + len inp) /\
    offset ctx' = offset ctx /\ r ctx' = r ctx /\
    padding ctx' = padding ctx /\ digestsize ctx' = digestsize ctx.
Proof.
  unfold keccak_arm_asm_absorb_internal.
  cbn [set_squeeze_more set_msg_len msg_len r state].
  destruct (msg_len ctx mod r ctx =? 0).
  - eexists. split; [reflexivity |]. split; [reflexivity |].
    unfold absorb_tail. cbn [state]. destruct (_ <=? _).
    + destruct (absorb _ _ _). cbn. tauto.
    + cbn. tauto.
  - destruct (len inp <? _).
    + eexists. split; [reflexivity |]. split; [reflexivity |]. cbn. tauto.
    + eexists. split; [reflexivity |]. split; [reflexivity |].
      unfold absorb_tail. cbn [state set_state]. destruct (_ <=? _).
      * destruct (absorb _ _ _). cbn. tauto.
      * cbn. tauto.
Qed.



(** At a block boundary of the squeezing phase ([offset = 0]) the code
    cannot tell a consumed block from an untouched one: the zero-length
    squeeze permutes the lanes. *)
Lemma zero_squeeze_at_boundary_permutes (ctx : lc_sha3_224_state) :
  digestsize ctx = 0 ->
  squeeze_more ctx = true ->
  offset ctx = 0 ->
  state (fst (squeeze_internal ctx true)) =
    fst (squeeze (keccakf1600 (state ctx)) 0 (u8 (r ctx))).
Proof.
  intros Hd Hsq Hoff.
  unfold keccak_arm_asm_squeeze_internal. cbn [negb].
  rewrite Hsq, Hd, Hoff. cbn [Z.eqb negb].
  unfold squeeze_tail. cbn [state set_state].
  destruct (squeeze _ _ _) as [A out]. reflexivity.
Qed.


End Engine.


(** A SHAKE128 context that has delivered 5 bytes: squeezing, offset 5. *)
Definition shake128_squeezed_5 : lc_sha3_224_state :=
  fst (Keccak.squeeze_arm (shake128_ctx 5) true).

(** C5 fails as stated: the update on the squeezing context is carried
    out and changes it. *)
Lemma update_after_squeeze_not_rejected :
  squeeze_more shake128_squeezed_5 = true /\
  Keccak.absorb_arm (Some shake128_squeezed_5) ascii_abc
    <> Some shake128_squeezed_5.
Proof.
  split; [vm_compute; reflexivity |].
  intros H.
  apply (f_equal (option_map squeeze_more)) in H.
  vm_compute in H. discriminate H.
Qed.



(** The effect on the stream: after one whole block of SHAKE128 output,
    a zero-length squeeze makes the next squeeze skip a block. *)
Example zero_squeeze_skips_block :
  let after_block := fst (Keccak.squeeze_arm (shake128_ctx 168) true) in
  let direct := Keccak.squeeze_arm (set_digestsize 4 after_block) true in
  let zero := fst (Keccak.squeeze_arm (set_digestsize 0 after_block) true) in
  let later := Keccak.squeeze_arm (set_digestsize 4 zero) true in
  snd direct <> snd later.
Proof. vm_compute. intros H. discriminate H. Qed.

End SpongeSpec.

(** ** Fast-key-erasure DRBGs *)

Module DrngSpec.

Import Drng.

(** The bytes encode hands to the primitive for the operation number [n]:
    the 84 left-most bytes of alpha, then the byte [n * 85 + |alpha|]
    with the length clamped to 84. *)
Definition encoded (n : Z) (alpha : list Z) : list Z :=
  ztake 84 alpha ++ [n * 85 + Z.min (len alpha) 84].

(** The bytes put into the caller's buffer by a sequence of writes. *)
Fixpoint released (tr : list event) : list Z :=
  match tr with
  | [] => []
  | StoreKey _ :: tr => released tr
  | Release o :: tr => o ++ released tr
  end.

(** Fast key erasure over the chunks of one generate call.  [next_key s]
    is K(N+1) derived from the key in [s], [next_out s n] the [n] output
    bytes derived from that same key after K(N+1), and [put_key] stores a
    key.  Every chunk first stores K(N+1) and only then releases output;
    the following chunk starts from the state holding K(N+1). *)
Inductive fke_chunks {S : Type} (next_key : S -> list Z)
    (next_out : S -> Z -> list Z) (put_key : S -> list Z -> S)
    : S -> list event -> S -> Prop :=
| fke_done s : fke_chunks next_key next_out put_key s [] s
| fke_chunk s n tr s' :
    0 < n ->
    fke_chunks next_key next_out put_key (put_key s (next_key s)) tr s' ->
    fke_chunks next_key next_out put_key s
      (StoreKey (next_key s) :: Release (next_out s n) :: tr) s'.

Lemma released_app tr1 tr2 :
  released (tr1 ++ tr2) = released tr1 ++ released tr2.
Proof.
  induction tr1 as [| [k | o] tr1 IH]; cbn; [reflexivity | exact IH |].
  rewrite IH. apply app_assoc.
Qed.

Lemma len_app (a b : list Z) : len (a ++ b) = len a + len b.
Proof. unfold len. rewrite length_app. lia. Qed.

Lemma len_stream_bytes f pos n : 0 <= n -> len (stream_bytes f pos n) = n.
Proof.
  intros H. unfold len, stream_bytes. rewrite length_map, length_seq. lia.
Qed.

Lemma min_size_spec a b : min_size a b = Z.min a b.
Proof. unfold min_size. destruct (Z.ltb_spec a b); lia. Qed.

Lemma clamp_84 (alpha : list Z) :
  (if 84 <? len alpha then 84 else len alpha) = Z.min (len alpha) 84.
Proof. destruct (Z.ltb_spec 84 (len alpha)); lia. Qed.

Lemma ztake_clamp (alpha : list Z) :
  ztake (Z.min (len alpha) 84) alpha = ztake 84 alpha.
Proof.
  unfold ztake, len.
  destruct (Z.le_ge_cases (Z.of_nat (length alpha)) 84) as [H | H].
  - rewrite Z.min_l by exact H. rewrite Nat2Z.id.
    rewrite !take_ge; [reflexivity | lia | lia].
  - rewrite Z.min_r by lia. reflexivity.
Qed.

Lemma encode_byte_small n (alpha : list Z) :
  0 <= n <= 2 ->
  u8 (n * 85 + Z.min (len alpha) 84) = n * 85 + Z.min (len alpha) 84.
Proof.
  intros H. unfold u8, len. apply Z.mod_small. lia.
Qed.

Section KmacProps.

Import Kmac.

Variable KMACXOF256 : list Z -> list Z -> list Z -> nat -> Z.
Variable kmac_init_ret : Z.

Definition seed_string : list Z :=
  bytes_of_string LC_KMAC_DRNG_SEED_CUSTOMIZATION_STRING.
Definition generate_string : list Z :=
  bytes_of_string LC_KMAC_DRNG_CTX_CUSTOMIZATION_STRING.

(** R of section 2.4 in kmac_drng.c for the key held in [st]:
    KMAC(K(N), encode(additional input), S = "KMAC-DRNG generate"). *)
Definition kmac_R (addtl : list Z) (st : lc_kmac256_drng_state) : nat -> Z :=
  KMACXOF256 (ztake 64 (key st)) (encoded 2 addtl) generate_string.

(** T(0), the 512 left-most bits of R, and the following bytes T(1). *)
Definition kmac_next_key (addtl : list Z) (st : lc_kmac256_drng_state) :=
  stream_bytes (kmac_R addtl st) 0 64.
Definition kmac_next_out (addtl : list Z) (st : lc_kmac256_drng_state)
    (n : Z) := stream_bytes (kmac_R addtl st) 64 n.
Definition kmac_put_key (st : lc_kmac256_drng_state) (k : list Z) :=
  mk_state (initially_seeded st) (store (key st) k).

(** K(N+1) of section 2.3: KMAC(K(N), seed || encode(personalization),
    S = "KMAC-DRNG seed"), with no key and n = 0 on the first seed. *)
Definition kmac_seed_key (st : lc_kmac256_drng_state) (seed pers : list Z) :=
  stream_bytes
    (KMACXOF256 (if initially_seeded st =? 0 then [] else ztake 64 (key st))
                (seed ++ encoded (initially_seeded st) pers) seed_string)
    0 64.

Lemma kmac_encode_absorbs ctx n alpha :
  0 <= n <= 2 ->
  lc_kmac256_drng_encode ctx n alpha =
  mk_kmac (kmac_key ctx) (kmac_s ctx) (kmac_x ctx ++ encoded n alpha)
          (kmac_squeezed ctx).
Proof.
  intros Hn. unfold lc_kmac256_drng_encode, lc_kmac_update, encoded.
  cbn [kmac_key kmac_s kmac_x kmac_squeezed].
  rewrite clamp_84, ztake_clamp, encode_byte_small by exact Hn.
  rewrite <- app_assoc. reflexivity.
Qed.

Lemma kmac_fke_init_ctx_ok st addtl :
  kmac_init_ret = 0 ->
  lc_kmac256_drng_fke_init_ctx KMACXOF256 kmac_init_ret st addtl =
  (0, kmac_put_key st (kmac_next_key addtl st),
   mk_kmac (ztake 64 (key st)) generate_string (encoded 2 addtl) 64,
   [StoreKey (kmac_next_key addtl st)]).
Proof.
  intros Hret. unfold lc_kmac256_drng_fke_init_ctx, lc_kmac_init.
  rewrite Hret. cbn [Z.eqb negb].
  rewrite kmac_encode_absorbs by lia. reflexivity.
Qed.

Lemma kmac_generate_loop_ok addtl :
  kmac_init_ret = 0 ->
  forall fuel st outlen out tr,
    0 <= outlen -> (Z.to_nat outlen <= fuel)%nat ->
    exists st' tr',
      generate_loop KMACXOF256 kmac_init_ret fuel st addtl outlen out tr =
        Some (0, st', out ++ released tr', tr ++ tr') /\
      fke_chunks (kmac_next_key addtl) (kmac_next_out addtl) kmac_put_key
                 st tr' st' /\
      len (released tr') = outlen.
Proof.
  intros Hret. induction fuel as [| fuel IH]; intros st outlen out tr H0 Hf.
  - assert (outlen = 0) by lia. subst outlen. cbn.
    exists st, []. rewrite !app_nil_r. repeat split. constructor.
  - cbn [generate_loop]. destruct (Z.eqb_spec outlen 0) as [-> | Hne].
    + exists st, []. rewrite !app_nil_r. repeat split. constructor.
    + rewrite kmac_fke_init_ctx_ok by exact Hret. cbn [Z.eqb negb].
      unfold lc_kmac_final_xof. cbn [kmac_key kmac_s kmac_x kmac_squeezed].
      set (todo := min_size outlen
                     (LC_KMAC256_DRNG_MAX_CHUNK - LC_KMAC256_DRNG_KEYSIZE)).
      assert (Htodo : 0 < todo <= outlen).
      { unfold todo. rewrite min_size_spec.
        unfold LC_KMAC256_DRNG_MAX_CHUNK, LC_SHA3_256_SIZE_BLOCK,
          LC_KMAC256_DRNG_KEYSIZE. lia. }
      destruct (IH (kmac_put_key st (kmac_next_key addtl st)) (outlen - todo)
                  (out ++ kmac_next_out addtl st todo)
                  (tr ++ [StoreKey (kmac_next_key addtl st)] ++
                         [Release (kmac_next_out addtl st todo)]))
        as (st' & tr' & Hloop & Hchunks & Hlen); [lia | lia |].
      exists st', (StoreKey (kmac_next_key addtl st)
                   :: Release (kmac_next_out addtl st todo) :: tr').
      split; [| split].
      * unfold kmac_next_out, kmac_R in Hloop |- *. cbn [key kmac_put_key].
        rewrite Hloop. cbn [released]. rewrite <- !app_assoc. reflexivity.
      * apply fke_chunk; [lia | exact Hchunks].
      * cbn [released]. rewrite len_app, Hlen.
        unfold kmac_next_out. rewrite len_stream_bytes by lia. lia.
Qed.

Lemma kmac_generate_loop_fail addtl fuel st outlen out tr :
  kmac_init_ret <> 0 -> 0 < outlen -> (0 < fuel)%nat ->
  generate_loop KMACXOF256 kmac_init_ret fuel st addtl outlen out tr =
    Some (kmac_init_ret, st, out, tr).
Proof.
  intros Hret Hout Hf. destruct fuel as [| fuel]; [lia |].
  cbn [generate_loop]. destruct (Z.eqb_spec outlen 0); [lia |].
  unfold lc_kmac256_drng_fke_init_ctx, lc_kmac_init.
  assert (Hb : (kmac_init_ret =? 0) = false) by (apply Z.eqb_neq; exact Hret).
  rewrite Hb. cbn [negb]. rewrite Hb. cbn [negb].
  rewrite app_nil_r. reflexivity.
Qed.

Lemma kmac_seed_ok st seed pers :
  kmac_init_ret = 0 ->
  initially_seeded st = 0 \/ initially_seeded st = 1 ->
  lc_kmac256_drng_seed_nocheck KMACXOF256 kmac_init_ret (Some st) seed pers =
    Done (0, Some (mk_state 1 (store (key st) (kmac_seed_key st seed pers))),
          [StoreKey (kmac_seed_key st seed pers)]).
Proof.
  intros Hret Hs.
  unfold lc_kmac256_drng_seed_nocheck, seed_body, lc_kmac_init, kmac_seed_key.
  cbn [deref bind is_null]. rewrite Hret.
  destruct st as [s k]. cbn [initially_seeded key] in Hs |- *.
  destruct Hs as [-> | ->]; cbn [Z.eqb negb];
    rewrite kmac_encode_absorbs by lia; reflexivity.
Qed.

End KmacProps.

Section XdrbgProps.

Import Xdrbg.

Variable LC_XDRBG_DRNG_INITIALLY_SEEDED : Z.
Variable LC_XDRBG_DRNG_KEYSIZE_MASK : Z.
Variable lc_xdrbg_keysize_xdrbg128 : Z.
Variable lc_xdrbg_keysize_xdrbg256 : Z.
Variable lc_xdrbg_keysize_xdrbg512 : Z.
Variable LC_XDRBG128_DRNG_KEYSIZE : Z.
Variable LC_XDRBG256_DRNG_KEYSIZE : Z.
Variable LC_XDRBG512_DRNG_KEYSIZE : Z.

Definition xdrbg_keysize : lc_xdrbg_drng_state -> Z :=
  lc_xdrbg_keysize LC_XDRBG_DRNG_KEYSIZE_MASK lc_xdrbg_keysize_xdrbg128
    lc_xdrbg_keysize_xdrbg256 lc_xdrbg_keysize_xdrbg512
    LC_XDRBG128_DRNG_KEYSIZE LC_XDRBG256_DRNG_KEYSIZE
    LC_XDRBG512_DRNG_KEYSIZE.


(** XOF(V' || alpha || encode(2, |alpha|)) for the V' held in [st]. *)
Definition xdrbg_R (alpha : list Z) (st : lc_xdrbg_drng_state) : nat -> Z :=
  hash_xof (xof st) (ztake (xdrbg_keysize st) (v st) ++ encoded 2 alpha).

Definition xdrbg_next_key (alpha : list Z) (st : lc_xdrbg_drng_state) :=
  stream_bytes (xdrbg_R alpha st) 0 (xdrbg_keysize st).
Definition xdrbg_next_out (alpha : list Z) (st : lc_xdrbg_drng_state)
    (n : Z) :=
  stream_bytes (xdrbg_R alpha st) (Z.to_nat (xdrbg_keysize st)) n.


Lemma xdrbg_encode_absorbs ctx n alpha :
  0 <= n <= 2 ->
  lc_xdrbg_drng_encode ctx (LC_XDRBG_DRNG_ENCODE_N n) alpha =
  mk_hash_ctx (hash_msg ctx ++ encoded n alpha) (hash_squeezed ctx).
Proof.
  intros Hn. unfold lc_xdrbg_drng_encode, LC_XDRBG_DRNG_ENCODE_N,
    lc_hash_update, encoded.
  cbn [hash_msg hash_squeezed].
  assert (Hu : u8 (n * 85) = n * 85) by (unfold u8; apply Z.mod_small; lia).
  rewrite Hu, clamp_84, ztake_clamp, encode_byte_small by exact Hn.
  rewrite <- app_assoc. reflexivity.
Qed.


Lemma xdrbg_fke_init_ctx_ok st alpha :
  hash_init_ret (xof st) = 0 ->
  lc_xdrbg_drng_fke_init_ctx LC_XDRBG_DRNG_KEYSIZE_MASK
    lc_xdrbg_keysize_xdrbg128 lc_xdrbg_keysize_xdrbg256
    lc_xdrbg_keysize_xdrbg512 LC_XDRBG128_DRNG_KEYSIZE
    LC_XDRBG256_DRNG_KEYSIZE LC_XDRBG512_DRNG_KEYSIZE st alpha =
  (0, set_v st (xdrbg_next_key alpha st),
   mk_hash_ctx (ztake (xdrbg_keysize st) (v st) ++ encoded 2 alpha)
               (Z.to_nat (xdrbg_keysize st)),
   [StoreKey (xdrbg_next_key alpha st)]).
Proof.
  intros Hret. unfold lc_xdrbg_drng_fke_init_ctx, lc_hash_init.
  rewrite Hret. cbn [Z.eqb negb].
  rewrite xdrbg_encode_absorbs by lia. reflexivity.
Qed.

Lemma xdrbg_generate_loop_ok alpha :
  forall fuel st outlen out tr,
    hash_init_ret (xof st) = 0 -> 0 < chunksize st ->
    0 <= outlen -> (Z.to_nat outlen <= fuel)%nat ->
    exists st' tr',
      generate_loop LC_XDRBG_DRNG_KEYSIZE_MASK
        lc_xdrbg_keysize_xdrbg128 lc_xdrbg_keysize_xdrbg256
        lc_xdrbg_keysize_xdrbg512 LC_XDRBG128_DRNG_KEYSIZE
        LC_XDRBG256_DRNG_KEYSIZE LC_XDRBG512_DRNG_KEYSIZE
        fuel st alpha outlen out tr =
        Some (0, st', out ++ released tr', tr ++ tr') /\
      fke_chunks (xdrbg_next_key alpha) (xdrbg_next_out alpha) set_v
                 st tr' st' /\
      len (released tr') = outlen.
Proof.
  induction fuel as [| fuel IH]; intros st outlen out tr Hret Hc H0 Hf.
  - assert (outlen = 0) by lia. subst outlen. cbn.
    exists st, []. rewrite !app_nil_r. repeat split. constructor.
  - cbn [generate_loop]. destruct (Z.eqb_spec outlen 0) as [-> | Hne].
    + exists st, []. rewrite !app_nil_r. repeat split. constructor.
    + rewrite xdrbg_fke_init_ctx_ok by exact Hret. cbn [Z.eqb negb].
      unfold lc_xdrbg_xof_final. cbn [hash_msg hash_squeezed xof set_v].
      set (todo := min_size outlen (chunksize st)).
      assert (Htodo : 0 < todo <= outlen).
      { unfold todo. rewrite min_size_spec. lia. }
      destruct (IH (set_v st (xdrbg_next_key alpha st)) (outlen - todo)
                  (out ++ xdrbg_next_out alpha st todo)
                  (tr ++ [StoreKey (xdrbg_next_key alpha st)] ++
                         [Release (xdrbg_next_out alpha st todo)]))
        as (st' & tr' & Hloop & Hchunks & Hlen);
        [exact Hret | exact Hc | lia | lia |].
      exists st', (StoreKey (xdrbg_next_key alpha st)
                   :: Release (xdrbg_next_out alpha st todo) :: tr').
      split; [| split].
      * unfold xdrbg_next_out, xdrbg_R in Hloop |- *.
        rewrite Hloop. cbn [released]. rewrite <- !app_assoc. reflexivity.
      * apply fke_chunk; [lia | exact Hchunks].
      * cbn [released]. rewrite len_app, Hlen.
        unfold xdrbg_next_out. rewrite len_stream_bytes by lia. lia.
Qed.

Lemma xdrbg_generate_loop_fail alpha fuel st outlen out tr :
  hash_init_ret (xof st) <> 0 -> 0 < outlen -> (0 < fuel)%nat ->
  generate_loop LC_XDRBG_DRNG_KEYSIZE_MASK
    lc_xdrbg_keysize_xdrbg128 lc_xdrbg_keysize_xdrbg256
    lc_xdrbg_keysize_xdrbg512 LC_XDRBG128_DRNG_KEYSIZE
    LC_XDRBG256_DRNG_KEYSIZE LC_XDRBG512_DRNG_KEYSIZE
    fuel st alpha outlen out tr =
    Some (hash_init_ret (xof st), st, out, tr).
Proof.
  intros Hret Hout Hf. destruct fuel as [| fuel]; [lia |].
  cbn [generate_loop]. destruct (Z.eqb_spec outlen 0); [lia |].
  unfold lc_xdrbg_drng_fke_init_ctx, lc_hash_init.
  assert (Hb : (hash_init_ret (xof st) =? 0) = false)
    by (apply Z.eqb_neq; exact Hret).
  rewrite Hb. cbn [negb]. rewrite Hb. cbn [negb].
  rewrite app_nil_r. reflexivity.
Qed.


End XdrbgProps.

(** The sibling entry points do test the state pointer first. *)
Lemma generate_null_state_einval KMACXOF256 kmac_init_ret
    c1 c2 c3 c4 c5 c6 c7 (alpha : list Z) (outlen : Z) :
  Kmac.lc_kmac256_drng_generate KMACXOF256 kmac_init_ret None alpha outlen
    = Some (- EINVAL, None) /\
  Xdrbg.lc_xdrbg_drng_generate c1 c2 c3 c4 c5 c6 c7 None alpha outlen
    = Some (- EINVAL, None).
Proof. split; reflexivity. Qed.

(** C6.  The code at the null state pointer: both seed functions read
    through the pointer before any test of it (the KMAC-DRNG reads
    [state->initially_seeded] in its declarations, ahead of its
    [if (!state)]; the XDRBG reads [state->status] and has no test), so
    the call does not return -EINVAL. *)
Theorem seed_null_state_dereferenced KMACXOF256 kmac_init_ret
    c0 c1 c2 c3 c4 c5 c6 c7 (seed alpha : list Z) :
  Kmac.lc_kmac256_drng_seed_nocheck KMACXOF256 kmac_init_ret None seed alpha
    = Fault /\
  Xdrbg.lc_xdrbg_drng_seed_nocheck c0 c1 c2 c3 c4 c5 c6 c7 None seed alpha
    = Fault.
Proof. split; reflexivity. Qed.



(** The known answer of kmac256_drng_selftest, with KMAC computed over
    the sponge engine: seed 00 .. 08, no personalization, then one
    generate call for all of [exp]. *)
Definition selftest_seed : list Z := [0; 1; 2; 3; 4; 5; 6; 7; 8].

Definition selftest_exp : list Z :=
  [188; 112; 197; 214; 254; 196; 40; 35; 171; 87; 146; 94; 183; 213; 149;
   206; 45; 152; 58; 71; 113; 47; 109; 79; 130; 41; 232; 92; 17; 8; 72;
   50; 251; 204; 48; 108; 161; 118; 69; 24; 124; 5; 195; 115; 32; 40;
   242; 136; 126; 232; 96; 60; 249; 232; 132; 166; 17; 29; 163; 146; 225;
   138; 152; 193; 251; 49; 241; 252; 10; 54; 171; 148; 160; 57; 182; 58;
   179; 228; 125; 227; 40; 178; 209; 16; 184; 8; 109; 199; 221; 234; 16;
   58; 227; 65; 44; 131; 251; 63; 193; 50; 252; 161; 219; 203; 46; 182;
   16; 157; 23; 243; 252; 48; 112; 35; 103; 98; 29; 195; 78; 99; 139;
   195; 38; 162; 36; 112; 144; 14; 153; 26; 147; 227; 9; 30; 160; 231;
   74; 106; 184; 121; 151; 154; 187; 13; 208; 188; 204; 122; 123; 174;
   152; 31; 81; 56; 65; 154; 241; 47; 136; 144; 83; 153; 88; 177; 249;
   28; 211; 36; 17; 14; 16; 243; 252; 45; 89; 131; 89; 238; 147; 234;
   152; 248; 183; 14; 16; 66; 139; 66; 92; 249; 65; 223; 63; 229; 241;
   231; 177; 112; 157; 77; 187; 77; 105; 153; 52; 174; 141; 59; 220; 235;
   233; 196; 252; 122; 121; 31; 98; 75; 111; 150; 182; 12; 184; 118; 227;
   148; 132; 235; 122; 230; 59; 113; 64; 201; 208; 246; 163; 117; 75;
   182; 78; 146; 208; 161; 41; 86; 143; 12; 128; 247; 139; 186; 135; 127;
   8; 252; 165; 15; 74; 10; 132; 43; 197; 13; 47; 71; 130; 66; 182; 241;
   24; 130; 219; 125; 80; 41; 71; 79; 84; 200; 189; 163; 211; 203; 43;
   48; 15; 139; 196; 70; 253; 246; 231; 176; 57; 238; 155; 20; 248; 202;
   128; 53; 25; 202; 229; 60].

Definition selftest_run : option (list Z) :=
  match Kmac.lc_kmac256_drng_seed_nocheck KmacXof.KMACXOF256 0
          (Some (Kmac.mk_state 0 (repeat 0 64))) selftest_seed [] with
  | Done (0, Some st, _) =>
    match Kmac.lc_kmac256_drng_generate KmacXof.KMACXOF256 0 (Some st) []
            (len selftest_exp) with
    | Some (0, Some (_, _, out, _)) => Some out
    | _ => None
    end
  | _ => None
  end.

Example kmac256_drng_selftest_vector : selftest_run = Some selftest_exp.
Proof. vm_compute. reflexivity. Qed.

(** An XDRBG-256 state over SHAKE-256 with chunks of 4 bytes, for the
    header constants flag 0x80, mask 0x0f, tags 1, 2, 3 and key sizes
    32, 64 and 128 bytes. *)
Definition xdrbg256_state : Xdrbg.lc_xdrbg_drng_state :=
  Xdrbg.mk_state 2 4 KmacXof.lc_shake256 (repeat 0 64).

Definition kmac_state : Kmac.lc_kmac256_drng_state :=
  Kmac.mk_state 0 (repeat 0 64).



End DrngSpec.

(** ** ChaCha20 DRNG *)

Module ChaCha20Spec.

Import ChaCha20Drng.

(** The known answer of cc20_drng_selftest: 32 bytes from the zero state. *)
Example cc20_drng_selftest_block :
  snd (lc_cc20_drng_generate zero_state 32) =
  [0x76; 0xb8; 0xe0; 0xad; 0xa0; 0xf1; 0x3d; 0x90;
   0x40; 0x5d; 0x6a; 0xe5; 0x53; 0x86; 0xbd; 0x28;
   0xbd; 0xd2; 0x19; 0xb8; 0xa0; 0x8d; 0xed; 0x1a;
   0xa8; 0x36; 0xef; 0xcc; 0x8b; 0x77; 0x0d; 0xc7].
Proof. vm_compute. reflexivity. Qed.

(** The three nonce words as one little-endian integer of 96 bits. *)
Definition nonce96 (c : list Z) : Z :=
  word c 1 + 2 ^ 32 * word c 2 + 2 ^ 64 * word c 3.

Lemma u32_succ x :
  0 <= x < 2 ^ 32 ->
  u32 (x + 1) = if x =? 2 ^ 32 - 1 then 0 else x + 1.
Proof.
  intros H. unfold u32. destruct (Z.eqb_spec x (2 ^ 32 - 1)) as [-> | Hne].
  - reflexivity.
  - apply Z.mod_small. lia.
Qed.

Lemma list4 (c : list Z) :
  length c = 4%nat -> exists c0 c1 c2 c3, c = [c0; c1; c2; c3].
Proof.
  intros H. destruct c as [| c0 [| c1 [| c2 [| c3 [| ? ?]]]]];
    try discriminate H. eauto.
Qed.

Lemma increment_nonce_words c0 c1 c2 c3 :
  increment_nonce [c0; c1; c2; c3] =
  [c0; u32 (c1 + 1);
   if u32 (c1 + 1) =? 0 then u32 (c2 + 1) else c2;
   if (u32 (c1 + 1) =? 0) && (u32 (c2 + 1) =? 0) then u32 (c3 + 1) else c3].
Proof.
  unfold increment_nonce. cbn [word nth insert list_insert].
  destruct (u32 (c1 + 1) =? 0); [| reflexivity].
  cbn [word nth insert list_insert andb].
  destruct (u32 (c2 + 1) =? 0); reflexivity.
Qed.

Lemma increment_nonce_96 c0 c1 c2 c3 :
  0 <= c1 < 2 ^ 32 -> 0 <= c2 < 2 ^ 32 -> 0 <= c3 < 2 ^ 32 ->
  nonce96 (increment_nonce [c0; c1; c2; c3]) =
  (nonce96 [c0; c1; c2; c3] + 1) mod 2 ^ 96.
Proof.
  intros H1 H2 H3. rewrite increment_nonce_words.
  unfold nonce96. cbn [word nth].
  rewrite !u32_succ by assumption.
  destruct (Z.eqb_spec c1 (2 ^ 32 - 1)) as [-> | N1]; cbn [Z.eqb andb].
  - destruct (Z.eqb_spec c2 (2 ^ 32 - 1)) as [-> | N2]; cbn [Z.eqb].
    + destruct (Z.eqb_spec c3 (2 ^ 32 - 1)) as [-> | N3].
      * reflexivity.
      * symmetry. rewrite Z.mod_small by lia. lia.
    + assert (Hz : (c2 + 1 =? 0) = false) by (apply Z.eqb_neq; lia).
      rewrite Hz. symmetry. rewrite Z.mod_small by lia. lia.
  - assert (Hz : (c1 + 1 =? 0) = false) by (apply Z.eqb_neq; lia).
    rewrite Hz. cbn [andb]. symmetry. rewrite Z.mod_small by lia. lia.
Qed.

(** The state update as the code has it: the key words are replaced, the
    constants stay, the nonce words are incremented once, and the block
    counter is written by nothing but the ChaCha20 block that the update
    runs when [used_words] exceeds the key size in words. *)
Lemma update_counter (s : lc_sym_state) (buf : list Z) (used_words : Z) :
  counter (lc_cc20_drng_update s buf used_words) =
  increment_nonce
    (if 8 <? used_words
     then <[0%nat := u32 (word (counter s) 0 + 1)]> (counter s)
     else counter s).
Proof.
  unfold lc_cc20_drng_update, LC_CC20_KEY_SIZE_WORDS.
  destruct (8 <? used_words); reflexivity.
Qed.

(** C8, as the code has it.  Every state update increments the three
    nonce words exactly once as a little-endian integer of 96 bits with
    carry propagation and leaves the constants alone.  The block counter
    word is not written by the update itself: it is unchanged when the
    update mixes in the caller's block ([used_words <= 8]) and advanced
    by one, by the ChaCha20 block the update computes, when
    [used_words > 8], which is the case after every seed chunk. *)
Theorem update_counter_and_nonce (s : lc_sym_state) (buf : list Z)
    (used_words : Z) :
  length (counter s) = 4%nat ->
  (forall i, 0 <= word (counter s) i < 2 ^ 32) ->
  let c := counter s in
  let c' := counter (lc_cc20_drng_update s buf used_words) in
  word c' 0 = (if 8 <? used_words then u32 (word c 0 + 1) else word c 0) /\
  word c' 1 = u32 (word c 1 + 1) /\
  word c' 2 = (if word c' 1 =? 0 then u32 (word c 2 + 1) else word c 2) /\
  word c' 3 = (if (word c' 1 =? 0) && (word c' 2 =? 0)
               then u32 (word c 3 + 1) else word c 3) /\
  nonce96 c' = (nonce96 c + 1) mod 2 ^ 96 /\
  constants (lc_cc20_drng_update s buf used_words) = constants s.
Proof.
  intros Hlen Hw c c'. subst c c'.
  rewrite update_counter.
  destruct (list4 _ Hlen) as (c0 & c1 & c2 & c3 & Hc).
  pose proof (Hw 1%nat) as H1. pose proof (Hw 2%nat) as H2.
  pose proof (Hw 3%nat) as H3.
  rewrite Hc in *. cbn [word nth] in H1, H2, H3.
  assert (Hconst : constants (lc_cc20_drng_update s buf used_words)
                   = constants s).
  { unfold lc_cc20_drng_update. destruct (_ <? used_words); reflexivity. }
  destruct (8 <? used_words); cbn [insert list_insert];
    rewrite increment_nonce_96 by assumption;
    rewrite increment_nonce_words; cbn [word nth];
    (destruct (u32 (c1 + 1) =? 0); cbn [andb];
     [destruct (u32 (c2 + 1) =? 0) |]); auto 10.
Qed.

(** Witness of [update_counter_and_nonce]: the update after a generate of
    4 bytes with the first nonce word at its maximum. *)
Lemma update_counter_and_nonce_witness :
  let s := mk_state (constants zero_state) (key zero_state)
                    [7; 2 ^ 32 - 1; 5; 0] in
  let c' := counter (lc_cc20_drng_update s (repeat 0 16) 1) in
  word c' 0 = 7 /\ word c' 1 = 0 /\ word c' 2 = 6 /\ word c' 3 = 0 /\
  nonce96 c' = 6 * 2 ^ 32.
Proof.
  intros s c'.
  destruct (update_counter_and_nonce s (repeat 0 16) 1)
    as (E0 & E1 & E2 & E3 & E96 & _).
  - reflexivity.
  - intros i. do 4 (destruct i as [| i]; [cbn; lia |]).
    destruct i; cbn; lia.
  - fold c' in E0, E1, E2, E3, E96.
    rewrite E96. rewrite E3, E2, E1, E0. repeat split.
Defined.

(** C8 fails as stated: the update after a seed chunk changes the block
    counter word. *)
Lemma update_advances_block_counter :
  word (counter (lc_cc20_drng_update zero_state [] LC_CC20_BLOCK_SIZE_WORDS)) 0
    <> word (counter zero_state) 0 /\
  option_map counter (snd (lc_cc20_drng_seed (Some zero_state) [1; 2; 3]))
    = Some [1; 1; 0; 0].
Proof.
  split.
  - vm_compute. discriminate.
  - vm_compute. reflexivity.
Qed.

End ChaCha20Spec.

(** ** Hash based AEAD *)

Module HashCryptSpec.

Import HashCrypt.

(** *** Loads and stores *)

Lemma length_load (m : list Z) p n :
  (p + n <= length m)%nat -> length (load m p n) = n.
Proof. intros H. unfold load. rewrite length_take, length_drop. lia. Qed.

Lemma load_split (m : list Z) p a b :
  load m p (a + b) = load m p a ++ load m (p + a) b.
Proof.
  unfold load. rewrite <- drop_drop. rewrite <- take_take_drop. reflexivity.
Qed.

Lemma length_store_at (m : list Z) p b :
  (p + length b <= length m)%nat -> length (store_at m p b) = length m.
Proof.
  intros H. unfold store_at.
  rewrite !length_app, length_take, length_drop. lia.
Qed.

Lemma load_store_at_same (m : list Z) p b :
  (p + length b <= length m)%nat -> load (store_at m p b) p (length b) = b.
Proof.
  intros H. unfold load, store_at.
  rewrite drop_app_length' by (rewrite length_take; lia).
  rewrite take_app_length. reflexivity.
Qed.

Lemma load_store_at_before (m : list Z) p b q n :
  (q + n <= p)%nat -> (p + length b <= length m)%nat ->
  load (store_at m p b) q n = load m q n.
Proof.
  intros H1 H2. unfold load, store_at.
  rewrite drop_app_le by (rewrite length_take; lia).
  rewrite take_app_le by (rewrite length_drop, length_take; lia).
  rewrite skipn_firstn_comm, take_take. f_equal. lia.
Qed.

Lemma load_store_at_after (m : list Z) p b q n :
  (p + length b <= q)%nat -> (p + length b <= length m)%nat ->
  load (store_at m p b) q n = load m q n.
Proof.
  intros H1 H2. unfold load, store_at.
  rewrite app_assoc.
  rewrite drop_app_ge by (rewrite length_app, length_take; lia).
  rewrite length_app, length_take. rewrite drop_drop.
  do 2 f_equal. lia.
Qed.

Lemma store_at_app (m : list Z) p b1 b2 :
  (p + length b1 + length b2 <= length m)%nat ->
  store_at (store_at m p b1) (p + length b1) b2 = store_at m p (b1 ++ b2).
Proof.
  intros H. unfold store_at.
  rewrite (app_assoc (take p m) b1).
  rewrite take_app_length' by (rewrite length_app, length_take; lia).
  rewrite drop_app_ge by (rewrite length_app, length_take; lia).
  rewrite length_app, length_take, drop_drop, length_app.
  rewrite <- !app_assoc. do 3 f_equal. f_equal. lia.
Qed.

Lemma store_at_overwrite (m : list Z) p a b :
  length a = length b -> (p + length a <= length m)%nat ->
  store_at (store_at m p a) p b = store_at m p b.
Proof.
  intros Hab H. unfold store_at.
  rewrite take_app_le by (rewrite length_take; lia).
  rewrite take_take, Nat.min_id.
  rewrite (app_assoc (take p m) a).
  rewrite drop_app_length' by (rewrite length_app, length_take; lia).
  rewrite Hab. reflexivity.
Qed.

Lemma xor_bytes_app a1 a2 b1 b2 :
  length a1 = length b1 ->
  xor_bytes (a1 ++ a2) (b1 ++ b2) = xor_bytes a1 b1 ++ xor_bytes a2 b2.
Proof. intros H. unfold xor_bytes. apply zip_with_app. exact H. Qed.

Lemma length_xor_bytes a b :
  length a = length b -> length (xor_bytes a b) = length a.
Proof. intros H. unfold xor_bytes. rewrite length_zip_with. lia. Qed.

Lemma xor_bytes_involutive a k :
  length a = length k -> xor_bytes (xor_bytes a k) k = a.
Proof.
  revert k. induction a as [| x a IH]; intros [| y k] H; try discriminate H.
  - reflexivity.
  - cbn. rewrite Z.lxor_assoc, Z.lxor_nilpotent, Z.lxor_0_r.
    f_equal. apply IH. injection H as H. exact H.
Qed.

(** *** The cryptor *)

Section Spec.

Variable rng_state : Type.
Variable lc_rng_seed : rng_state -> list Z -> list Z -> Z * rng_state.
Variable lc_rng_generate : rng_state -> list Z -> nat -> Z * rng_state * list Z.
Variable HMAC : list Z -> list Z -> list Z.
Variable digestsize : nat.
Variable hmac_init_ret : Z.
Variable KB : nat.

Hypothesis rng_generate_ok :
  forall st a n, fst (fst (lc_rng_generate st a n)) = 0.
Hypothesis rng_generate_len :
  forall st a n, length (snd (lc_rng_generate st a n)) = n.
Hypothesis keystream_block_min : (LC_SHA_MAX_SIZE_DIGEST <= KB)%nat.

Local Abbreviation cryptor := (lc_hc_cryptor rng_state).
Local Abbreviation crypt_loop := (crypt_loop rng_state lc_rng_generate KB).
Local Abbreviation lc_hc_crypt := (lc_hc_crypt rng_state lc_rng_generate KB).

Definition wf_hc (hc : cryptor) : Prop := length (keystream _ hc) = KB.

(** The keystream refresh at the head of the loop body. *)
Definition refresh (hc : cryptor) : cryptor :=
  if (KB <=? keystream_ptr _ hc)%nat then
    let '(_, d, ks) := lc_rng_generate (drbg _ hc) [] KB in
    mk_hc _ d (auth_ctx _ hc) (store (keystream _ hc) ks) 0
  else hc.

(** The keystream seen one byte at a time. *)
Fixpoint ks_bytes (n : nat) (hc : cryptor) : cryptor * list Z :=
  match n with
  | O => (hc, [])
  | S n =>
    let hc := refresh hc in
    let b := nth (keystream_ptr _ hc) (keystream _ hc) 0 in
    let '(hc', rest) :=
      ks_bytes n (set_keystream_ptr _ (S (keystream_ptr _ hc)) hc) in
    (hc', b :: rest)
  end.

Lemma KB_pos : (0 < KB)%nat.
Proof. unfold LC_SHA_MAX_SIZE_DIGEST in keystream_block_min. lia. Qed.

Lemma length_store (dst src : list Z) :
  (length src <= length dst)%nat -> length (store dst src) = length dst.
Proof. intros H. unfold store. rewrite length_app, length_drop. lia. Qed.

Lemma refresh_wf hc : wf_hc hc -> wf_hc (refresh hc).
Proof.
  unfold wf_hc, refresh. intros H.
  destruct (KB <=? _)%nat; [| exact H].
  pose proof (rng_generate_len (drbg _ hc) [] KB) as Hl.
  destruct (lc_rng_generate _ _ _) as [[r d] ks]. cbn in *.
  rewrite length_store; lia.
Qed.

Lemma refresh_ptr hc : (keystream_ptr _ (refresh hc) < KB)%nat.
Proof.
  unfold refresh. destruct (Nat.leb_spec KB (keystream_ptr _ hc)).
  - destruct (lc_rng_generate _ _ _) as [[r d] ks]. cbn. apply KB_pos.
  - assumption.
Qed.

Lemma refresh_id hc : (keystream_ptr _ hc < KB)%nat -> refresh hc = hc.
Proof.
  intros H. unfold refresh.
  destruct (Nat.leb_spec KB (keystream_ptr _ hc)); [lia | reflexivity].
Qed.

Lemma ks_bytes_refresh n hc :
  (0 < n)%nat -> ks_bytes n hc = ks_bytes n (refresh hc).
Proof.
  intros H. destruct n as [| n]; [lia |]. cbn [ks_bytes].
  rewrite (refresh_id (refresh hc)) by apply refresh_ptr. reflexivity.
Qed.

Lemma load_cons (l : list Z) p n :
  (p < length l)%nat -> load l p (S n) = nth p l 0 :: load l (S p) n.
Proof.
  intros H. unfold load.
  destruct (lookup_lt_is_Some_2 l p H) as [x Hx].
  rewrite (drop_S l x p Hx). cbn.
  rewrite (nth_lookup_Some l p 0 x Hx). reflexivity.
Qed.

(** Inside the keystream block, [t] bytes are the [t] bytes at the
    pointer. *)
Lemma ks_bytes_chunk t : forall hc,
  wf_hc hc -> (keystream_ptr _ hc + t <= KB)%nat ->
  ks_bytes t hc =
    (set_keystream_ptr _ (keystream_ptr _ hc + t) hc,
     load (keystream _ hc) (keystream_ptr _ hc) t).
Proof.
  induction t as [| t IH]; intros hc Hwf Hp.
  - cbn. rewrite Nat.add_0_r. destruct hc; reflexivity.
  - cbn [ks_bytes]. rewrite refresh_id by lia.
    rewrite IH; [| exact Hwf | cbn; lia].
    cbn. rewrite load_cons by (unfold wf_hc in Hwf; lia).
    f_equal. unfold set_keystream_ptr. cbn. f_equal. lia.
Qed.

Lemma ks_bytes_app a : forall b hc,
  ks_bytes (a + b) hc =
    (fst (ks_bytes b (fst (ks_bytes a hc))),
     snd (ks_bytes a hc) ++ snd (ks_bytes b (fst (ks_bytes a hc)))).
Proof.
  induction a as [| a IH]; intros b hc.
  - cbn. destruct (ks_bytes b hc); reflexivity.
  - cbn [Nat.add ks_bytes]. rewrite IH.
    destruct (ks_bytes a _) as [hc1 k1]. cbn.
    destruct (ks_bytes b hc1); reflexivity.
Qed.

Lemma ks_bytes_wf n : forall hc, wf_hc hc -> wf_hc (fst (ks_bytes n hc)).
Proof.
  induction n as [| n IH]; intros hc Hwf; [exact Hwf |].
  cbn [ks_bytes].
  specialize (IH (set_keystream_ptr _ (S (keystream_ptr _ (refresh hc)))
                    (refresh hc))).
  destruct (ks_bytes n _) as [hc' rest]. cbn in *.
  apply IH. apply (refresh_wf hc Hwf).
Qed.

Lemma ks_bytes_length n : forall hc, length (snd (ks_bytes n hc)) = n.
Proof.
  induction n as [| n IH]; intros hc; [reflexivity |].
  cbn [ks_bytes].
  specialize (IH (set_keystream_ptr _ (S (keystream_ptr _ (refresh hc)))
                    (refresh hc))).
  destruct (ks_bytes n _) as [hc' rest]. cbn in *. lia.
Qed.


Lemma generate_keystream_ok hc n :
  generate_keystream rng_state lc_rng_generate hc n =
  (0,
   let '(_, d, ks) := lc_rng_generate (drbg _ hc) [] n in
   mk_hc _ d (auth_ctx _ hc) (store (keystream _ hc) ks) (keystream_ptr _ hc)).
Proof.
  unfold generate_keystream.
  pose proof (rng_generate_ok (drbg _ hc) [] n) as Hok.
  destruct (lc_rng_generate _ _ _) as [[r d] ks]. cbn in Hok. subst r.
  reflexivity.
Qed.

Lemma store_at_nil (m : list Z) p : store_at m p [] = m.
Proof.
  unfold store_at. cbn. rewrite Nat.add_0_r. apply take_drop.
Qed.

Lemma crypt_loop_spec fuel : forall hc m in_p out_p len,
  wf_hc hc -> (len <= fuel)%nat ->
  (in_p + len <= length m)%nat -> (out_p + len <= length m)%nat ->
  (in_p = out_p \/ in_p + len <= out_p \/ out_p + len <= in_p)%nat ->
  crypt_loop fuel hc m in_p out_p len =
    Some (fst (ks_bytes len hc),
          store_at m out_p
            (xor_bytes (load m in_p len) (snd (ks_bytes len hc)))).
Proof.
  induction fuel as [| fuel IH]; intros hc m in_p out_p len Hwf Hf Hi Ho Hal.
  - assert (len = 0)%nat by lia. subst len. cbn.
    rewrite store_at_nil. reflexivity.
  - cbn [HashCrypt.crypt_loop].
    destruct (Nat.eqb_spec len 0) as [-> | Hne].
    { cbn. rewrite store_at_nil. reflexivity. }
    assert (Hrefresh :
      (if (KB <=? keystream_ptr _ hc)%nat
       then let '(ret, hc0) :=
              generate_keystream rng_state lc_rng_generate hc KB in
            if negb (ret =? 0)%Z then (ret, hc0)
            else (0, set_keystream_ptr _ 0 hc0)
       else (0, hc)) = (0, refresh hc)).
    { unfold refresh. destruct (KB <=? _)%nat; [| reflexivity].
      rewrite generate_keystream_ok.
      destruct (lc_rng_generate _ _ _) as [[r d] ks]. reflexivity. }
    rewrite Hrefresh. cbn [Z.eqb negb].
    pose proof (refresh_wf hc Hwf) as Hwf1.
    pose proof (refresh_ptr hc) as Hp1.
    set (hc1 := refresh hc) in *.
    set (todo := Nat.min (Nat.min len KB) (KB - keystream_ptr _ hc1)).
    assert (Htodo : (0 < todo <= len)%nat) by (unfold todo; lia).
    assert (Hkb : (keystream_ptr _ hc1 + todo <= KB)%nat)
      by (unfold todo; lia).
    set (ks1 := load (keystream _ hc1) (keystream_ptr _ hc1) todo).
    assert (Hks1 : length ks1 = todo).
    { unfold ks1. apply length_load. unfold wf_hc in Hwf1. lia. }
    set (chunk := xor_bytes (load m in_p todo) ks1).
    assert (Hchunk : length chunk = todo).
    { unfold chunk. rewrite length_xor_bytes; rewrite length_load; lia. }
    assert (Hm1 :
      store_at (if (in_p =? out_p)%nat then m
                else store_at m out_p (load m in_p todo)) out_p
        (xor_bytes
           (load (if (in_p =? out_p)%nat then m
                  else store_at m out_p (load m in_p todo)) out_p todo)
           ks1) = store_at m out_p chunk).
    { destruct (Nat.eqb_spec in_p out_p) as [-> | Hneq]; [reflexivity |].
      assert (Hl : length (load m in_p todo) = todo)
        by (apply length_load; lia).
      pose proof (load_store_at_same m out_p (load m in_p todo)) as Hsame.
      rewrite Hl in Hsame. rewrite Hsame by lia. clear Hsame.
      fold chunk. apply store_at_overwrite; lia. }
    rewrite Hm1. clear Hm1.
    assert (Hlen1 : length (store_at m out_p chunk) = length m)
      by (apply length_store_at; lia).
    rewrite IH; [| exact Hwf1 | lia | lia | lia | lia].
    f_equal.
    rewrite (ks_bytes_refresh len hc) by lia. fold hc1.
    assert (Hsplit : len = (todo + (len - todo))%nat) by lia.
    rewrite (f_equal (fun n => ks_bytes n hc1) Hsplit).
    rewrite ks_bytes_app.
    rewrite (ks_bytes_chunk todo hc1 Hwf1 Hkb). cbn [fst snd]. fold ks1.
    f_equal.
    rewrite (f_equal (load m in_p) Hsplit).
    rewrite load_split.
    rewrite xor_bytes_app by (rewrite length_load; lia).
    fold chunk.
    assert (Hin : load (store_at m out_p chunk) (in_p + todo) (len - todo)
                  = load m (in_p + todo) (len - todo)).
    { destruct Hal as [-> | [Hd | Hd]].
      - apply load_store_at_after; lia.
      - apply load_store_at_before; lia.
      - apply load_store_at_after; lia. }
    rewrite Hin.
    rewrite <- Hchunk at 1.
    rewrite store_at_app; [reflexivity |].
    rewrite length_xor_bytes; rewrite length_load, ?ks_bytes_length; lia.
Qed.


Hypothesis hmac_len : forall k msg, length (HMAC k msg) = digestsize.

Local Abbreviation lc_hc_encrypt :=
  (lc_hc_encrypt rng_state lc_rng_generate KB).
Local Abbreviation lc_hc_decrypt :=
  (lc_hc_decrypt rng_state lc_rng_generate KB).
Local Abbreviation lc_hc_encrypt_tag :=
  (lc_hc_encrypt_tag rng_state HMAC digestsize).
Local Abbreviation lc_hc_encrypt_oneshot :=
  (lc_hc_encrypt_oneshot rng_state lc_rng_generate HMAC digestsize KB).
Local Abbreviation lc_hc_decrypt_oneshot :=
  (lc_hc_decrypt_oneshot rng_state lc_rng_generate HMAC digestsize KB).
Local Abbreviation lc_hc_setkey_nocheck :=
  (lc_hc_setkey_nocheck rng_state lc_rng_seed lc_rng_generate hmac_init_ret
     KB).

(** Two buffers of [n] bytes at [p] and [q] inside [m] that are the same
    buffer or do not overlap. *)
Definition buffers_ok (m : list Z) (p q n : nat) : Prop :=
  (p + n <= length m)%nat /\ (q + n <= length m)%nat /\
  (p = q \/ p + n <= q \/ q + n <= p)%nat.

(** The keystream applied to [n] bytes at [p]. *)
Definition crypted (hc : cryptor) (m : list Z) (p n : nat) : list Z :=
  xor_bytes (load m p n) (snd (ks_bytes n hc)).

Lemma lc_hc_crypt_spec hc m in_p out_p len :
  wf_hc hc -> buffers_ok m in_p out_p len ->
  lc_hc_crypt hc m in_p out_p len =
    (fst (ks_bytes len hc), store_at m out_p (crypted hc m in_p len)).
Proof.
  intros Hwf (Hi & Ho & Hal). unfold HashCrypt.lc_hc_crypt.
  rewrite crypt_loop_spec by (assumption || lia). reflexivity.
Qed.

Lemma length_crypted hc m p n :
  (p + n <= length m)%nat -> length (crypted hc m p n) = n.
Proof.
  intros H. unfold crypted.
  rewrite length_xor_bytes; rewrite length_load, ?ks_bytes_length; lia.
Qed.

Lemma load_crypted hc m p q n :
  (p + n <= length m)%nat -> (q + n <= length m)%nat ->
  load (store_at m q (crypted hc m p n)) q n = crypted hc m p n.
Proof.
  intros Hp Hq.
  pose proof (load_store_at_same m q (crypted hc m p n)) as H.
  rewrite length_crypted in H by exact Hp. apply H. lia.
Qed.

Lemma ks_bytes_set_auth n : forall hc a,
  ks_bytes n (set_auth_ctx _ a hc) =
    (set_auth_ctx _ a (fst (ks_bytes n hc)), snd (ks_bytes n hc)).
Proof.
  induction n as [| n IH]; intros hc a; [reflexivity |].
  cbn [ks_bytes].
  assert (Hr : refresh (set_auth_ctx _ a hc) = set_auth_ctx _ a (refresh hc)).
  { unfold refresh. cbn. destruct (KB <=? _)%nat; [| reflexivity].
    destruct (lc_rng_generate _ _ _) as [[r d] ks]. reflexivity. }
  rewrite Hr.
  change (set_keystream_ptr _ ?p (set_auth_ctx _ a ?h))
    with (set_auth_ctx _ a (set_keystream_ptr _ p h)).
  cbn [keystream_ptr keystream set_auth_ctx].
  change (mk_hc _ (drbg _ ?h) a (keystream _ ?h) (S (keystream_ptr _ ?h)))
    with (set_auth_ctx _ a (set_keystream_ptr _ (S (keystream_ptr _ h)) h)).
  rewrite IH. destruct (ks_bytes n _) as [hc' rest]. reflexivity.
Qed.

Lemma ks_bytes_auth n : forall hc,
  auth_ctx _ (fst (ks_bytes n hc)) = auth_ctx _ hc.
Proof.
  induction n as [| n IH]; intros hc; [reflexivity |].
  cbn [ks_bytes].
  specialize (IH (set_keystream_ptr _ (S (keystream_ptr _ (refresh hc)))
                    (refresh hc))).
  destruct (ks_bytes n _) as [hc' rest]. cbn in *. rewrite IH.
  unfold refresh. destruct (KB <=? _)%nat; [| reflexivity].
  destruct (lc_rng_generate _ _ _) as [[r d] ks]. reflexivity.
Qed.


Lemma lc_hc_encrypt_spec hc m p q n :
  wf_hc hc -> buffers_ok m p q n ->
  lc_hc_encrypt hc m p q n =
    (set_auth_ctx _ (lc_hmac_update (auth_ctx _ hc) (crypted hc m p n))
                  (fst (ks_bytes n hc)),
     store_at m q (crypted hc m p n)).
Proof.
  intros Hwf Hb. unfold HashCrypt.lc_hc_encrypt.
  rewrite lc_hc_crypt_spec by assumption.
  destruct Hb as (Hp & Hq & _).
  rewrite load_crypted by assumption. rewrite ks_bytes_auth. reflexivity.
Qed.

Lemma lc_hc_decrypt_spec hc m c p n :
  wf_hc hc -> buffers_ok m c p n ->
  lc_hc_decrypt hc m c p n =
    (set_auth_ctx _ (lc_hmac_update (auth_ctx _ hc) (load m c n))
                  (fst (ks_bytes n hc)),
     store_at m p (crypted hc m c n)).
Proof.
  intros Hwf Hb. unfold HashCrypt.lc_hc_decrypt.
  rewrite lc_hc_crypt_spec by assumption.
  unfold crypted. rewrite ks_bytes_set_auth. reflexivity.
Qed.

Lemma store_at_frame_load (m : list Z) p q n b :
  (p + n <= length m)%nat -> (q + length b <= length m)%nat ->
  (p + n <= q \/ q + length b <= p)%nat ->
  load (store_at m q b) p n = load m p n.
Proof.
  intros Hp Hq [H | H].
  - apply load_store_at_before; lia.
  - apply load_store_at_after; lia.
Qed.

(** C10.  In-place operation.  For a keyed cryptor and any data length,
    the one-shot encryption of the buffer at [p] onto itself and its
    encryption into a distinct, non-overlapping buffer at [q] give the
    same output bytes, the same tag and the same final cryptor; likewise
    for the one-shot decryption, with the same return code. *)
Theorem inplace_equivalence hc m p q n aad tag calctag taglen :
  wf_hc hc ->
  (p + n <= length m)%nat -> (q + n <= length m)%nat ->
  (p + n <= q \/ q + n <= p)%nat ->
  (let '(hc1, m1, t1) := lc_hc_encrypt_oneshot hc m p p n aad tag taglen in
   let '(hc2, m2, t2) := lc_hc_encrypt_oneshot hc m p q n aad tag taglen in
   load m1 p n = load m2 q n /\ t1 = t2 /\ hc1 = hc2) /\
  (let '(r1, hc1, m1) :=
     lc_hc_decrypt_oneshot hc m p p n aad calctag tag taglen in
   let '(r2, hc2, m2) :=
     lc_hc_decrypt_oneshot hc m p q n aad calctag tag taglen in
   load m1 p n = load m2 q n /\ r1 = r2 /\ hc1 = hc2).
Proof.
  intros Hwf Hp Hq Hd.
  assert (Hb1 : buffers_ok m p p n) by (unfold buffers_ok; lia).
  assert (Hb2 : buffers_ok m p q n) by (unfold buffers_ok; lia).
  assert (Hwa : wf_hc (lc_hc_add_aad _ hc aad)) by exact Hwf.
  split.
  - unfold HashCrypt.lc_hc_encrypt_oneshot.
    rewrite !lc_hc_encrypt_spec by assumption.
    destruct (lc_hc_encrypt_tag _ _ _) as [hc' t].
    rewrite !load_crypted by assumption. auto.
  - unfold HashCrypt.lc_hc_decrypt_oneshot.
    rewrite !lc_hc_decrypt_spec by assumption.
    destruct (lc_hc_decrypt_authenticate _ _ _ _ _ _ _) as [r hc'].
    rewrite !load_crypted by assumption. auto.
Qed.


Lemma crypted_app hc m p a b :
  (p + a + b <= length m)%nat ->
  crypted hc m p (a + b) =
    crypted hc m p a ++ crypted (fst (ks_bytes a hc)) m (p + a) b.
Proof.
  intros H. unfold crypted.
  rewrite load_split, ks_bytes_app. cbn [snd].
  apply xor_bytes_app. rewrite length_load, ks_bytes_length; lia.
Qed.

Lemma crypted_set_auth hc a m p n :
  crypted (set_auth_ctx _ a hc) m p n = crypted hc m p n.
Proof. unfold crypted. rewrite ks_bytes_set_auth. reflexivity. Qed.

Lemma crypted_frame hc m m' p n :
  load m' p n = load m p n -> crypted hc m' p n = crypted hc m p n.
Proof. intros H. unfold crypted. rewrite H. reflexivity. Qed.

Lemma lc_hmac_update_app ctx a b :
  lc_hmac_update (lc_hmac_update ctx a) b = lc_hmac_update ctx (a ++ b).
Proof. unfold lc_hmac_update. cbn. rewrite app_assoc. reflexivity. Qed.

(** Two consecutive updates over adjacent pieces are one update over the
    whole. *)
Lemma lc_hc_encrypt_app hc m p q a b :
  wf_hc hc -> buffers_ok m p q (a + b) ->
  lc_hc_encrypt hc m p q (a + b) =
    (let '(hc1, m1) := lc_hc_encrypt hc m p q a in
     lc_hc_encrypt hc1 m1 (p + a) (q + a) b).
Proof.
  intros Hwf (Hp & Hq & Hal).
  assert (Hb : buffers_ok m p q (a + b)) by (unfold buffers_ok; lia).
  assert (Ha : buffers_ok m p q a) by (unfold buffers_ok; lia).
  rewrite (lc_hc_encrypt_spec hc m p q (a + b)) by assumption.
  rewrite (lc_hc_encrypt_spec hc m p q a) by assumption.
  set (c1 := crypted hc m p a).
  assert (Hc1 : length c1 = a) by (apply length_crypted; lia).
  assert (Hl1 : length (store_at m q c1) = length m)
    by (apply length_store_at; lia).
  rewrite lc_hc_encrypt_spec.
  2:{ apply (ks_bytes_wf a hc Hwf). }
  2:{ unfold buffers_ok. rewrite Hl1. lia. }
  rewrite crypted_set_auth, ks_bytes_set_auth. cbn [fst auth_ctx set_auth_ctx].
  assert (Hfr : load (store_at m q c1) (p + a) b = load m (p + a) b).
  { destruct Hal as [-> | Hd].
    - apply load_store_at_after; lia.
    - apply store_at_frame_load; lia. }
  rewrite (crypted_frame _ m (store_at m q c1) (p + a) b Hfr).
  rewrite crypted_app by lia. fold c1.
  set (c2 := crypted (fst (ks_bytes a hc)) m (p + a) b).
  assert (Hc2 : length c2 = b) by (apply length_crypted; lia).
  rewrite lc_hmac_update_app.
  rewrite ks_bytes_app. cbn [fst].
  rewrite <- Hc1 at 3. rewrite store_at_app by lia.
  reflexivity.
Qed.

(** The streamed encryption: one enc_update per piece, the pointers
    advancing by the size of the piece. *)
Fixpoint enc_updates (hc : cryptor) (m : list Z) (p q : nat)
    (sizes : list nat) : cryptor * list Z :=
  match sizes with
  | [] => (hc, m)
  | k :: rest =>
    let '(hc, m) := lc_hc_encrypt hc m p q k in
    enc_updates hc m (p + k) (q + k) rest
  end.

Lemma lc_hmac_update_nil ctx : lc_hmac_update ctx [] = ctx.
Proof. unfold lc_hmac_update. rewrite app_nil_r. destruct ctx; reflexivity. Qed.

Lemma lc_hc_encrypt_0 hc m p q :
  wf_hc hc -> (p <= length m)%nat -> (q <= length m)%nat ->
  lc_hc_encrypt hc m p q 0 = (hc, m).
Proof.
  intros Hwf Hp Hq. unfold HashCrypt.lc_hc_encrypt, HashCrypt.lc_hc_crypt.
  cbn. unfold load. cbn. rewrite lc_hmac_update_nil.
  destruct hc; reflexivity.
Qed.

Lemma enc_updates_spec sizes : forall hc m p q,
  wf_hc hc -> buffers_ok m p q (list_sum sizes) ->
  enc_updates hc m p q sizes = lc_hc_encrypt hc m p q (list_sum sizes).
Proof.
  induction sizes as [| k rest IH]; intros hc m p q Hwf Hb.
  - change (list_sum []) with 0%nat in *. cbn [enc_updates].
    destruct Hb as (Hp & Hq & _). rewrite lc_hc_encrypt_0; auto; lia.
  - change (list_sum (k :: rest)) with (k + list_sum rest)%nat in *.
    cbn [enc_updates]. rewrite lc_hc_encrypt_app by assumption.
    destruct Hb as (Hp & Hq & Hal).
    assert (Ha : buffers_ok m p q k) by (unfold buffers_ok; lia).
    rewrite (lc_hc_encrypt_spec hc m p q k) by assumption.
    apply IH.
    + apply (ks_bytes_wf k hc Hwf).
    + unfold buffers_ok. rewrite length_store_at
        by (rewrite length_crypted; lia). lia.
Qed.


Lemma generate_keystream_wf hc n :
  wf_hc hc -> (n <= KB)%nat ->
  wf_hc (snd (generate_keystream rng_state lc_rng_generate hc n)).
Proof.
  intros Hwf Hn. rewrite generate_keystream_ok.
  pose proof (rng_generate_len (drbg _ hc) [] n) as Hl.
  destruct (lc_rng_generate _ _ _) as [[r d] ks]. cbn in *.
  unfold wf_hc in *. cbn. rewrite length_store; lia.
Qed.

Lemma setkey_wf hc0 key iv :
  wf_hc hc0 -> wf_hc (snd (lc_hc_setkey_nocheck hc0 key iv)).
Proof.
  intros Hwf. unfold HashCrypt.lc_hc_setkey_nocheck.
  destruct key as [key |]; [| exact Hwf].
  destruct (length key =? 0)%nat; [exact Hwf |].
  destruct (lc_rng_seed _ _ _) as [r d].
  assert (Hwf1 : wf_hc (set_drbg _ d hc0)) by exact Hwf.
  destruct (negb (r =? 0)%Z); [exact Hwf1 |].
  pose proof (generate_keystream_wf _ LC_SHA_MAX_SIZE_DIGEST Hwf1
                keystream_block_min) as Hwf2.
  destruct (generate_keystream _ _ _ LC_SHA_MAX_SIZE_DIGEST) as [r2 hc2].
  cbn [snd] in Hwf2.
  destruct (negb (r2 =? 0)%Z); [exact Hwf2 |].
  unfold lc_hmac_init.
  destruct (negb (hmac_init_ret =? 0)%Z); [exact Hwf2 |].
  assert (Hwf3 : wf_hc (set_auth_ctx _
             (mk_hmac (take LC_SHA_MAX_SIZE_DIGEST (keystream _ hc2)) [] false)
             hc2)) by exact Hwf2.
  pose proof (generate_keystream_wf _ KB Hwf3 (Nat.le_refl _)) as Hwf4.
  destruct (generate_keystream _ _ _ KB) as [r4 hc4]. cbn [snd] in Hwf4.
  destruct (negb (r4 =? 0)%Z); exact Hwf4.
Qed.

Lemma take_store (dst src : list Z) k :
  length src = k -> take k (store dst src) = src.
Proof. intros H. unfold store. apply take_app_length'. auto. Qed.

(** The tag bytes that lc_hc_encrypt_tag leaves in the first [taglen]
    bytes of the tag buffer. *)
Lemma encrypt_tag_bytes hc tag taglen :
  (taglen <= digestsize <= LC_SHA_MAX_SIZE_DIGEST)%nat ->
  take taglen (snd (lc_hc_encrypt_tag hc tag taglen)) =
  take taglen (HMAC (hmac_key (auth_ctx _ hc)) (hmac_msg (auth_ctx _ hc))).
Proof.
  intros Ht. unfold HashCrypt.lc_hc_encrypt_tag.
  destruct (Nat.ltb_spec LC_SHA_MAX_SIZE_DIGEST digestsize); [lia |].
  unfold lc_hmac_final.
  pose proof (hmac_len (hmac_key (auth_ctx _ hc)) (hmac_msg (auth_ctx _ hc)))
    as Hl.
  destruct (Nat.ltb_spec taglen digestsize); cbn [snd].
  - apply take_store. rewrite length_take. lia.
  - rewrite take_store by lia. rewrite take_ge by lia. reflexivity.
Qed.

(** C1.  Round trip and streaming.  With the cryptor keyed by setkey,
    encrypt_oneshot followed, on the cryptor keyed again in the same way,
    by decrypt_oneshot of the produced ciphertext and tag returns 0 and
    yields the original plaintext, for every tag length up to the digest
    size; and enc_init, enc_update over any split of the data and
    enc_final leave the same ciphertext, tag and cryptor as the one-shot
    call. *)
Theorem aead_roundtrip_and_streaming hc0 key iv
    m p q n aad tag taglen m' c' p' calctag sizes :
  wf_hc hc0 ->
  fst (lc_hc_setkey_nocheck hc0 (Some key) iv) = 0 ->
  buffers_ok m p q n -> buffers_ok m' c' p' n ->
  (taglen <= digestsize <= LC_SHA_MAX_SIZE_DIGEST)%nat ->
  list_sum sizes = n ->
  let hc := snd (lc_hc_setkey_nocheck hc0 (Some key) iv) in
  let '(hc_e, m_e, tag_e) := lc_hc_encrypt_oneshot hc m p q n aad tag taglen in
  (load m' c' n = load m_e q n ->
   let '(ret, _, m_d) :=
     lc_hc_decrypt_oneshot hc m' c' p' n aad calctag tag_e taglen in
   ret = 0 /\ load m_d p' n = load m p n) /\
  (let hc1 := lc_hc_add_aad _ hc aad in
   let '(hc2, m2) := enc_updates hc1 m p q sizes in
   let '(hc3, t) := lc_hc_encrypt_tag hc2 tag taglen in
   (hc3, m2, t)) = (hc_e, m_e, tag_e).
Proof.
  intros Hwf0 Hkey Hb Hb' Ht Hsum hc.
  assert (Hwf : wf_hc hc) by (apply setkey_wf; exact Hwf0).
  assert (Hwa : wf_hc (lc_hc_add_aad _ hc aad)) by exact Hwf.
  unfold HashCrypt.lc_hc_encrypt_oneshot.
  rewrite <- Hsum in Hb. rewrite enc_updates_spec by assumption.
  rewrite Hsum in *.
  rewrite lc_hc_encrypt_spec by assumption.
  set (ct := crypted (lc_hc_add_aad _ hc aad) m p n).
  set (hc_t := set_auth_ctx _ _ _).
  pose proof (encrypt_tag_bytes hc_t tag taglen Ht) as Htag_e.
  destruct (lc_hc_encrypt_tag hc_t tag taglen) as [hc_e tag_e] eqn:Etag.
  cbn [snd] in Htag_e.
  split; [| reflexivity].
  intros Hct.
  destruct Hb as (Hp & Hq & _). destruct Hb' as (Hc' & Hp' & Hal').
  assert (Hb' : buffers_ok m' c' p' n) by (unfold buffers_ok; lia).
  unfold ct in Hct. rewrite load_crypted in Hct by assumption. fold ct in Hct.
  unfold HashCrypt.lc_hc_decrypt_oneshot.
  rewrite lc_hc_decrypt_spec by assumption.
  unfold lc_hc_decrypt_authenticate.
  destruct (Nat.ltb_spec LC_SHA_MAX_SIZE_DIGEST taglen); [lia |].
  set (hc_d := set_auth_ctx _ _ _).
  pose proof (encrypt_tag_bytes hc_d calctag taglen Ht) as Htag_d.
  destruct (lc_hc_encrypt_tag hc_d calctag taglen) as [hc_d' calc'].
  cbn [snd] in Htag_d.
  assert (Hsame : take taglen calc' = take taglen tag_e).
  { rewrite Htag_d, Htag_e. unfold hc_d, hc_t. cbn. rewrite Hct.
    reflexivity. }
  unfold lc_memcmp_secure. rewrite bool_decide_eq_true_2 by exact Hsame.
  cbn [negb]. split; [reflexivity |].
  rewrite load_crypted by assumption.
  unfold crypted at 1. rewrite Hct. unfold ct, crypted.
  apply xor_bytes_involutive.
  rewrite length_load, ks_bytes_length; lia.
Qed.


(** *** Streamed decryption, the verdict on the tag, the frame *)

Local Abbreviation lc_hc_decrypt_authenticate :=
  (lc_hc_decrypt_authenticate rng_state HMAC digestsize).

Lemma lc_hc_decrypt_app hc m c p a b :
  wf_hc hc -> buffers_ok m c p (a + b) ->
  lc_hc_decrypt hc m c p (a + b) =
    (let '(hc1, m1) := lc_hc_decrypt hc m c p a in
     lc_hc_decrypt hc1 m1 (c + a) (p + a) b).
Proof.
  intros Hwf (Hc & Hp & Hal).
  assert (Hb : buffers_ok m c p (a + b)) by (unfold buffers_ok; lia).
  assert (Ha : buffers_ok m c p a) by (unfold buffers_ok; lia).
  rewrite (lc_hc_decrypt_spec hc m c p (a + b)) by assumption.
  rewrite (lc_hc_decrypt_spec hc m c p a) by assumption.
  set (c1 := crypted hc m c a).
  assert (Hc1 : length c1 = a) by (apply length_crypted; lia).
  assert (Hl1 : length (store_at m p c1) = length m)
    by (apply length_store_at; lia).
  rewrite lc_hc_decrypt_spec.
  2:{ apply (ks_bytes_wf a hc Hwf). }
  2:{ unfold buffers_ok. rewrite Hl1. lia. }
  rewrite crypted_set_auth, ks_bytes_set_auth. cbn [fst auth_ctx set_auth_ctx].
  assert (Hfr : load (store_at m p c1) (c + a) b = load m (c + a) b).
  { destruct Hal as [-> | Hd].
    - apply load_store_at_after; lia.
    - apply store_at_frame_load; lia. }
  rewrite Hfr.
  rewrite (crypted_frame _ m (store_at m p c1) (c + a) b Hfr).
  rewrite crypted_app by lia. fold c1.
  set (c2 := crypted (fst (ks_bytes a hc)) m (c + a) b).
  assert (Hc2 : length c2 = b) by (apply length_crypted; lia).
  rewrite lc_hmac_update_app, <- load_split.
  rewrite ks_bytes_app. cbn [fst].
  replace (p + a)%nat with (p + length c1)%nat by lia.
  rewrite store_at_app by lia. reflexivity.
Qed.

(** The streamed decryption: one dec_update per piece, the pointers
    advancing by the size of the piece. *)
Fixpoint dec_updates (hc : cryptor) (m : list Z) (c p : nat)
    (sizes : list nat) : cryptor * list Z :=
  match sizes with
  | [] => (hc, m)
  | k :: rest =>
    let '(hc, m) := lc_hc_decrypt hc m c p k in
    dec_updates hc m (c + k) (p + k) rest
  end.

Lemma lc_hc_decrypt_0 hc m c p :
  lc_hc_decrypt hc m c p 0 = (hc, m).
Proof.
  unfold HashCrypt.lc_hc_decrypt, HashCrypt.lc_hc_crypt.
  cbn. unfold load. cbn. rewrite lc_hmac_update_nil.
  destruct hc; reflexivity.
Qed.

Lemma dec_updates_spec sizes : forall hc m c p,
  wf_hc hc -> buffers_ok m c p (list_sum sizes) ->
  dec_updates hc m c p sizes = lc_hc_decrypt hc m c p (list_sum sizes).
Proof.
  induction sizes as [| k rest IH]; intros hc m c p Hwf Hb.
  - change (list_sum []) with 0%nat in *. cbn [dec_updates].
    rewrite lc_hc_decrypt_0. reflexivity.
  - change (list_sum (k :: rest)) with (k + list_sum rest)%nat in *.
    cbn [dec_updates]. rewrite lc_hc_decrypt_app by assumption.
    destruct Hb as (Hc & Hp & Hal).
    assert (Ha : buffers_ok m c p k) by (unfold buffers_ok; lia).
    rewrite (lc_hc_decrypt_spec hc m c p k) by assumption.
    apply IH.
    + apply (ks_bytes_wf k hc Hwf).
    + unfold buffers_ok. rewrite length_store_at
        by (rewrite length_crypted; lia). lia.
Qed.

(** X3.  Streamed decryption.  dec_init with the AAD, dec_update over
    any split of the ciphertext into consecutive pieces and dec_final
    give the return code, the cryptor and the plaintext bytes of the
    one-shot decryption, in place or into a separate buffer. *)
Theorem decrypt_streaming hc m c p n aad calctag tag taglen sizes :
  wf_hc hc -> buffers_ok m c p n -> list_sum sizes = n ->
  (let hc1 := lc_hc_add_aad _ hc aad in
   let '(hc2, m2) := dec_updates hc1 m c p sizes in
   let '(ret, hc3) := lc_hc_decrypt_authenticate hc2 calctag tag taglen in
   (ret, hc3, m2)) =
  lc_hc_decrypt_oneshot hc m c p n aad calctag tag taglen.
Proof.
  intros Hwf Hb Hsum.
  assert (Hwa : wf_hc (lc_hc_add_aad _ hc aad)) by exact Hwf.
  unfold HashCrypt.lc_hc_decrypt_oneshot. cbv zeta.
  rewrite <- Hsum in Hb |- *. rewrite dec_updates_spec by assumption.
  reflexivity.
Qed.

Lemma memcmp_verdict (a b : list Z) n :
  (if lc_memcmp_secure a b n then - EBADMSG else 0) =
  if bool_decide (take n b = take n a) then 0 else - EBADMSG.
Proof.
  unfold lc_memcmp_secure.
  destruct (decide (take n a = take n b)) as [E | E].
  - rewrite !bool_decide_eq_true_2 by auto. reflexivity.
  - rewrite !bool_decide_eq_false_2 by auto. reflexivity.
Qed.

(** X4.  The verdict of lc_hc_decrypt_authenticate.  A tag length above
    64 bytes is refused with -EINVAL before the MAC is finalised, the
    cryptor staying as it was.  For a tag length up to the digest size
    the call returns 0 exactly when the first [taglen] bytes of the tag
    are the first [taglen] bytes of the MAC over the data fed so far, and
    -EBADMSG otherwise; what the local array held does not matter. *)
Theorem decrypt_authenticate_verdict hc calctag tag taglen :
  (digestsize <= LC_SHA_MAX_SIZE_DIGEST)%nat ->
  let mac := HMAC (hmac_key (auth_ctx _ hc)) (hmac_msg (auth_ctx _ hc)) in
  ((LC_SHA_MAX_SIZE_DIGEST < taglen)%nat ->
   lc_hc_decrypt_authenticate hc calctag tag taglen = (- Drng.EINVAL, hc)) /\
  ((taglen <= digestsize)%nat ->
   fst (lc_hc_decrypt_authenticate hc calctag tag taglen) =
     if bool_decide (take taglen tag = take taglen mac) then 0
     else - EBADMSG).
Proof.
  intros Hd mac. split.
  - intros Ht. unfold HashCrypt.lc_hc_decrypt_authenticate.
    destruct (Nat.ltb_spec LC_SHA_MAX_SIZE_DIGEST taglen); [reflexivity | lia].
  - intros Ht. unfold HashCrypt.lc_hc_decrypt_authenticate.
    destruct (Nat.ltb_spec LC_SHA_MAX_SIZE_DIGEST taglen); [lia |].
    pose proof (encrypt_tag_bytes hc calctag taglen (conj Ht Hd)) as Hb.
    destruct (lc_hc_encrypt_tag hc calctag taglen) as [hc' calc'].
    cbn [fst snd] in *. rewrite memcmp_verdict, Hb. reflexivity.
Qed.

(** X5.  Tag lengths above the digest size.  lc_hc_encrypt_tag writes
    the [digestsize] bytes of the MAC and nothing more, so the bytes of
    the tag buffer from [digestsize] on keep what they held; and
    lc_hc_decrypt_authenticate compares [taglen] bytes of its local
    array, of which only the first [digestsize] were written: it returns
    0 exactly when the tag is the MAC followed by the bytes the array
    held before the call. *)
Theorem authenticate_beyond_digest hc buf tag taglen :
  (digestsize < taglen <= LC_SHA_MAX_SIZE_DIGEST)%nat ->
  let mac := HMAC (hmac_key (auth_ctx _ hc)) (hmac_msg (auth_ctx _ hc)) in
  snd (lc_hc_encrypt_tag hc buf taglen) = mac ++ drop digestsize buf /\
  fst (lc_hc_decrypt_authenticate hc buf tag taglen) =
    if bool_decide
         (take taglen tag =
          mac ++ take (taglen - digestsize) (drop digestsize buf))
    then 0 else - EBADMSG.
Proof.
  intros Ht mac.
  pose proof (hmac_len (hmac_key (auth_ctx _ hc)) (hmac_msg (auth_ctx _ hc)))
    as Hl. fold mac in Hl.
  assert (Htag : snd (lc_hc_encrypt_tag hc buf taglen)
                 = mac ++ drop digestsize buf).
  { unfold HashCrypt.lc_hc_encrypt_tag.
    destruct (Nat.ltb_spec LC_SHA_MAX_SIZE_DIGEST digestsize); [lia |].
    unfold lc_hmac_final. fold mac.
    destruct (Nat.ltb_spec taglen digestsize); [lia |].
    cbn [snd]. unfold store. rewrite Hl. reflexivity. }
  split; [exact Htag |].
  unfold HashCrypt.lc_hc_decrypt_authenticate.
  destruct (Nat.ltb_spec LC_SHA_MAX_SIZE_DIGEST taglen); [lia |].
  destruct (lc_hc_encrypt_tag hc buf taglen) as [hc' calc'].
  cbn [fst snd] in *. rewrite memcmp_verdict, Htag.
  rewrite take_app_ge by lia. rewrite Hl. reflexivity.
Qed.

(** X7.  lc_hc_crypt writes the [len] bytes at [out] and nothing else:
    the memory keeps its size and every range that lies before or after
    the output range keeps its content. *)
Theorem crypt_frame hc m in_p out_p len a k :
  wf_hc hc -> buffers_ok m in_p out_p len ->
  (a + k <= out_p \/ out_p + len <= a)%nat ->
  let m' := snd (lc_hc_crypt hc m in_p out_p len) in
  length m' = length m /\ load m' a k = load m a k.
Proof.
  intros Hwf Hb Hd. pose proof Hb as (Hi & Ho & _).
  rewrite lc_hc_crypt_spec by assumption. cbn [snd].
  pose proof (length_crypted hc m in_p len Hi) as Hl.
  split.
  - apply length_store_at. lia.
  - destruct Hd as [Hd | Hd].
    + apply load_store_at_before; lia.
    + apply load_store_at_after; lia.
Qed.

Lemma xor_bytes_cancel (a : list Z) : forall b k,
  length a = length k -> length b = length k ->
  xor_bytes (xor_bytes a k) (xor_bytes b k) = xor_bytes a b.
Proof.
  induction a as [| x a IH]; intros [| y b] [| z k] Ha Hb;
    try discriminate; [reflexivity |].
  cbn. f_equal.
  - rewrite Z.lxor_assoc, (Z.lxor_comm y z), <- (Z.lxor_assoc z z y).
    rewrite Z.lxor_nilpotent, Z.lxor_0_l. reflexivity.
  - apply IH; [injection Ha | injection Hb]; auto.
Qed.

(** X8.  The keystream does not depend on the data.  Run on two
    buffers of the same length from the same cryptor, lc_hc_crypt leaves
    the same cryptor, and the XOR of the two outputs is the XOR of the
    two inputs. *)
Theorem crypt_xor_structure hc m1 m2 p1 q1 p2 q2 n :
  wf_hc hc -> buffers_ok m1 p1 q1 n -> buffers_ok m2 p2 q2 n ->
  let '(hc1, o1) := lc_hc_crypt hc m1 p1 q1 n in
  let '(hc2, o2) := lc_hc_crypt hc m2 p2 q2 n in
  hc1 = hc2 /\
  xor_bytes (load o1 q1 n) (load o2 q2 n) =
    xor_bytes (load m1 p1 n) (load m2 p2 n).
Proof.
  intros Hwf Hb1 Hb2.
  rewrite !lc_hc_crypt_spec by assumption.
  destruct Hb1 as (Hi1 & Ho1 & _). destruct Hb2 as (Hi2 & Ho2 & _).
  split; [reflexivity |].
  rewrite !load_crypted by assumption. unfold crypted.
  apply xor_bytes_cancel; rewrite length_load, ks_bytes_length; lia.
Qed.

(** X6.  What lc_hc_setkey_nocheck leaves behind.  A null or empty key
    is refused with -EINVAL and a failing seed returns its code, in both
    cases before any key material is generated.  Otherwise the MAC is
    keyed with the first 64 bytes the seeded generator delivers, and the
    keystream buffer holds the block it delivers next, read from its
    start: MAC key and keystream are different generator output. *)
Theorem setkey_outcome hc key iv :
  wf_hc hc -> key <> [] ->
  lc_hc_setkey_nocheck hc None iv = (- Drng.EINVAL, hc) /\
  lc_hc_setkey_nocheck hc (Some []) iv = (- Drng.EINVAL, hc) /\
  (let '(r, d1) := lc_rng_seed (drbg _ hc) key iv in
   let '(_, d2, k1) := lc_rng_generate d1 [] LC_SHA_MAX_SIZE_DIGEST in
   let '(_, d3, k2) := lc_rng_generate d2 [] KB in
   lc_hc_setkey_nocheck hc (Some key) iv =
     if negb (r =? 0)%Z then (r, set_drbg _ d1 hc)
     else if negb (hmac_init_ret =? 0)%Z then
       (hmac_init_ret,
        mk_hc _ d2 (mk_hmac k1 [] false) (store (keystream _ hc) k1)
              (keystream_ptr _ hc))
     else (0, mk_hc _ d3 (mk_hmac k1 [] false) k2 0)).
Proof.
  intros Hwf Hkey. split; [reflexivity |]. split; [reflexivity |].
  unfold HashCrypt.lc_hc_setkey_nocheck.
  destruct key as [| b key]; [congruence |]. cbn [length Nat.eqb].
  destruct (lc_rng_seed _ _ _) as [r d1].
  pose proof (rng_generate_len d1 [] LC_SHA_MAX_SIZE_DIGEST) as Hl1.
  destruct (lc_rng_generate d1 [] LC_SHA_MAX_SIZE_DIGEST)
    as [[r1 d2] k1] eqn:E1.
  pose proof (rng_generate_len d2 [] KB) as Hl2.
  destruct (lc_rng_generate d2 [] KB) as [[r2 d3] k2] eqn:E2.
  cbn [snd] in Hl1, Hl2.
  destruct (negb (r =? 0)%Z); [reflexivity |].
  rewrite generate_keystream_ok. cbn [drbg set_drbg]. rewrite E1.
  cbn [Z.eqb negb]. unfold lc_hmac_init.
  cbn [keystream auth_ctx keystream_ptr drbg].
  rewrite take_store by exact Hl1.
  destruct (negb (hmac_init_ret =? 0)%Z); [reflexivity |].
  rewrite generate_keystream_ok. cbn [drbg set_auth_ctx]. rewrite E2.
  cbn [Z.eqb negb set_keystream_ptr drbg auth_ctx keystream keystream_ptr].
  assert (Hs : store (store (keystream _ hc) k1) k2 = k2).
  { unfold wf_hc in Hwf. unfold store at 1.
    rewrite drop_ge; [apply app_nil_r |].
    rewrite length_store by lia. lia. }
  unfold set_keystream_ptr, set_keystream, set_auth_ctx, set_drbg.
  cbn [drbg auth_ctx keystream keystream_ptr].
  rewrite Hs. reflexivity.
Qed.

End Spec.

(** *** A failing generator *)

Section RngFailure.

Variable rng_state : Type.
Variable lc_rng_generate : rng_state -> list Z -> nat -> Z * rng_state * list Z.
Variable KB : nat.

(** X19.  A generator that fails when the keystream block is used up
    stops lc_hc_crypt at once and without a report: the function is
    void, nothing is copied or XORed, and lc_hc_encrypt goes on to feed
    the MAC from the output buffer as it was. *)
Theorem crypt_stops_on_rng_failure (hc : lc_hc_cryptor rng_state)
    m in_p out_p len :
  (0 < len)%nat -> (KB <= keystream_ptr _ hc)%nat ->
  fst (fst (lc_rng_generate (drbg _ hc) [] KB)) <> 0 ->
  lc_hc_crypt rng_state lc_rng_generate KB hc m in_p out_p len =
    (set_drbg _ (snd (fst (lc_rng_generate (drbg _ hc) [] KB))) hc, m) /\
  lc_hc_encrypt rng_state lc_rng_generate KB hc m in_p out_p len =
    (set_auth_ctx _ (lc_hmac_update (auth_ctx _ hc) (load m out_p len))
       (set_drbg _ (snd (fst (lc_rng_generate (drbg _ hc) [] KB))) hc), m).
Proof.
  intros Hlen Hptr Hret.
  assert (Hc : lc_hc_crypt rng_state lc_rng_generate KB hc m in_p out_p len =
    (set_drbg _ (snd (fst (lc_rng_generate (drbg _ hc) [] KB))) hc, m)).
  { unfold lc_hc_crypt. destruct len as [| len]; [lia |].
    cbn [crypt_loop Nat.eqb].
    destruct (Nat.leb_spec KB (keystream_ptr _ hc)); [| lia].
    unfold generate_keystream.
    destruct (lc_rng_generate (drbg _ hc) [] KB) as [[r d] ks].
    cbn [fst snd] in *.
    assert (Hb : (r =? 0) = false) by (apply Z.eqb_neq; exact Hret).
    repeat (rewrite Hb; cbn [negb]). reflexivity. }
  split; [exact Hc |].
  unfold lc_hc_encrypt. rewrite Hc. reflexivity.
Qed.

End RngFailure.

(** *** A concrete instance *)

(** A simple generator and MAC to run the functions on: the generator
    state is a number, the MAC has 32 bytes, the keystream block 64. *)
Definition sum_bytes (l : list Z) : Z := fold_right Z.add 0 l.

Definition demo_seed (st : Z) (key iv : list Z) : Z * Z :=
  (0, st + sum_bytes key + 3 * sum_bytes iv).

Definition demo_generate (st : Z) (addtl : list Z) (n : nat)
    : Z * Z * list Z :=
  (0, st + Z.of_nat n + 1,
   map (fun i => u8 (7 * st + 13 * Z.of_nat i + 1)) (seq 0 n)).

Definition demo_hmac (k msg : list Z) : list Z :=
  map (fun i => u8 (sum_bytes k + 3 * sum_bytes msg
                    + Z.of_nat i)) (seq 0 32).

Definition demo_hc0 : lc_hc_cryptor Z :=
  mk_hc Z 0 (mk_hmac [] [] false) (repeat 0 64) 0.

Definition demo_hc : lc_hc_cryptor Z :=
  snd (lc_hc_setkey_nocheck Z demo_seed demo_generate 0 64 demo_hc0
         (Some [1; 2; 3]) [4]).

Lemma demo_generate_ok st a n : fst (fst (demo_generate st a n)) = 0.
Proof. reflexivity. Qed.

Lemma demo_generate_len st a n : length (snd (demo_generate st a n)) = n.
Proof. cbn. rewrite length_map, length_seq. reflexivity. Qed.

Lemma demo_block_min : (LC_SHA_MAX_SIZE_DIGEST <= 64)%nat.
Proof. reflexivity. Qed.

Lemma demo_hmac_len k msg : length (demo_hmac k msg) = 32%nat.
Proof. unfold demo_hmac. rewrite length_map, length_seq. reflexivity. Qed.

Lemma demo_hc_wf : wf_hc Z 64 demo_hc.
Proof. reflexivity. Qed.

(** Five plaintext bytes at offset 0 and a separate buffer at offset 5. *)
Definition demo_mem : list Z := [10; 20; 30; 40; 50; 0; 0; 0; 0; 0].

(** Witness of [aead_roundtrip_and_streaming]: five bytes encrypted into
    the separate buffer, decrypted there in place, and the same
    encryption streamed in pieces of 1, 2 and 2 bytes. *)
Lemma aead_roundtrip_and_streaming_witness :
  let enc := lc_hc_encrypt_oneshot Z demo_generate demo_hmac 32 64 in
  let dec := lc_hc_decrypt_oneshot Z demo_generate demo_hmac 32 64 in
  let '(hc_e, m_e, tag_e) :=
    enc demo_hc demo_mem 0%nat 5%nat 5%nat [7; 7] (repeat 0 16) 16%nat in
  (let '(ret, _, m_d) :=
     dec demo_hc m_e 5%nat 5%nat 5%nat [7; 7] (repeat 0 64) tag_e 16%nat in
   ret = 0 /\ load m_d 5 5 = [10; 20; 30; 40; 50]) /\
  (let hc1 := lc_hc_add_aad Z demo_hc [7; 7] in
   let '(hc2, m2) :=
     enc_updates Z demo_generate 64 hc1 demo_mem 0 5 [1; 2; 2]%nat in
   let '(hc3, t) :=
     lc_hc_encrypt_tag Z demo_hmac 32 hc2 (repeat 0 16) 16 in
   (hc3, m2, t)) = (hc_e, m_e, tag_e).
Proof.
  pose proof (aead_roundtrip_and_streaming Z demo_seed demo_generate
                demo_hmac 32 0 64 demo_generate_ok demo_generate_len
                demo_block_min demo_hmac_len demo_hc0 [1; 2; 3] [4]
                demo_mem 0 5 5 [7; 7] (repeat 0 16) 16
                [10; 20; 30; 40; 50; 76; 71; 126; 69; 72] 5 5
                (repeat 0 64) [1; 2; 2]%nat) as H.
  assert (H' := H eq_refl eq_refl). clear H.
  assert (Hb1 : buffers_ok demo_mem 0 5 5)
    by (unfold buffers_ok; cbn; lia).
  assert (Hb2 : buffers_ok [10; 20; 30; 40; 50; 76; 71; 126; 69; 72] 5 5 5)
    by (unfold buffers_ok; cbn; lia).
  assert (Ht : (16 <= 32 <= LC_SHA_MAX_SIZE_DIGEST)%nat)
    by (unfold LC_SHA_MAX_SIZE_DIGEST; lia).
  specialize (H' Hb1 Hb2 Ht eq_refl).
  vm_compute in H'. vm_compute.
  destruct H' as [H1 H2]. split; [apply H1; reflexivity | exact H2].
Defined.



(** Witness of [inplace_equivalence]. *)
Lemma inplace_equivalence_witness :
  let enc := lc_hc_encrypt_oneshot Z demo_generate demo_hmac 32 64 in
  let dec := lc_hc_decrypt_oneshot Z demo_generate demo_hmac 32 64 in
  (let '(hc1, m1, t1) :=
     enc demo_hc demo_mem 0%nat 0%nat 5%nat [7; 7] (repeat 0 16) 16%nat in
   let '(hc2, m2, t2) :=
     enc demo_hc demo_mem 0%nat 5%nat 5%nat [7; 7] (repeat 0 16) 16%nat in
   load m1 0 5 = load m2 5 5 /\ t1 = t2 /\ hc1 = hc2) /\
  (let '(r1, hc1, m1) :=
     dec demo_hc demo_mem 0%nat 0%nat 5%nat [7; 7] (repeat 0 64)
       (repeat 0 16) 16%nat in
   let '(r2, hc2, m2) :=
     dec demo_hc demo_mem 0%nat 5%nat 5%nat [7; 7] (repeat 0 64)
       (repeat 0 16) 16%nat in
   load m1 0 5 = load m2 5 5 /\ r1 = r2 /\ hc1 = hc2).
Proof.
  apply (inplace_equivalence Z demo_generate demo_hmac 32 64
           demo_generate_ok demo_generate_len demo_block_min
           demo_hc demo_mem 0 5 5 [7; 7] (repeat 0 16) (repeat 0 64) 16).
  - exact demo_hc_wf.
  - cbn. lia.
  - cbn. lia.
  - left. lia.
Defined.

(** Witness of [decrypt_streaming]: five bytes decrypted into a separate
    buffer in pieces of 1, 2 and 2 bytes. *)
Lemma decrypt_streaming_witness :
  (let hc1 := lc_hc_add_aad Z demo_hc [7; 7] in
   let '(hc2, m2) :=
     dec_updates Z demo_generate 64 hc1 demo_mem 0 5 [1; 2; 2]%nat in
   let '(ret, hc3) :=
     lc_hc_decrypt_authenticate Z demo_hmac 32 hc2 (repeat 0 64)
       (repeat 0 16) 16 in
   (ret, hc3, m2)) =
  lc_hc_decrypt_oneshot Z demo_generate demo_hmac 32 64 demo_hc demo_mem
    0 5 5 [7; 7] (repeat 0 64) (repeat 0 16) 16.
Proof.
  apply decrypt_streaming.
  - exact demo_generate_ok.
  - exact demo_generate_len.
  - exact demo_block_min.
  - exact demo_hc_wf.
  - unfold buffers_ok. cbn. lia.
  - reflexivity.
Defined.

(** Witness of [decrypt_authenticate_verdict]: a tag of 16 zero bytes
    against a MAC of 32 bytes, and a tag length of 65. *)
Lemma decrypt_authenticate_verdict_witness :
  let auth := lc_hc_decrypt_authenticate Z demo_hmac 32 in
  let mac := demo_hmac (hmac_key (auth_ctx Z demo_hc))
               (hmac_msg (auth_ctx Z demo_hc)) in
  auth demo_hc (repeat 0 64) (repeat 0 65) 65%nat = (- Drng.EINVAL, demo_hc) /\
  fst (auth demo_hc (repeat 0 64) (repeat 0 16) 16%nat) =
    if bool_decide (take 16 (repeat 0 16) = take 16 mac) then 0
    else - EBADMSG.
Proof.
  assert (Hd : (32 <= LC_SHA_MAX_SIZE_DIGEST)%nat)
    by (unfold LC_SHA_MAX_SIZE_DIGEST; lia).
  split.
  - apply (decrypt_authenticate_verdict Z demo_hmac 32 64 demo_block_min
             demo_hmac_len
             demo_hc (repeat 0 64) (repeat 0 65) 65 Hd).
    unfold LC_SHA_MAX_SIZE_DIGEST. lia.
  - apply (decrypt_authenticate_verdict Z demo_hmac 32 64 demo_block_min
             demo_hmac_len
             demo_hc (repeat 0 64) (repeat 0 16) 16 Hd).
    lia.
Defined.

(** Witness of [authenticate_beyond_digest]: a tag length of 40 with the
    MAC of 32 bytes. *)
Lemma authenticate_beyond_digest_witness :
  let mac := demo_hmac (hmac_key (auth_ctx Z demo_hc))
               (hmac_msg (auth_ctx Z demo_hc)) in
  snd (lc_hc_encrypt_tag Z demo_hmac 32 demo_hc (repeat 9 40) 40) =
    mac ++ drop 32 (repeat 9 40) /\
  fst (lc_hc_decrypt_authenticate Z demo_hmac 32 demo_hc (repeat 9 40)
         (repeat 0 40) 40) =
    if bool_decide
         (take 40 (repeat 0 40) =
          mac ++ take (40 - 32) (drop 32 (repeat 9 40)))
    then 0 else - EBADMSG.
Proof.
  apply (authenticate_beyond_digest Z demo_hmac 32 64 demo_block_min
           demo_hmac_len demo_hc
           (repeat 9 40) (repeat 0 40) 40).
  unfold LC_SHA_MAX_SIZE_DIGEST. lia.
Defined.

(** The verdict changes with what the local array held: the same tag is
    accepted over one content and refused over another. *)
Example authenticate_beyond_digest_depends_on_array :
  let mac := demo_hmac (hmac_key (auth_ctx Z demo_hc))
               (hmac_msg (auth_ctx Z demo_hc)) in
  let auth := lc_hc_decrypt_authenticate Z demo_hmac 32 demo_hc in
  fst (auth (repeat 9 64) (mac ++ repeat 9 8) 40%nat) = 0 /\
  fst (auth (repeat 0 64) (mac ++ repeat 9 8) 40%nat) = - EBADMSG.
Proof. vm_compute. split; reflexivity. Qed.

(** Witness of [crypt_frame]: the five input bytes stay as they were
    when the output goes to the separate buffer. *)
Lemma crypt_frame_witness :
  let m' := snd (lc_hc_crypt Z demo_generate 64 demo_hc demo_mem 0 5 5) in
  length m' = length demo_mem /\ load m' 0 5 = load demo_mem 0 5.
Proof.
  apply crypt_frame.
  - exact demo_generate_ok.
  - exact demo_generate_len.
  - exact demo_block_min.
  - exact demo_hc_wf.
  - unfold buffers_ok. cbn. lia.
  - left. lia.
Defined.

(** Witness of [crypt_xor_structure]: two buffers of five bytes. *)
Lemma crypt_xor_structure_witness :
  let '(hc1, o1) := lc_hc_crypt Z demo_generate 64 demo_hc demo_mem 0 5 5 in
  let '(hc2, o2) :=
    lc_hc_crypt Z demo_generate 64 demo_hc [1; 2; 3; 4; 5] 0 0 5 in
  hc1 = hc2 /\
  xor_bytes (load o1 5 5) (load o2 0 5) =
    xor_bytes (load demo_mem 0 5) (load [1; 2; 3; 4; 5] 0 5).
Proof.
  apply (crypt_xor_structure Z demo_generate 64 demo_generate_ok
           demo_generate_len demo_block_min demo_hc demo_mem [1; 2; 3; 4; 5]
           0 5 0 0 5).
  - exact demo_hc_wf.
  - unfold buffers_ok. cbn. lia.
  - unfold buffers_ok. cbn. lia.
Defined.

(** Witness of [setkey_outcome]: the key and IV of the demonstration
    cryptor. *)
Lemma setkey_outcome_witness :
  let '(r, d1) := demo_seed (drbg Z demo_hc0) [1; 2; 3] [4] in
  let '(_, d2, k1) := demo_generate d1 [] LC_SHA_MAX_SIZE_DIGEST in
  let '(_, d3, k2) := demo_generate d2 [] 64 in
  lc_hc_setkey_nocheck Z demo_seed demo_generate 0 64 demo_hc0
    (Some [1; 2; 3]) [4] =
  (0, mk_hc Z d3 (mk_hmac k1 [] false) k2 0).
Proof.
  destruct (setkey_outcome Z demo_seed demo_generate 0 64 demo_generate_ok
              demo_generate_len demo_block_min demo_hc0 [1; 2; 3] [4])
    as (_ & _ & H).
  - reflexivity.
  - discriminate.
  - exact H.
Defined.

(** A generator that always fails, and a cryptor whose keystream block
    is used up. *)
Definition failing_generate (st : Z) (addtl : list Z) (n : nat)
    : Z * Z * list Z := (- Drng.EINVAL, st, []).

Definition used_up_hc : lc_hc_cryptor Z :=
  mk_hc Z 0 (mk_hmac [] [] false) (repeat 0 64) 64.

(** Witness of [crypt_stops_on_rng_failure]: three bytes in place. *)
Lemma crypt_stops_on_rng_failure_witness :
  lc_hc_crypt Z failing_generate 64 used_up_hc [1; 2; 3] 0 0 3 =
    (used_up_hc, [1; 2; 3]) /\
  lc_hc_encrypt Z failing_generate 64 used_up_hc [1; 2; 3] 0 0 3 =
    (mk_hc Z 0 (mk_hmac [] [1; 2; 3] false) (repeat 0 64) 64, [1; 2; 3]).
Proof.
  apply (crypt_stops_on_rng_failure Z failing_generate 64 used_up_hc
           [1; 2; 3] 0 0 3).
  - lia.
  - cbn. lia.
  - cbn. discriminate.
Defined.

End HashCryptSpec.

(** * Further properties of the embedded code *)

(** ** Sponge engine: absorbing and squeezing in pieces *)

Module SpongeProps.

Import Sponge.

Lemma len_nonneg (l : list Z) : 0 <= len l.
Proof. unfold len. lia. Qed.

Lemma len_cons (b : Z) (l : list Z) : len (b :: l) = 1 + len l.
Proof. unfold len. cbn [length]. lia. Qed.

Lemma len_append (a b : list Z) : len (a ++ b) = len a + len b.
Proof. unfold len. rewrite length_app. lia. Qed.

Lemma len_ztake (n : Z) (l : list Z) :
  0 <= n <= len l -> len (ztake n l) = n.
Proof. intros H. unfold len, ztake in *. rewrite length_take. lia. Qed.

Lemma len_zdrop (n : Z) (l : list Z) :
  0 <= n <= len l -> len (zdrop n l) = len l - n.
Proof. intros H. unfold len, zdrop in *. rewrite length_drop. lia. Qed.

Lemma ztake_zdrop (n : Z) (l : list Z) : ztake n l ++ zdrop n l = l.
Proof. unfold ztake, zdrop. apply take_drop. Qed.

Lemma ztake_all (n : Z) (l : list Z) : len l <= n -> ztake n l = l.
Proof. intros H. unfold ztake, len in *. apply take_ge. lia. Qed.

Lemma zdrop_zdrop (a b : Z) (l : list Z) :
  0 <= a -> 0 <= b -> zdrop a (zdrop b l) = zdrop (b + a) l.
Proof.
  intros Ha Hb. unfold zdrop. rewrite drop_drop. f_equal. lia.
Qed.

Section Absorbing.

Variable absorb : list Z -> list Z -> Z -> list Z * Z.
Variable keccakf1600 : list Z -> list Z.

(** What the engine relies on in the bulk absorb function: an input
    shorter than a block is left alone and reported as left over; a
    longer one has its first block XORed into the lanes and permuted,
    and the function goes on with the rest. *)
Hypothesis absorb_short : forall A inp r,
  len inp < r -> absorb A inp r = (A, len inp).
Hypothesis absorb_block : forall A inp r,
  0 < r <= len inp ->
  absorb A inp r =
    absorb (keccakf1600 (sha3_fill_state_bytes A inp 0 r)) (zdrop r inp) r.

Local Abbreviation absorb_internal :=
  (keccak_arm_asm_absorb_internal absorb keccakf1600).

(** The sponge one byte at a time: XOR the byte at the position in the
    block, permute when the block is full. *)
Definition absorb_byte (r : Z) (st : list Z * Z) (b : Z) : list Z * Z :=
  let A := state_xor_byte (fst st) (snd st) b in
  if snd st + 1 =? r then (keccakf1600 A, 0) else (A, snd st + 1).

Definition absorb_bytes (r : Z) (A : list Z) (p : Z) (inp : list Z)
    : list Z * Z :=
  fold_left (absorb_byte r) inp (A, p).

Lemma absorb_bytes_app r A p a b :
  absorb_bytes r A p (a ++ b) =
  absorb_bytes r (fst (absorb_bytes r A p a)) (snd (absorb_bytes r A p a)) b.
Proof.
  unfold absorb_bytes. rewrite fold_left_app.
  destruct (fold_left _ a _); reflexivity.
Qed.

(** Inside one block the byte-wise sponge is the fill loop, followed by
    a permutation when the block becomes full. *)
Lemma absorb_bytes_fill r (inp : list Z) : forall A p,
  0 <= p < r -> p + len inp <= r ->
  absorb_bytes r A p inp =
    if p + len inp =? r then (keccakf1600 (fill_loop A inp p), 0)
    else (fill_loop A inp p, p + len inp).
Proof.
  induction inp as [| b rest IH]; intros A p Hp Hl.
  - unfold absorb_bytes. cbn [fold_left fill_loop].
    change (len []) with 0. rewrite Z.add_0_r.
    destruct (Z.eqb_spec p r); [lia | reflexivity].
  - rewrite len_cons in Hl |- *. pose proof (len_nonneg rest).
    change (absorb_bytes r A p (b :: rest))
      with (fold_left (absorb_byte r) rest (absorb_byte r (A, p) b)).
    unfold absorb_byte at 2. cbn [fst snd fill_loop].
    destruct (Z.eqb_spec (p + 1) r) as [E | E].
    + assert (len rest = 0) by lia.
      destruct rest; [| unfold len in *; cbn [length] in *; lia].
      cbn [fold_left fill_loop].
      destruct (Z.eqb_spec (p + (1 + len [])) r); [reflexivity |].
      unfold len in *. cbn in *. lia.
    + fold (absorb_bytes r (state_xor_byte A p b) (p + 1) rest).
      rewrite IH by lia.
      replace (p + 1 + len rest) with (p + (1 + len rest)) by lia.
      reflexivity.
Qed.

(** The bulk absorb takes the whole blocks of the input from position 0
    and leaves the rest for the fill loop. *)
Lemma absorb_bulk r (n : nat) : forall A inp,
  0 < r -> (length inp <= n)%nat ->
  let '(A', rest) := absorb A inp r in
  rest = len inp mod r /\
  absorb_bytes r A 0 inp =
    (fill_loop A' (zdrop (len inp - rest) inp) 0, rest).
Proof.
  induction n as [| n IH]; intros A inp Hr Hn.
  - destruct inp; [| cbn in Hn; lia].
    rewrite absorb_short by (unfold len; cbn; lia).
    unfold len. cbn. rewrite Z.mod_0_l by lia. auto.
  - destruct (Z.lt_ge_cases (len inp) r) as [Hs | Hb].
    + rewrite absorb_short by exact Hs. pose proof (len_nonneg inp).
      rewrite Z.mod_small by lia. split; [reflexivity |].
      rewrite Z.sub_diag. unfold zdrop. cbn [Z.to_nat drop].
      rewrite absorb_bytes_fill by lia.
      destruct (Z.eqb_spec (0 + len inp) r); [lia | reflexivity].
    + rewrite absorb_block by lia.
      assert (Hl : len (zdrop r inp) = len inp - r)
        by (apply len_zdrop; lia).
      specialize (IH (keccakf1600 (sha3_fill_state_bytes A inp 0 r))
                    (zdrop r inp) Hr).
      destruct (absorb _ (zdrop r inp) r) as [A' rest].
      destruct IH as (Hrest & Hbytes).
      { unfold zdrop, len in *. rewrite length_drop. lia. }
      rewrite Hl in Hrest, Hbytes.
      assert (Hm : (len inp - r) mod r = len inp mod r).
      { replace (len inp - r) with (len inp + (-1) * r) by lia.
        apply Z.mod_add. lia. }
      rewrite Hm in Hrest. split; [exact Hrest |].
      rewrite <- (ztake_zdrop r inp) at 1.
      rewrite absorb_bytes_app.
      rewrite (absorb_bytes_fill r (ztake r inp) A 0)
        by (rewrite ?len_ztake; lia).
      rewrite len_ztake by lia.
      destruct (Z.eqb_spec (0 + r) r); [| lia]. cbn [fst snd].
      unfold sha3_fill_state_bytes in Hbytes. rewrite Hbytes.
      pose proof (Z.mod_pos_bound (len inp) r Hr).
      pose proof (Z.mod_le (len inp - r) r ltac:(lia) Hr) as Hle.
      rewrite Hm in Hle.
      rewrite zdrop_zdrop by lia.
      do 3 f_equal. lia.
Qed.

Lemma absorb_tail_bytes ctx inp :
  0 < r ctx ->
  absorb_tail absorb ctx inp (r ctx) =
    set_state (fst (absorb_bytes (r ctx) (state ctx) 0 inp)) ctx /\
  snd (absorb_bytes (r ctx) (state ctx) 0 inp) = len inp mod r ctx.
Proof.
  intros Hr. unfold absorb_tail. pose proof (len_nonneg inp) as Hn.
  pose proof (absorb_bulk (r ctx) (length inp) (state ctx) inp Hr
                (Nat.le_refl _)) as Hb.
  destruct (Z.leb_spec (r ctx) (len inp)) as [Hge | Hlt].
  - destruct (absorb (state ctx) inp (r ctx)) as [A' rest].
    destruct Hb as (Hrest & Hbytes). rewrite Hbytes. cbn [fst snd].
    split; [| exact Hrest].
    unfold sha3_fill_state_bytes.
    pose proof (Z.mod_pos_bound (len inp) (r ctx) Hr).
    assert (Hm : len inp mod r ctx <= len inp)
      by (apply Z.mod_le; lia).
    rewrite ztake_all; [reflexivity |].
    rewrite len_zdrop by lia. lia.
  - rewrite absorb_short in Hb by exact Hlt.
    destruct Hb as (Hrest & Hbytes). rewrite Hbytes. cbn [fst snd].
    rewrite Z.mod_small by lia. split; [| reflexivity].
    unfold sha3_fill_state_bytes. rewrite ztake_all by lia.
    rewrite Z.sub_diag. reflexivity.
Qed.

(** The absorb function on a context is the byte-wise sponge started at
    the position [msg_len mod r]. *)
Lemma absorb_internal_bytes ctx inp :
  0 < r ctx -> 0 <= msg_len ctx -> msg_len ctx + len inp < 2 ^ 64 ->
  let res := absorb_bytes (r ctx) (state ctx) (msg_len ctx mod r ctx) inp in
  absorb_internal (Some ctx) inp =
    Some (mk_state (fst res) (msg_len ctx + len inp) (digestsize ctx)
            (offset ctx) (r ctx) (padding ctx) false) /\
  snd res = (msg_len ctx + len inp) mod r ctx.
Proof.
  intros Hr Hm Hlen res. subst res.
  pose proof (len_nonneg inp) as Hn.
  pose proof (Z.mod_pos_bound (msg_len ctx) (r ctx) Hr) as Hp.
  unfold keccak_arm_asm_absorb_internal. cbv zeta.
  cbn [r msg_len set_squeeze_more set_msg_len state].
  assert (Hu : u64 (msg_len ctx + len inp) = msg_len ctx + len inp)
    by (unfold u64; apply Z.mod_small; lia).
  rewrite Hu.
  set (ctx1 := set_msg_len (msg_len ctx + len inp)
                 (set_squeeze_more false ctx)).
  assert (Hmod : (msg_len ctx + len inp) mod r ctx =
                 (msg_len ctx mod r ctx + len inp) mod r ctx).
  { rewrite Z.add_mod_idemp_l by lia. reflexivity. }
  destruct (Z.eqb_spec (msg_len ctx mod r ctx) 0) as [E | E].
  - rewrite E in *.
    destruct (absorb_tail_bytes ctx1 inp Hr) as (Ht & Hs).
    cbn [r state ctx1 set_msg_len set_squeeze_more] in Ht, Hs.
    fold ctx1 in Ht. rewrite Ht. split; [reflexivity |].
    rewrite Hs, Hmod. reflexivity.
  - set (p := msg_len ctx mod r ctx) in *.
    destruct (Z.ltb_spec (len inp) (r ctx - p)) as [Hs | Hb].
    + unfold sha3_fill_state_bytes. rewrite ztake_all by lia.
      rewrite absorb_bytes_fill by lia.
      destruct (Z.eqb_spec (p + len inp) (r ctx)); [lia |]. cbn [fst snd].
      split; [reflexivity |].
      rewrite Hmod, Z.mod_small by lia. reflexivity.
    + set (todo := r ctx - p) in *.
      assert (Hsplit :
        absorb_bytes (r ctx) (state ctx) p inp =
        absorb_bytes (r ctx)
          (keccakf1600 (fill_loop (state ctx) (ztake todo inp) p)) 0
          (zdrop todo inp)).
      { rewrite <- (ztake_zdrop todo inp) at 1.
        rewrite absorb_bytes_app.
        rewrite (absorb_bytes_fill (r ctx) (ztake todo inp) (state ctx) p)
          by (rewrite ?len_ztake; lia).
        rewrite len_ztake by lia.
        destruct (Z.eqb_spec (p + todo) (r ctx)); [| unfold todo in *; lia].
        reflexivity. }
      rewrite Hsplit.
      set (ctx2 := set_state _ ctx1).
      destruct (absorb_tail_bytes ctx2 (zdrop todo inp) Hr) as (Ht & Hsn).
      cbn [r state ctx2 ctx1 set_state set_msg_len set_squeeze_more]
        in Ht, Hsn.
      fold ctx1 in Ht. fold ctx2 in Ht. rewrite Ht.
      unfold sha3_fill_state_bytes in Hsn |- *.
      split; [reflexivity |].
      rewrite Hsn, len_zdrop, Hmod by lia.
      replace (p + len inp) with (len inp - todo + 1 * r ctx)
        by (unfold todo; lia).
      rewrite Z.mod_add by lia. reflexivity.
Qed.

(** X1.  Absorbing in pieces.  For any bulk absorb function that takes
    the whole blocks of its input, absorbing [a] and then [b] leaves the
    context that absorbing [a ++ b] in one call leaves, wherever [a]
    ends in a block. *)
Theorem absorb_in_pieces ctx (a b : list Z) :
  0 < r ctx -> 0 <= msg_len ctx ->
  msg_len ctx + len a + len b < 2 ^ 64 ->
  absorb_internal (absorb_internal (Some ctx) a) b =
  absorb_internal (Some ctx) (a ++ b).
Proof.
  intros Hr Hm Hl.
  pose proof (len_nonneg a). pose proof (len_nonneg b).
  destruct (absorb_internal_bytes ctx a Hr Hm ltac:(lia)) as (Ha & Hpa).
  rewrite Ha.
  set (c1 := mk_state _ _ _ _ _ _ _).
  destruct (absorb_internal_bytes c1 b) as (Hb & _);
    [exact Hr | cbn; lia | cbn; lia |].
  rewrite Hb.
  destruct (absorb_internal_bytes ctx (a ++ b) Hr Hm) as (Hab & _);
    [rewrite len_append; lia |].
  rewrite Hab.
  cbn [c1 r state msg_len digestsize offset padding].
  rewrite <- Hpa, <- absorb_bytes_app, len_append, Z.add_assoc. reflexivity.
Qed.

End Absorbing.

Section Squeezing.

Variable squeeze : list Z -> Z -> Z -> list Z * list Z.
Variable keccakf1600 : list Z -> list Z.

(** What the engine relies on in the bulk squeeze function: up to one
    block is read from the start of the lanes, which stay as they are;
    for more, the first block is read, the lanes are permuted, and the
    function goes on with the rest. *)
Hypothesis squeeze_short : forall A n r,
  n <= r -> squeeze A n r = (A, extract_loop A 0 n).
Hypothesis squeeze_block : forall A n r,
  0 < r < n ->
  squeeze A n r =
    (fst (squeeze (keccakf1600 A) (n - r) r),
     extract_loop A 0 r ++ snd (squeeze (keccakf1600 A) (n - r) r)).

Local Abbreviation squeeze_internal :=
  (keccak_arm_asm_squeeze_internal squeeze keccakf1600).

(** The output one byte at a time.  The position [o] counts the bytes
    of the current block that are used up, from 0 for a fresh block to
    [r] for a block read to its end; a byte asked for at position [r]
    permutes the lanes first. *)
Fixpoint squeeze_bytes (r : Z) (n : nat) (A : list Z) (o : Z)
    : list Z * Z * list Z :=
  match n with
  | O => (A, o, [])
  | S n =>
    let A1 := if o =? r then keccakf1600 A else A in
    let o1 := if o =? r then 0 else o in
    let '(A', o', out) := squeeze_bytes r n A1 (o1 + 1) in
    (A', o', state_byte A1 o1 :: out)
  end.

Lemma squeeze_bytes_app r (n1 : nat) : forall n2 A o,
  squeeze_bytes r (n1 + n2) A o =
    (let '(A1, o1, out1) := squeeze_bytes r n1 A o in
     let '(A2, o2, out2) := squeeze_bytes r n2 A1 o1 in
     (A2, o2, out1 ++ out2)).
Proof.
  induction n1 as [| n1 IH]; intros n2 A o.
  - cbn. destruct (squeeze_bytes r n2 A o) as [[A2 o2] out2]. reflexivity.
  - cbn [Nat.add squeeze_bytes]. rewrite IH.
    destruct (squeeze_bytes r n1 _ _) as [[A1 o1] out1].
    destruct (squeeze_bytes r n2 A1 o1) as [[A2 o2] out2]. reflexivity.
Qed.

Lemma extract_loop_cons A o (n : nat) :
  extract_loop A o (Z.of_nat (S n)) =
  state_byte A o :: extract_loop A (o + 1) (Z.of_nat n).
Proof.
  unfold extract_loop. rewrite !Nat2Z.id. cbn [seq map].
  rewrite Z.add_0_r. f_equal.
  rewrite <- seq_shift, map_map. apply map_ext. intros k.
  f_equal. lia.
Qed.

(** Inside one block the bytes are those of the byte-wise loop. *)
Lemma squeeze_bytes_inblock r (n : nat) : forall A o,
  0 <= o -> o + Z.of_nat n <= r ->
  squeeze_bytes r n A o = (A, o + Z.of_nat n, extract_loop A o (Z.of_nat n)).
Proof.
  induction n as [| n IH]; intros A o Ho Hn.
  - cbn. rewrite Z.add_0_r. reflexivity.
  - cbn [squeeze_bytes].
    destruct (Z.eqb_spec o r); [lia |].
    rewrite IH by lia. rewrite extract_loop_cons.
    do 2 f_equal. lia.
Qed.

(** A block read to its end and a fresh block after the permutation are
    the same position. *)
Lemma squeeze_bytes_boundary r (n : nat) A :
  0 < r -> (0 < n)%nat ->
  squeeze_bytes r n A r = squeeze_bytes r n (keccakf1600 A) 0.
Proof.
  intros Hr Hn. destruct n as [| n]; [lia |]. cbn [squeeze_bytes].
  rewrite Z.eqb_refl. destruct (Z.eqb_spec 0 r); [lia |]. reflexivity.
Qed.

(** The bulk squeeze is the byte-wise output from a fresh block. *)
Lemma squeeze_bulk r (k : nat) : forall (n : nat) A,
  0 < r -> (0 < n <= k)%nat ->
  exists o',
    squeeze_bytes r n A 0 =
      (fst (squeeze A (Z.of_nat n) r), o', snd (squeeze A (Z.of_nat n) r)) /\
    0 < o' <= r /\ o' mod r = Z.of_nat n mod r.
Proof.
  induction k as [| k IH]; intros n A Hr Hn; [lia |].
  destruct (Z.le_gt_cases (Z.of_nat n) r) as [Hs | Hb].
  - rewrite squeeze_short by exact Hs. cbn [fst snd].
    exists (Z.of_nat n). rewrite squeeze_bytes_inblock by lia.
    rewrite Z.add_0_l. split; [reflexivity |]. split; [lia | reflexivity].
  - rewrite squeeze_block by lia. cbn [fst snd].
    set (m := (n - Z.to_nat r)%nat).
    assert (Hm : Z.of_nat m = Z.of_nat n - r) by (unfold m; lia).
    assert (Hn' : n = (Z.to_nat r + m)%nat) by (unfold m; lia).
    destruct (IH m (keccakf1600 A) Hr ltac:(lia)) as (o' & Hb' & Ho & Hmod).
    rewrite Hm in Hb', Hmod.
    exists o'. split; [| split; [exact Ho |]].
    + rewrite Hn' at 1. rewrite squeeze_bytes_app.
      rewrite squeeze_bytes_inblock by lia.
      rewrite Z.add_0_l, Z2Nat.id by lia.
      rewrite squeeze_bytes_boundary by lia.
      rewrite Hb'. reflexivity.
    + rewrite Hmod.
      replace (Z.of_nat n - r) with (Z.of_nat n + (-1) * r) by lia.
      apply Z.mod_add. lia.
Qed.

(** Where in the output a context stands: the lanes the output is read
    from and the position in the current block. *)
Definition squeeze_lanes (ctx : lc_sha3_224_state) : list Z :=
  state (if squeeze_more ctx then ctx
         else finalize_absorb keccakf1600 ctx (r ctx)).

Definition squeeze_position (ctx : lc_sha3_224_state) : Z :=
  if offset ctx =? 0 then (if squeeze_more ctx then r ctx else 0)
  else offset ctx.

Lemma u8_below_256 x : 0 <= x < 256 -> u8 x = x.
Proof. intros H. unfold u8. apply Z.mod_small. exact H. Qed.

Lemma u64_small x : 0 <= x < 2 ^ 64 -> u64 x = x.
Proof. intros H. unfold u64. apply Z.mod_small. exact H. Qed.

Lemma squeeze_tail_bytes ctx out (n : Z) :
  0 < r ctx < 256 -> offset ctx = 0 -> 0 < n < 2 ^ 64 ->
  exists o',
    squeeze_bytes (r ctx) (Z.to_nat n) (state ctx) 0 =
      (state (fst (squeeze_tail squeeze ctx out n (r ctx))), o',
       drop (length out) (snd (squeeze_tail squeeze ctx out n (r ctx)))) /\
    0 < o' <= r ctx /\
    squeeze_tail squeeze ctx out n (r ctx) =
      (set_offset (o' mod r ctx)
         (set_state (fst (squeeze (state ctx) n (r ctx))) ctx),
       out ++ snd (squeeze (state ctx) n (r ctx))).
Proof.
  intros Hr Ho Hn. unfold squeeze_tail.
  destruct (squeeze_bulk (r ctx) (Z.to_nat n) (Z.to_nat n) (state ctx))
    as (o' & Hb & Hpos & Hmod); [lia | lia |].
  rewrite Z2Nat.id in Hb, Hmod by lia.
  destruct (squeeze (state ctx) n (r ctx)) as [A' out2]. cbn [fst snd] in *.
  exists o'. rewrite drop_app_length. split; [exact Hb |].
  split; [exact Hpos |].
  rewrite Ho, Z.add_0_r, Z.add_0_l, u64_small by lia.
  pose proof (Z.mod_pos_bound n (r ctx) ltac:(lia)).
  rewrite (u8_below_256 (n mod r ctx)) by lia.
  rewrite (u8_below_256 (n mod r ctx)) by lia.
  rewrite Hmod. reflexivity.
Qed.

Lemma finalize_absorb_fields ctx b :
  finalize_absorb keccakf1600 ctx b =
  mk_state (state (finalize_absorb keccakf1600 ctx b)) (msg_len ctx)
    (digestsize ctx) (offset ctx) (r ctx) (padding ctx) true.
Proof. destruct ctx. reflexivity. Qed.

(** The squeeze function on a context is the byte-wise output from the
    position the context stands at. *)
Lemma squeeze_internal_bytes ctx :
  0 < r ctx < 256 -> 0 <= offset ctx < r ctx ->
  0 < digestsize ctx < 2 ^ 64 ->
  exists A' o' out,
    squeeze_bytes (r ctx) (Z.to_nat (digestsize ctx)) (squeeze_lanes ctx)
      (squeeze_position ctx) = (A', o', out) /\
    0 < o' <= r ctx /\
    squeeze_internal ctx true =
      (mk_state A' (msg_len ctx) (digestsize ctx) (o' mod r ctx) (r ctx)
         (padding ctx) true, out).
Proof.
  intros Hr Ho Hn.
  unfold keccak_arm_asm_squeeze_internal, squeeze_lanes, squeeze_position.
  cbn [negb]. cbv zeta. rewrite (u8_below_256 (r ctx)) by lia.
  set (ctxf := if squeeze_more ctx then ctx
               else finalize_absorb keccakf1600 ctx (r ctx)).
  assert (Hf : ctxf = mk_state (state ctxf) (msg_len ctx) (digestsize ctx)
                        (offset ctx) (r ctx) (padding ctx) true).
  { unfold ctxf. destruct (squeeze_more ctx) eqn:E.
    - destruct ctx. cbn in E. subst. reflexivity.
    - apply finalize_absorb_fields. }
  set (Af := state ctxf) in *.
  rewrite Hf. cbn [offset state r digestsize msg_len padding set_offset
                   set_state].
  destruct (Z.eqb_spec (offset ctx) 0) as [E0 | E0]; cbn [negb].
  - (* no partial block pending *)
    destruct (squeeze_more ctx) eqn:Esm.
    + unfold set_state.
      cbn [state msg_len digestsize offset r padding squeeze_more].
      set (c1 := mk_state (keccakf1600 Af) _ _ _ _ _ _).
      destruct (squeeze_tail_bytes c1 [] (digestsize ctx))
        as (o' & Hb & Hpos & Ht); [exact Hr | exact E0 | exact Hn |].
      change (r c1) with (r ctx) in Hb, Hpos, Ht.
      change (state c1) with (keccakf1600 Af) in Hb, Ht.
      rewrite Ht in Hb |- *. cbn [fst snd c1 r state set_state set_offset
        length drop msg_len digestsize offset padding squeeze_more app]
        in Hb |- *.
      eexists _, o', _. split; [| split; [exact Hpos | reflexivity]].
      rewrite squeeze_bytes_boundary by lia. exact Hb.
    + set (c1 := mk_state Af _ _ _ _ _ _).
      destruct (squeeze_tail_bytes c1 [] (digestsize ctx))
        as (o' & Hb & Hpos & Ht); [exact Hr | exact E0 | exact Hn |].
      change (r c1) with (r ctx) in Hb, Hpos, Ht.
      change (state c1) with Af in Hb, Ht.
      rewrite Ht in Hb |- *. cbn [fst snd c1 r state set_state set_offset
        length drop msg_len digestsize offset padding squeeze_more app]
        in Hb |- *.
      eexists _, o', _. split; [| split; [exact Hpos | reflexivity]].
      exact Hb.
  - (* a partial block is pending *)
    set (n := digestsize ctx) in *. set (o := offset ctx) in *.
    set (rr := r ctx) in *.
    rewrite (u8_below_256 (rr - o)) by lia.
    rewrite DrngSpec.min_size_spec.
    set (t := Z.min n (rr - o)).
    assert (Ht : 0 < t <= rr - o /\ t <= n /\ (t = n \/ t = rr - o))
      by (unfold t; lia).
    clearbody t.
    rewrite (u8_below_256 t) by lia.
    rewrite (u8_below_256 (o + t)) by lia.
    rewrite (u64_small (n - t)) by lia.
    destruct (Z.eqb_spec (n - t) 0) as [Ez | Ez].
    + assert (t = n) by lia. subst t.
      cbn [set_offset state msg_len digestsize offset r padding
           squeeze_more].
      exists Af, (o + n), (extract_loop Af o n).
      split; [| split; [lia | reflexivity]].
      rewrite <- (Z2Nat.id n) at 2 3 by lia.
      apply squeeze_bytes_inblock; lia.
    + assert (Et : t = rr - o) by lia.
      assert (Eo : (o + t) mod rr = 0).
      { rewrite Et. replace (o + (rr - o)) with rr by lia.
        apply Z.mod_same. lia. }
      rewrite Eo.
      unfold set_state, set_offset.
      cbn [state msg_len digestsize offset r padding squeeze_more].
      set (c1 := mk_state (keccakf1600 Af) _ _ _ _ _ _).
      destruct (squeeze_tail_bytes c1 (extract_loop Af o t) (n - t))
        as (o' & Hb & Hpos & Htail); [exact Hr | reflexivity | lia |].
      change (r c1) with rr in Hb, Hpos, Htail.
      change (state c1) with (keccakf1600 Af) in Hb, Htail.
      rewrite Htail in Hb |- *. cbn [fst snd c1 r state set_state set_offset
        msg_len digestsize offset padding squeeze_more] in Hb |- *.
      rewrite drop_app_length in Hb.
      eexists _, o', _. split; [| split; [exact Hpos | reflexivity]].
      replace (Z.to_nat n) with (Z.to_nat t + Z.to_nat (n - t))%nat by lia.
      rewrite squeeze_bytes_app.
      rewrite squeeze_bytes_inblock by lia.
      rewrite Z2Nat.id by lia.
      replace (o + t) with rr by lia.
      rewrite squeeze_bytes_boundary by lia.
      rewrite Hb. reflexivity.
Qed.

(** The requested length does not move the position. *)
Lemma squeeze_lanes_digestsize n ctx :
  squeeze_lanes (set_digestsize n ctx) = squeeze_lanes ctx.
Proof. destruct ctx as [A m d o rr p [|]]; reflexivity. Qed.

Lemma squeeze_position_digestsize n ctx :
  squeeze_position (set_digestsize n ctx) = squeeze_position ctx.
Proof. reflexivity. Qed.

(** X2.  Squeezing in pieces.  For any bulk squeeze function that reads
    block after block, a squeeze of [n1] bytes followed by a squeeze of
    [n2] bytes delivers the bytes of one squeeze of [n1 + n2] bytes and
    leaves the same context, from the absorbing phase as from any point
    of the squeezing phase, provided both requests are for at least one
    byte. *)
Theorem squeeze_in_pieces ctx n1 n2 :
  0 < r ctx < 256 -> 0 <= offset ctx < r ctx ->
  0 < n1 -> 0 < n2 -> n1 + n2 < 2 ^ 64 ->
  let '(c1, out1) := squeeze_internal (set_digestsize n1 ctx) true in
  let '(c2, out2) := squeeze_internal (set_digestsize n2 c1) true in
  squeeze_internal (set_digestsize (n1 + n2) ctx) true =
    (set_digestsize (n1 + n2) c2, out1 ++ out2).
Proof.
  intros Hr Ho H1 H2 H12.
  destruct (squeeze_internal_bytes (set_digestsize n1 ctx))
    as (A1 & o1 & out1 & Hb1 & Hp1 & Hs1); [exact Hr | exact Ho | cbn; lia |].
  rewrite Hs1. clear Hs1.
  cbn [r msg_len digestsize padding set_digestsize] in *.
  set (c1 := mk_state A1 _ _ _ _ _ _).
  destruct (squeeze_internal_bytes (set_digestsize n2 c1))
    as (A2 & o2 & out2 & Hb2 & Hp2 & Hs2);
    [exact Hr | cbn; apply Z.mod_pos_bound; lia | cbn; lia |].
  rewrite Hs2. clear Hs2.
  cbn [r msg_len digestsize padding set_digestsize c1 state offset
       squeeze_more] in *.
  destruct (squeeze_internal_bytes (set_digestsize (n1 + n2) ctx))
    as (A & o & out & Hb & Hp & Hs); [exact Hr | exact Ho | cbn; lia |].
  rewrite Hs. clear Hs.
  cbn [r msg_len digestsize padding set_digestsize state offset
       squeeze_more] in *.
  assert (Hpos : squeeze_position (set_digestsize n2 c1) = o1).
  { unfold squeeze_position. cbn [offset squeeze_more r set_digestsize c1].
    destruct (Z.eq_dec o1 (r ctx)) as [-> | Hne].
    - rewrite Z.mod_same by lia. reflexivity.
    - rewrite Z.mod_small by lia.
      destruct (Z.eqb_spec o1 0); [lia | reflexivity]. }
  rewrite Hpos in Hb2.
  change (squeeze_lanes (set_digestsize n2 c1)) with A1 in Hb2.
  rewrite squeeze_lanes_digestsize, squeeze_position_digestsize in Hb1, Hb.
  rewrite Z2Nat.inj_add, squeeze_bytes_app, Hb1, Hb2 in Hb by lia.
  injection Hb as <- <- <-. reflexivity.
Qed.

End Squeezing.

(** *** The block functions of the Keccak module meet the two contracts *)

Lemma absorb_blocks_fuel r f1 : forall f2 A inp,
  0 < r -> (length inp < f1)%nat -> (length inp < f2)%nat ->
  Keccak.absorb_blocks f1 A inp r = Keccak.absorb_blocks f2 A inp r.
Proof.
  induction f1 as [| f1 IH]; intros f2 A inp Hr H1 H2; [lia |].
  destruct f2 as [| f2]; [lia |]. cbn [Keccak.absorb_blocks].
  destruct (Z.ltb_spec (len inp) r); [reflexivity |].
  apply IH; [exact Hr | |]; unfold zdrop, len in *;
    rewrite length_drop; lia.
Qed.

Lemma keccak_absorb_short A inp r :
  len inp < r -> Keccak.lc_keccak_absorb A inp r = (A, len inp).
Proof.
  intros H. unfold Keccak.lc_keccak_absorb. cbn [Keccak.absorb_blocks].
  destruct (Z.ltb_spec (len inp) r); [reflexivity | lia].
Qed.

Lemma keccak_absorb_block A inp r :
  0 < r <= len inp ->
  Keccak.lc_keccak_absorb A inp r =
    Keccak.lc_keccak_absorb
      (Keccak.keccakf1600 (sha3_fill_state_bytes A inp 0 r)) (zdrop r inp) r.
Proof.
  intros H. unfold Keccak.lc_keccak_absorb.
  change (Keccak.absorb_blocks (S (length inp)) A inp r)
    with (if len inp <? r then (A, len inp)
          else Keccak.absorb_blocks (length inp)
                 (Keccak.keccakf1600 (sha3_fill_state_bytes A inp 0 r))
                 (zdrop r inp) r).
  destruct (Z.ltb_spec (len inp) r); [lia |].
  apply absorb_blocks_fuel; [lia | |]; unfold zdrop, len in *;
    rewrite length_drop; lia.
Qed.

Lemma squeeze_blocks_fuel r f1 : forall f2 A n,
  0 < r -> (Z.to_nat n < f1)%nat -> (Z.to_nat n < f2)%nat ->
  Keccak.squeeze_blocks f1 A n r = Keccak.squeeze_blocks f2 A n r.
Proof.
  induction f1 as [| f1 IH]; intros f2 A n Hr H1 H2; [lia |].
  destruct f2 as [| f2]; [lia |]. cbn [Keccak.squeeze_blocks].
  destruct (Z.leb_spec n r); [reflexivity |].
  rewrite (IH f2) by lia. reflexivity.
Qed.

Lemma keccak_squeeze_short A n r :
  n <= r -> Keccak.lc_keccak_squeeze A n r = (A, extract_loop A 0 n).
Proof.
  intros H. unfold Keccak.lc_keccak_squeeze. cbn [Keccak.squeeze_blocks].
  destruct (Z.leb_spec n r); [reflexivity | lia].
Qed.

Lemma keccak_squeeze_block A n r :
  0 < r < n ->
  Keccak.lc_keccak_squeeze A n r =
    (fst (Keccak.lc_keccak_squeeze (Keccak.keccakf1600 A) (n - r) r),
     extract_loop A 0 r ++
     snd (Keccak.lc_keccak_squeeze (Keccak.keccakf1600 A) (n - r) r)).
Proof.
  intros H. unfold Keccak.lc_keccak_squeeze.
  change (Keccak.squeeze_blocks (S (Z.to_nat n)) A n r)
    with (if n <=? r then (A, extract_loop A 0 n)
          else let '(A', out) :=
                 Keccak.squeeze_blocks (Z.to_nat n) (Keccak.keccakf1600 A)
                   (n - r) r in
               (A', extract_loop A 0 r ++ out)).
  destruct (Z.leb_spec n r); [lia |].
  rewrite (squeeze_blocks_fuel r (Z.to_nat n) (S (Z.to_nat (n - r))))
    by lia.
  destruct (Keccak.squeeze_blocks _ _ _ _) as [A' out]. reflexivity.
Qed.

(** Witness of [absorb_in_pieces]: 200 bytes and then 3 bytes into
    SHA3-256, the first piece ending inside the second block. *)
Lemma absorb_in_pieces_witness :
  Keccak.absorb_arm
    (Keccak.absorb_arm (Some SpongeSpec.sha3_256_ctx) (repeat 1 200))
    [2; 3; 4] =
  Keccak.absorb_arm (Some SpongeSpec.sha3_256_ctx)
    (repeat 1 200 ++ [2; 3; 4]).
Proof.
  apply (absorb_in_pieces Keccak.lc_keccak_absorb Keccak.keccakf1600
           keccak_absorb_short keccak_absorb_block
           SpongeSpec.sha3_256_ctx (repeat 1 200) [2; 3; 4]).
  - change (0 < 136). lia.
  - change (0 <= 0). lia.
  - change (0 + 200 + 3 < 2 ^ 64). lia.
Defined.

(** Witness of [squeeze_in_pieces]: 170 and 40 bytes of SHAKE128 over
    the empty message, the first piece ending inside the second block. *)
Lemma squeeze_in_pieces_witness :
  let ctx := SpongeSpec.shake128_ctx 0 in
  let '(c1, out1) := Keccak.squeeze_arm (set_digestsize 170 ctx) true in
  let '(c2, out2) := Keccak.squeeze_arm (set_digestsize 40 c1) true in
  Keccak.squeeze_arm (set_digestsize (170 + 40) ctx) true =
    (set_digestsize (170 + 40) c2, out1 ++ out2).
Proof.
  apply (squeeze_in_pieces Keccak.lc_keccak_squeeze Keccak.keccakf1600
           keccak_squeeze_short keccak_squeeze_block
           (SpongeSpec.shake128_ctx 0) 170 40).
  - change (0 < 168 < 256). lia.
  - change (0 <= 0 < 168). lia.
  - lia.
  - lia.
  - lia.
Defined.

End SpongeProps.

(** ** Byte access to the Keccak state *)

Module KeccakGlueProps.

Import KeccakGlue.
Import HashCrypt HashCryptSpec.

(** Every byte of the buffer is a byte. *)
Definition bytes (l : list Z) : Prop := Forall (fun b => 0 <= b < 256) l.

Lemma bytes_nth (l : list Z) i : bytes l -> 0 <= nth i l 0 < 256.
Proof.
  intros H. revert i. induction H as [| b l Hb Hl IH]; intros [| i]; cbn;
    try lia. apply IH.
Qed.

(** A byte of a little-endian word of four bytes. *)
Lemma word_byte b0 b1 b2 b3 (j : Z) :
  0 <= b0 < 256 -> 0 <= b1 < 256 -> 0 <= b2 < 256 -> 0 <= b3 < 256 ->
  0 <= j < 4 ->
  u8 (Z.shiftr (b0 + Z.shiftl b1 8 + Z.shiftl b2 16 + Z.shiftl b3 24)
        (Z.shiftl j 3)) =
  nth (Z.to_nat j) [b0; b1; b2; b3] 0.
Proof.
  intros H0 H1 H2 H3 Hj. unfold u8.
  rewrite !Z.shiftl_mul_pow2 by lia.
  change (2 ^ 8) with 256. change (2 ^ 16) with 65536.
  change (2 ^ 24) with 16777216. change (2 ^ 3) with 8.
  assert (Hc : j = 0 \/ j = 1 \/ j = 2 \/ j = 3) by lia.
  destruct Hc as [-> | [-> | [-> | ->]]];
    rewrite Z.shiftr_div_pow2 by lia.
  - change (2 ^ (0 * 8)) with 1. change (Z.to_nat 0) with 0%nat.
    cbn [nth]. Z.div_mod_to_equations. lia.
  - change (2 ^ (1 * 8)) with 256. change (Z.to_nat 1) with 1%nat.
    cbn [nth]. Z.div_mod_to_equations. lia.
  - change (2 ^ (2 * 8)) with 65536. change (Z.to_nat 2) with 2%nat.
    cbn [nth]. Z.div_mod_to_equations. lia.
  - change (2 ^ (3 * 8)) with 16777216. change (Z.to_nat 3) with 3%nat.
    cbn [nth]. Z.div_mod_to_equations. lia.
Qed.

Lemma nth_load (m : list Z) p n k :
  (k < n)%nat -> (p + n <= length m)%nat ->
  nth k (load m p n) 0 = nth (p + k) m 0.
Proof.
  intros Hk Hn. unfold load.
  rewrite !nth_lookup, lookup_take, lookup_drop.
  rewrite decide_True by exact Hk. reflexivity.
Qed.

(** Reading through 32 bit lanes and shifts gives the bytes of the range. *)
Lemma extract_bytes_load (state : list Z) (offset length : nat) :
  bytes state -> (offset + length <= List.length state)%nat ->
  keccakf1600_extract_bytes state (Z.of_nat offset) (Z.of_nat length) =
  load state offset length.
Proof.
  intros Hb Hl. unfold keccakf1600_extract_bytes. rewrite Nat2Z.id.
  match goal with |- map ?g _ = _ => set (f := g) end.
  apply (nth_ext _ _ (f 0%nat) 0).
  { rewrite length_map, length_seq, length_load by exact Hl. reflexivity. }
  intros k Hk. rewrite length_map, length_seq in Hk.
  rewrite map_nth, seq_nth by exact Hk. cbn [Nat.add]. unfold f. cbv zeta.
  rewrite nth_load by (exact Hk || exact Hl).
  set (i := Z.of_nat offset + Z.of_nat k).
  assert (Hi : 0 <= i) by (unfold i; lia).
  pose proof (Z.mod_pos_bound i 4 ltac:(lia)) as Hm.
  pose proof (Z.div_mod i 4 ltac:(lia)) as Hd.
  unfold lane32. cbv zeta.
  rewrite word_byte by (apply bytes_nth; exact Hb) || exact Hm.
  assert (Hc : i mod 4 = 0 \/ i mod 4 = 1 \/ i mod 4 = 2 \/ i mod 4 = 3)
    by lia.
  destruct Hc as [E | [E | [E | E]]]; rewrite E; cbn [Z.to_nat nth];
    f_equal; unfold i in *; lia.
Qed.

(** X21.  keccakf1600_extract_bytes, which reads 32 bit lanes and
    shifts, returns the bytes of the state in memory order, whatever
    the alignment of the range; so a range read in two consecutive
    calls is the range read in one call. *)
Theorem extract_bytes_memory_order (state : list Z) (offset n1 n2 : nat) :
  bytes state -> (offset + (n1 + n2) <= List.length state)%nat ->
  keccakf1600_extract_bytes state (Z.of_nat offset) (Z.of_nat (n1 + n2)) =
    load state offset (n1 + n2) /\
  keccakf1600_extract_bytes state (Z.of_nat offset) (Z.of_nat (n1 + n2)) =
    keccakf1600_extract_bytes state (Z.of_nat offset) (Z.of_nat n1) ++
    keccakf1600_extract_bytes state (Z.of_nat (offset + n1)) (Z.of_nat n2).
Proof.
  intros Hb Hl. rewrite !extract_bytes_load by (assumption || lia).
  split; [reflexivity | apply load_split].
Qed.

Lemma alter_store_at (f : Z -> Z) (st : list Z) p x :
  st !! p = Some x -> alter f p st = store_at st p [f x].
Proof.
  intros H. unfold store_at.
  rewrite <- (take_drop_middle st p x H) at 1.
  pose proof (lookup_lt_Some _ _ _ H) as Hp.
  rewrite alter_app_r_alt by (rewrite length_take; lia).
  rewrite length_take, Nat.min_l, Nat.sub_diag by lia.
  cbn [length]. rewrite Nat.add_1_r. reflexivity.
Qed.

Lemma load_one (st : list Z) p x : st !! p = Some x -> load st p 1 = [x].
Proof.
  intros H. unfold load. rewrite (drop_S st x p H). reflexivity.
Qed.

(** The XOR loop from index [i] on, as one store. *)
Lemma add_bytes_loop_store (data : list Z) : forall st offset i,
  0 <= offset -> 0 <= i ->
  offset + i + len data < 2 ^ 32 ->
  (Z.to_nat (offset + i) + length data <= length st)%nat ->
  add_bytes_loop st data offset i =
  store_at st (Z.to_nat (offset + i))
    (xor_bytes (load st (Z.to_nat (offset + i)) (length data)) data).
Proof.
  induction data as [| b rest IH]; intros st offset i Ho Hi H32 Hl.
  - cbn [add_bytes_loop length]. unfold load, xor_bytes. cbn.
    rewrite store_at_nil. reflexivity.
  - cbn [add_bytes_loop]. cbn [length] in Hl.
    assert (Hlen : len (b :: rest) = 1 + len rest)
      by (unfold len; cbn [length]; lia).
    rewrite Hlen in H32. pose proof (Nat2Z.is_nonneg (length rest)).
    unfold len in H32.
    assert (Hu : u32 (offset + i) = offset + i)
      by (unfold u32; apply Z.mod_small; lia).
    rewrite Hu. set (p := Z.to_nat (offset + i)) in *.
    destruct (lookup_lt_is_Some_2 st p ltac:(lia)) as [x Hx].
    unfold keccakf1600_add_byte. fold p.
    rewrite (alter_store_at _ st p x Hx).
    set (st1 := store_at st p [Z.lxor x b]).
    assert (Hl1 : length st1 = length st)
      by (unfold st1; apply length_store_at; cbn; lia).
    rewrite IH by (unfold len; rewrite ?Hl1; lia).
    replace (Z.to_nat (offset + (i + 1))) with (p + 1)%nat by lia.
    assert (Hfr : load st1 (p + 1) (length rest) =
                  load st (p + 1) (length rest)).
    { unfold st1. apply load_store_at_after; cbn; lia. }
    rewrite Hfr. unfold st1.
    change (p + 1)%nat with (p + length [Z.lxor x b])%nat at 1.
    rewrite store_at_app by (cbn [length]; rewrite length_xor_bytes;
      rewrite length_load; lia).
    f_equal. cbn [length].
    change (S (length rest)) with (1 + length rest)%nat.
    rewrite load_split, (load_one st p x Hx). reflexivity.
Qed.

Lemma add_bytes_store (st data : list Z) (offset length : nat) :
  (offset + length <= List.length st)%nat ->
  (length <= List.length data)%nat ->
  Z.of_nat (offset + length) < 2 ^ 32 ->
  keccakf1600_add_bytes st data (Z.of_nat offset) (Z.of_nat length) =
  store_at st offset (xor_bytes (load st offset length) (take length data)).
Proof.
  intros Hl Hd H32. unfold keccakf1600_add_bytes, ztake.
  rewrite Nat2Z.id.
  assert (Ht : List.length (take length data) = length)
    by (rewrite length_take; lia).
  rewrite add_bytes_loop_store; rewrite ?Z.add_0_r, ?Nat2Z.id, ?Ht;
    unfold len; rewrite ?Ht; try lia.
  reflexivity.
Qed.

Lemma store_at_load (st : list Z) p n :
  (p + n <= length st)%nat -> store_at st p (load st p n) = st.
Proof.
  intros H. unfold store_at. rewrite length_load by exact H.
  unfold load. rewrite <- drop_drop.
  rewrite (take_drop n (drop p st)). apply take_drop.
Qed.

Lemma lxor_byte a b : 0 <= a < 256 -> 0 <= b < 256 -> 0 <= Z.lxor a b < 256.
Proof.
  intros Ha Hb. split; [apply Z.lxor_nonneg; lia |].
  destruct (Z.eq_dec (Z.lxor a b) 0) as [-> | Hne]; [lia |].
  assert (Hp : 0 < Z.lxor a b)
    by (pose proof (proj2 (Z.lxor_nonneg a b)); lia).
  apply (Z.log2_lt_pow2 _ 8 Hp).
  pose proof (Z.log2_lxor a b ltac:(lia) ltac:(lia)) as Hx.
  assert (Hla : Z.log2 a < 8).
  { destruct (Z.eq_dec a 0) as [-> | ?]; [cbn; lia |].
    apply Z.log2_lt_pow2; lia. }
  assert (Hlb : Z.log2 b < 8).
  { destruct (Z.eq_dec b 0) as [-> | ?]; [cbn; lia |].
    apply Z.log2_lt_pow2; lia. }
  lia.
Qed.

Lemma bytes_xor (a : list Z) : forall b,
  bytes a -> bytes b -> bytes (xor_bytes a b).
Proof.
  unfold bytes, xor_bytes.
  induction a as [| x a IH]; intros [| y b] Ha Hb; cbn; try constructor.
  - apply lxor_byte; [inversion Ha | inversion Hb]; assumption.
  - apply IH; [inversion Ha | inversion Hb]; assumption.
Qed.

Lemma bytes_take n (l : list Z) : bytes l -> bytes (take n l).
Proof. apply Forall_take. Qed.

Lemma bytes_drop n (l : list Z) : bytes l -> bytes (drop n l).
Proof. apply Forall_drop. Qed.

Lemma bytes_store_at (st : list Z) p b :
  bytes st -> bytes b -> bytes (store_at st p b).
Proof.
  intros Hs Hb. unfold store_at, bytes.
  rewrite !Forall_app. repeat split;
    [apply Forall_take | | apply Forall_drop]; assumption.
Qed.

(** X22.  XOR-in and read back.  After keccakf1600_add_bytes has XORed
    [length] bytes of [data] into the state at [offset],
    keccakf1600_extract_bytes over the same range returns the former
    bytes of the range XORed with the data, so on a zero state the data
    itself; the bytes outside the range are untouched; and adding the
    same data a second time restores the state. *)
Theorem add_bytes_extract (st data : list Z) (offset length : nat) :
  bytes st -> bytes data ->
  (offset + length <= List.length st)%nat ->
  (length <= List.length data)%nat ->
  Z.of_nat (offset + length) < 2 ^ 32 ->
  let off := Z.of_nat offset in
  let n := Z.of_nat length in
  let st' := keccakf1600_add_bytes st data off n in
  keccakf1600_extract_bytes st' off n =
    xor_bytes (load st offset length) (take length data) /\
  take offset st' = take offset st /\
  drop (offset + length) st' = drop (offset + length) st /\
  keccakf1600_add_bytes st' data off n = st.
Proof.
  intros Hs Hd Hl Hld H32 off n st'. subst off n st'.
  rewrite add_bytes_store by assumption.
  set (x := xor_bytes (load st offset length) (take length data)).
  assert (Hx : List.length x = length).
  { unfold x. rewrite length_xor_bytes; rewrite length_load by lia;
      [reflexivity | rewrite length_take; lia]. }
  assert (Hl' : List.length (store_at st offset x) = List.length st)
    by (apply length_store_at; lia).
  assert (Hload : load (store_at st offset x) offset length = x).
  { pose proof (load_store_at_same st offset x) as H.
    rewrite Hx in H. apply H. lia. }
  split; [| split; [| split]].
  - rewrite extract_bytes_load; [exact Hload | | lia].
    apply bytes_store_at; [exact Hs |].
    apply bytes_xor; [apply bytes_take, bytes_drop | apply bytes_take];
      assumption.
  - unfold store_at. rewrite take_app_le by (rewrite length_take; lia).
    rewrite take_take. f_equal. lia.
  - unfold store_at. rewrite app_assoc.
    rewrite drop_app_ge by (rewrite length_app, length_take; lia).
    rewrite length_app, length_take, Hx, drop_drop. f_equal. lia.
  - rewrite add_bytes_store by (rewrite ?Hl'; assumption).
    rewrite Hload.
    assert (Hinv : xor_bytes x (take length data) = load st offset length).
    { unfold x. apply xor_bytes_involutive.
      rewrite length_load, length_take by lia. lia. }
    rewrite Hinv.
    assert (Hll : List.length (load st offset length) = length)
      by (apply length_load; lia).
    rewrite store_at_overwrite by lia.
    apply store_at_load. exact Hl.
Qed.

(** X23.  Set and read back.  After keccak_riscv_newstate has copied
    [length] bytes of [data] into the state at [offset],
    keccakf1600_extract_bytes over the same range returns these bytes,
    and the state has kept its size. *)
Theorem newstate_extract (st data : list Z) (offset length : nat) :
  bytes st -> bytes data ->
  (offset + length <= List.length st)%nat ->
  (length <= List.length data)%nat ->
  let st' := keccak_riscv_newstate st data (Z.of_nat offset)
               (Z.of_nat length) in
  keccak_riscv_extract_bytes st' (Z.of_nat offset) (Z.of_nat length) =
    take length data /\
  List.length st' = List.length st.
Proof.
  intros Hs Hd Hl Hld st'. subst st'.
  unfold keccak_riscv_newstate, keccak_riscv_extract_bytes, ztake, zdrop.
  rewrite <- Nat2Z.inj_add, !Nat2Z.id.
  assert (Ht : List.length (take length data) = length)
    by (rewrite length_take; lia).
  assert (Hst : take offset st ++ take length data ++
                  drop (offset + length) st =
                store_at st offset (take length data))
    by (unfold store_at; rewrite Ht; reflexivity).
  rewrite Hst.
  split.
  - rewrite extract_bytes_load.
    + pose proof (load_store_at_same st offset (take length data)) as H.
      rewrite Ht in H. apply H. lia.
    + apply bytes_store_at; [| apply bytes_take]; assumption.
    + rewrite length_store_at; lia.
  - apply length_store_at. lia.
Qed.

(** A state of 200 bytes and eight bytes of data. *)
Definition zero_bytes : list Z := repeat 0 200.
Definition some_data : list Z := [1; 2; 3; 4; 5; 6; 7; 8].

Lemma zero_bytes_bytes : bytes zero_bytes.
Proof.
  unfold bytes, zero_bytes. generalize 200%nat. intros n.
  induction n as [| n IH]; cbn; constructor; [lia | exact IH].
Qed.

Lemma some_data_bytes : bytes some_data.
Proof. unfold bytes, some_data. repeat constructor; lia. Qed.

(** Witness of [extract_bytes_memory_order]: five bytes from byte 3 on,
    across a lane boundary, in one call and as two bytes and three. *)
Lemma extract_bytes_memory_order_witness :
  let st := some_data ++ zero_bytes in
  keccakf1600_extract_bytes st (Z.of_nat 3) (Z.of_nat (2 + 3)) =
    load st 3 (2 + 3) /\
  keccakf1600_extract_bytes st (Z.of_nat 3) (Z.of_nat (2 + 3)) =
    keccakf1600_extract_bytes st (Z.of_nat 3) (Z.of_nat 2) ++
    keccakf1600_extract_bytes st (Z.of_nat (3 + 2)) (Z.of_nat 3).
Proof.
  apply (extract_bytes_memory_order (some_data ++ zero_bytes) 3 2 3).
  - apply Forall_app. split; [exact some_data_bytes | exact zero_bytes_bytes].
  - cbn. lia.
Defined.

(** Witness of [add_bytes_extract]: five bytes XORed in at byte 3. *)
Lemma add_bytes_extract_witness :
  let st' := keccakf1600_add_bytes zero_bytes some_data (Z.of_nat 3)
               (Z.of_nat 5) in
  keccakf1600_extract_bytes st' (Z.of_nat 3) (Z.of_nat 5) =
    xor_bytes (load zero_bytes 3 5) (take 5 some_data) /\
  take 3 st' = take 3 zero_bytes /\
  drop (3 + 5) st' = drop (3 + 5) zero_bytes /\
  keccakf1600_add_bytes st' some_data (Z.of_nat 3) (Z.of_nat 5) = zero_bytes.
Proof.
  apply (add_bytes_extract zero_bytes some_data 3 5).
  - exact zero_bytes_bytes.
  - exact some_data_bytes.
  - cbn. lia.
  - cbn. lia.
  - cbn. lia.
Defined.

(** Witness of [newstate_extract]: five bytes set at byte 3. *)
Lemma newstate_extract_witness :
  let st' := keccak_riscv_newstate zero_bytes some_data (Z.of_nat 3)
               (Z.of_nat 5) in
  keccak_riscv_extract_bytes st' (Z.of_nat 3) (Z.of_nat 5) =
    take 5 some_data /\
  List.length st' = List.length zero_bytes.
Proof.
  apply (newstate_extract zero_bytes some_data 3 5).
  - exact zero_bytes_bytes.
  - exact some_data_bytes.
  - cbn. lia.
  - cbn. lia.
Defined.

End KeccakGlueProps.

(** ** Fast-key-erasure DRBGs: additional input, chunking, zeroization *)

Module DrngProps.

Import Drng DrngSpec.

(** Prefixing the output and the writes of a loop result. *)
Definition prepend {S : Type} (out : list Z) (tr : list event)
    (res : Z * S * list Z * list event) : Z * S * list Z * list event :=
  let '(ret, st, o, t) := res in (ret, st, out ++ o, tr ++ t).

Lemma len_ztake_84 (alpha : list Z) :
  len (ztake 84 alpha) = Z.min (len alpha) 84.
Proof. unfold len, ztake. rewrite length_take. lia. Qed.

Lemma ztake_84_idem (alpha : list Z) :
  ztake 84 (ztake 84 alpha) = ztake 84 alpha.
Proof. unfold ztake. rewrite take_take. reflexivity. Qed.

Section KmacMore.

Import Kmac.

Variable KMACXOF256 : list Z -> list Z -> list Z -> nat -> Z.
Variable kmac_init_ret : Z.

Local Abbreviation loop := (generate_loop KMACXOF256 kmac_init_ret).
Local Abbreviation lc_kmac256_drng_generate :=
  (Kmac.lc_kmac256_drng_generate KMACXOF256 kmac_init_ret).
Local Abbreviation lc_kmac256_drng_seed_nocheck :=
  (Kmac.lc_kmac256_drng_seed_nocheck KMACXOF256 kmac_init_ret).
Local Abbreviation next_key := (kmac_next_key KMACXOF256).
Local Abbreviation next_out := (kmac_next_out KMACXOF256).

(** Output bytes of one chunk: the chunk size less the key. *)
Definition kmac_chunk : Z :=
  LC_KMAC256_DRNG_MAX_CHUNK - LC_KMAC256_DRNG_KEYSIZE.

Lemma kmac_encode_cut ctx n (alpha : list Z) :
  lc_kmac256_drng_encode ctx n alpha =
  lc_kmac256_drng_encode ctx n (ztake 84 alpha).
Proof.
  unfold lc_kmac256_drng_encode. cbv zeta.
  rewrite !clamp_84, !ztake_clamp, len_ztake_84, ztake_84_idem.
  rewrite (Z.min_l (Z.min (len alpha) 84) 84) by lia. reflexivity.
Qed.

Lemma kmac_fke_init_ctx_cut st (alpha : list Z) :
  lc_kmac256_drng_fke_init_ctx KMACXOF256 kmac_init_ret st alpha =
  lc_kmac256_drng_fke_init_ctx KMACXOF256 kmac_init_ret st (ztake 84 alpha).
Proof.
  unfold lc_kmac256_drng_fke_init_ctx.
  destruct (lc_kmac_init _ _ _) as [ret ctx].
  rewrite (kmac_encode_cut ctx 2 alpha). reflexivity.
Qed.

Lemma kmac_loop_cut (alpha : list Z) fuel : forall st outlen out tr,
  loop fuel st alpha outlen out tr =
  loop fuel st (ztake 84 alpha) outlen out tr.
Proof.
  induction fuel as [| fuel IH]; intros st outlen out tr; [reflexivity |].
  cbn [generate_loop]. rewrite <- kmac_fke_init_ctx_cut.
  destruct (outlen =? 0); [reflexivity |].
  destruct (lc_kmac256_drng_fke_init_ctx _ _ _ _) as [[[ret st'] ctx] ev].
  destruct (negb (ret =? 0)); [reflexivity |].
  destruct (lc_kmac_final_xof _ _ _) as [ctx' bytes]. apply IH.
Qed.

(** X9.  Additional input of the KMAC-DRNG beyond 84 bytes is ignored:
    generate and seed give the same return code, state, output and
    writes for [alpha] as for the 84 left-most bytes of [alpha]. *)
Theorem kmac_drng_additional_input_cut _state (seed alpha : list Z) outlen :
  lc_kmac256_drng_generate _state alpha outlen =
    lc_kmac256_drng_generate _state (ztake 84 alpha) outlen /\
  lc_kmac256_drng_seed_nocheck _state seed alpha =
    lc_kmac256_drng_seed_nocheck _state seed (ztake 84 alpha).
Proof.
  split.
  - destruct _state as [st |]; [| reflexivity].
    unfold lc_kmac256_drng_generate. rewrite kmac_loop_cut. reflexivity.
  - destruct _state as [st |]; [| reflexivity].
    unfold lc_kmac256_drng_seed_nocheck, seed_body. cbn [deref bind is_null].
    destruct (if negb (initially_seeded st =? 0) then _ else _) as [ret ctx].
    rewrite (kmac_encode_cut _ _ alpha). reflexivity.
Qed.

Lemma kmac_loop_acc (alpha : list Z) fuel : forall st outlen out tr,
  loop fuel st alpha outlen out tr =
  option_map (prepend out tr) (loop fuel st alpha outlen [] []).
Proof.
  induction fuel as [| fuel IH]; intros st outlen out tr.
  - cbn. destruct (outlen =? 0); cbn; rewrite ?app_nil_r; reflexivity.
  - cbn [generate_loop]. destruct (outlen =? 0).
    { cbn. rewrite !app_nil_r. reflexivity. }
    destruct (lc_kmac256_drng_fke_init_ctx _ _ _ _) as [[[ret st'] ctx] ev].
    destruct (negb (ret =? 0)).
    { cbn. rewrite app_nil_r. reflexivity. }
    destruct (lc_kmac_final_xof _ _ _) as [ctx' bytes].
    rewrite IH. rewrite (IH _ _ ([] ++ bytes)).
    destruct (loop fuel st' alpha _ [] []) as [[[[c s] o] t] |]; cbn;
      [| reflexivity].
    rewrite <- !app_assoc. reflexivity.
Qed.

Lemma kmac_todo_bounds outlen :
  0 < outlen ->
  0 < min_size outlen (LC_KMAC256_DRNG_MAX_CHUNK - LC_KMAC256_DRNG_KEYSIZE)
    <= outlen.
Proof.
  intros H. rewrite min_size_spec.
  unfold LC_KMAC256_DRNG_MAX_CHUNK, LC_SHA3_256_SIZE_BLOCK,
    LC_KMAC256_DRNG_KEYSIZE. lia.
Qed.

(** With the KMAC context initialising, the loop ends within [outlen]
    iterations, whatever larger budget it is given. *)
Lemma kmac_loop_fuel (alpha : list Z) :
  kmac_init_ret = 0 ->
  forall f1 f2 st outlen out tr,
    0 <= outlen -> (Z.to_nat outlen <= f1)%nat ->
    (Z.to_nat outlen <= f2)%nat ->
    loop f1 st alpha outlen out tr = loop f2 st alpha outlen out tr.
Proof.
  intros Hret.
  induction f1 as [| f1 IH]; intros f2 st outlen out tr H0 H1 H2.
  - assert (outlen = 0) by lia. subst. destruct f2; reflexivity.
  - destruct (Z.eqb_spec outlen 0) as [-> | Hne].
    { destruct f2; reflexivity. }
    destruct f2 as [| f2]; [lia |].
    cbn [generate_loop]. destruct (Z.eqb_spec outlen 0); [lia |].
    rewrite kmac_fke_init_ctx_ok by exact Hret. cbn [Z.eqb negb].
    pose proof (kmac_todo_bounds outlen ltac:(lia)) as Ht.
    destruct (lc_kmac_final_xof _ _ _) as [ctx' bytes].
    apply IH; lia.
Qed.

(** The generate loop with the iteration budget of the generate call. *)
Definition kmac_run (st : lc_kmac256_drng_state) (alpha : list Z) (n : Z) :=
  loop (Z.to_nat n) st alpha n [] [].

Lemma kmac_generate_run st alpha n :
  lc_kmac256_drng_generate (Some st) alpha n =
  option_map (fun res => (fst (fst (fst res)), Some res)) (kmac_run st alpha n).
Proof. reflexivity. Qed.

Lemma kmac_run_step st alpha n :
  kmac_init_ret = 0 -> 0 < n ->
  kmac_run st alpha n =
  option_map
    (prepend (next_out alpha st (Z.min n kmac_chunk))
       [StoreKey (next_key alpha st);
        Release (next_out alpha st (Z.min n kmac_chunk))])
    (kmac_run (kmac_put_key st (next_key alpha st)) alpha
       (n - Z.min n kmac_chunk)).
Proof.
  intros Hret Hn. unfold kmac_run.
  pose proof (kmac_todo_bounds n Hn) as Ht.
  rewrite min_size_spec in Ht. fold kmac_chunk in Ht.
  destruct (Z.to_nat n) as [| f] eqn:Ef; [lia |].
  cbn [generate_loop]. destruct (Z.eqb_spec n 0); [lia |].
  rewrite kmac_fke_init_ctx_ok by exact Hret. cbn [Z.eqb negb].
  unfold lc_kmac_final_xof. cbn [kmac_key kmac_s kmac_x kmac_squeezed].
  rewrite min_size_spec. fold kmac_chunk.
  rewrite kmac_loop_acc.
  rewrite (kmac_loop_fuel alpha Hret f (Z.to_nat (n - Z.min n kmac_chunk)))
    by lia.
  reflexivity.
Qed.

Lemma kmac_run_chunks alpha (k : nat) b :
  kmac_init_ret = 0 -> 0 <= b ->
  forall st,
  exists st1 out1 tr1 st2 out2 tr2,
    kmac_run st alpha (Z.of_nat k * kmac_chunk) = Some (0, st1, out1, tr1) /\
    kmac_run st1 alpha b = Some (0, st2, out2, tr2) /\
    kmac_run st alpha (Z.of_nat k * kmac_chunk + b) =
      Some (0, st2, out1 ++ out2, tr1 ++ tr2).
Proof.
  intros Hret Hb. induction k as [| k IH]; intros st.
  - destruct (kmac_generate_loop_ok KMACXOF256 kmac_init_ret alpha Hret
                (Z.to_nat b) st b [] [] Hb (Nat.le_refl _))
      as (st2 & tr2 & Hloop & _ & _).
    exists st, [], [], st2, (released tr2), tr2.
    split; [reflexivity |]. split; exact Hloop.
  - assert (Hc : kmac_chunk = 208) by reflexivity.
    set (n := Z.of_nat (S k) * kmac_chunk).
    assert (Hn : n = kmac_chunk + Z.of_nat k * kmac_chunk) by (unfold n; lia).
    destruct (IH (kmac_put_key st (next_key alpha st)))
      as (st1 & out1 & tr1 & st2 & out2 & tr2 & H1 & H2 & H3).
    exists st1, (next_out alpha st kmac_chunk ++ out1),
      ([StoreKey (next_key alpha st);
        Release (next_out alpha st kmac_chunk)] ++ tr1), st2, out2, tr2.
    split; [| split; [exact H2 |]].
    + rewrite kmac_run_step by (exact Hret || lia).
      rewrite (Z.min_r n kmac_chunk) by lia.
      replace (n - kmac_chunk) with (Z.of_nat k * kmac_chunk) by lia.
      rewrite H1. reflexivity.
    + rewrite kmac_run_step by (exact Hret || lia).
      rewrite (Z.min_r (n + b) kmac_chunk) by lia.
      replace (n + b - kmac_chunk) with (Z.of_nat k * kmac_chunk + b) by lia.
      rewrite H3. cbn. rewrite <- !app_assoc. reflexivity.
Qed.

(** X11.  Chunking of the KMAC-DRNG generate is transparent at chunk
    boundaries: a call for [k * 208 + b] bytes returns the output of a
    call for [k * 208] bytes followed by the output of a call for [b]
    bytes on the state the first one left, and ends in the same state. *)
Theorem kmac_generate_chunks st alpha (k : nat) b :
  kmac_init_ret = 0 -> 0 <= b ->
  exists st1 out1 tr1 st2 out2 tr2,
    lc_kmac256_drng_generate (Some st) alpha (Z.of_nat k * 208) =
      Some (0, Some (0, st1, out1, tr1)) /\
    lc_kmac256_drng_generate (Some st1) alpha b =
      Some (0, Some (0, st2, out2, tr2)) /\
    lc_kmac256_drng_generate (Some st) alpha (Z.of_nat k * 208 + b) =
      Some (0, Some (0, st2, out1 ++ out2, tr1 ++ tr2)).
Proof.
  intros Hret Hb.
  destruct (kmac_run_chunks alpha k b Hret Hb st)
    as (st1 & out1 & tr1 & st2 & out2 & tr2 & H1 & H2 & H3).
  change 208 with kmac_chunk.
  exists st1, out1, tr1, st2, out2, tr2.
  rewrite !kmac_generate_run, H1, H2, H3. auto.
Qed.

(** X13.  Zeroization makes the next seed an initial seed: after
    lc_kmac256_drng_zero the seed function keys KMAC with the empty key,
    encodes n = 0, and stores as the whole key the first 64 bytes of
    KMAC(seed || encode(personalization)): nothing of the state before
    the zeroization enters the new one. *)
Theorem kmac_zero_then_seed st (seed pers : list Z) :
  kmac_init_ret = 0 -> length (key st) = 64%nat ->
  let k0 := stream_bytes
              (KMACXOF256 [] (seed ++ encoded 0 pers) seed_string) 0 64 in
  lc_kmac256_drng_seed_nocheck (lc_kmac256_drng_zero (Some st)) seed pers =
    Done (0, Some (mk_state 1 k0), [StoreKey k0]).
Proof.
  intros Hret Hlen k0. cbn [lc_kmac256_drng_zero].
  rewrite kmac_seed_ok by (exact Hret || (left; reflexivity)).
  unfold kmac_seed_key. cbn [initially_seeded key Z.eqb]. fold k0.
  rewrite Hlen. unfold store.
  assert (Hk : length k0 = 64%nat)
    by (unfold k0, stream_bytes; rewrite length_map, length_seq; reflexivity).
  rewrite Hk. cbn [repeat drop]. rewrite app_nil_r. reflexivity.
Qed.

(** X17.  When the KMAC context fails to initialise, generate and seed
    return its error code, release no byte and leave the state as it
    was, the seeded flag included. *)
Theorem kmac_init_failure st (seed alpha : list Z) outlen :
  kmac_init_ret <> 0 -> 0 < outlen ->
  lc_kmac256_drng_generate (Some st) alpha outlen =
    Some (kmac_init_ret, Some (kmac_init_ret, st, [], [])) /\
  lc_kmac256_drng_seed_nocheck (Some st) seed alpha =
    Done (kmac_init_ret, Some st, []).
Proof.
  intros Hret Hout. split.
  - unfold lc_kmac256_drng_generate.
    rewrite kmac_generate_loop_fail by (assumption || lia). reflexivity.
  - unfold lc_kmac256_drng_seed_nocheck, seed_body, lc_kmac_init.
    cbn [deref bind is_null].
    assert (Hb : (kmac_init_ret =? 0) = false) by (apply Z.eqb_neq; exact Hret).
    destruct (negb (initially_seeded st =? 0)); rewrite Hb; reflexivity.
Qed.

End KmacMore.

Section XdrbgMore.

Import Xdrbg.

Variable LC_XDRBG_DRNG_INITIALLY_SEEDED : Z.
Variable LC_XDRBG_DRNG_KEYSIZE_MASK : Z.
Variable lc_xdrbg_keysize_xdrbg128 : Z.
Variable lc_xdrbg_keysize_xdrbg256 : Z.
Variable lc_xdrbg_keysize_xdrbg512 : Z.
Variable LC_XDRBG128_DRNG_KEYSIZE : Z.
Variable LC_XDRBG256_DRNG_KEYSIZE : Z.
Variable LC_XDRBG512_DRNG_KEYSIZE : Z.

Local Abbreviation keysize :=
  (xdrbg_keysize LC_XDRBG_DRNG_KEYSIZE_MASK lc_xdrbg_keysize_xdrbg128
     lc_xdrbg_keysize_xdrbg256 lc_xdrbg_keysize_xdrbg512
     LC_XDRBG128_DRNG_KEYSIZE LC_XDRBG256_DRNG_KEYSIZE
     LC_XDRBG512_DRNG_KEYSIZE).
Local Abbreviation fke_init_ctx :=
  (lc_xdrbg_drng_fke_init_ctx LC_XDRBG_DRNG_KEYSIZE_MASK
     lc_xdrbg_keysize_xdrbg128 lc_xdrbg_keysize_xdrbg256
     lc_xdrbg_keysize_xdrbg512 LC_XDRBG128_DRNG_KEYSIZE
     LC_XDRBG256_DRNG_KEYSIZE LC_XDRBG512_DRNG_KEYSIZE).
Local Abbreviation loop :=
  (generate_loop LC_XDRBG_DRNG_KEYSIZE_MASK
     lc_xdrbg_keysize_xdrbg128 lc_xdrbg_keysize_xdrbg256
     lc_xdrbg_keysize_xdrbg512 LC_XDRBG128_DRNG_KEYSIZE
     LC_XDRBG256_DRNG_KEYSIZE LC_XDRBG512_DRNG_KEYSIZE).
Local Abbreviation lc_xdrbg_drng_generate :=
  (Xdrbg.lc_xdrbg_drng_generate LC_XDRBG_DRNG_KEYSIZE_MASK
     lc_xdrbg_keysize_xdrbg128 lc_xdrbg_keysize_xdrbg256
     lc_xdrbg_keysize_xdrbg512 LC_XDRBG128_DRNG_KEYSIZE
     LC_XDRBG256_DRNG_KEYSIZE LC_XDRBG512_DRNG_KEYSIZE).
Local Abbreviation lc_xdrbg_drng_seed_nocheck :=
  (Xdrbg.lc_xdrbg_drng_seed_nocheck LC_XDRBG_DRNG_INITIALLY_SEEDED
     LC_XDRBG_DRNG_KEYSIZE_MASK
     lc_xdrbg_keysize_xdrbg128 lc_xdrbg_keysize_xdrbg256
     lc_xdrbg_keysize_xdrbg512 LC_XDRBG128_DRNG_KEYSIZE
     LC_XDRBG256_DRNG_KEYSIZE LC_XDRBG512_DRNG_KEYSIZE).
Local Abbreviation lc_xdrbg_drng_zero :=
  (Xdrbg.lc_xdrbg_drng_zero LC_XDRBG_DRNG_INITIALLY_SEEDED
     LC_XDRBG_DRNG_KEYSIZE_MASK
     lc_xdrbg_keysize_xdrbg128 lc_xdrbg_keysize_xdrbg256
     lc_xdrbg_keysize_xdrbg512 LC_XDRBG128_DRNG_KEYSIZE
     LC_XDRBG256_DRNG_KEYSIZE LC_XDRBG512_DRNG_KEYSIZE).
Local Abbreviation next_key :=
  (xdrbg_next_key LC_XDRBG_DRNG_KEYSIZE_MASK lc_xdrbg_keysize_xdrbg128
     lc_xdrbg_keysize_xdrbg256 lc_xdrbg_keysize_xdrbg512
     LC_XDRBG128_DRNG_KEYSIZE LC_XDRBG256_DRNG_KEYSIZE
     LC_XDRBG512_DRNG_KEYSIZE).
Local Abbreviation next_out :=
  (xdrbg_next_out LC_XDRBG_DRNG_KEYSIZE_MASK lc_xdrbg_keysize_xdrbg128
     lc_xdrbg_keysize_xdrbg256 lc_xdrbg_keysize_xdrbg512
     LC_XDRBG128_DRNG_KEYSIZE LC_XDRBG256_DRNG_KEYSIZE
     LC_XDRBG512_DRNG_KEYSIZE).

Lemma xdrbg_encode_cut ctx n (alpha : list Z) :
  lc_xdrbg_drng_encode ctx n alpha =
  lc_xdrbg_drng_encode ctx n (ztake 84 alpha).
Proof.
  unfold lc_xdrbg_drng_encode. cbv zeta.
  rewrite !clamp_84, !ztake_clamp, len_ztake_84, ztake_84_idem.
  rewrite (Z.min_l (Z.min (len alpha) 84) 84) by lia. reflexivity.
Qed.

Lemma xdrbg_fke_init_ctx_cut st (alpha : list Z) :
  fke_init_ctx st alpha = fke_init_ctx st (ztake 84 alpha).
Proof.
  unfold lc_xdrbg_drng_fke_init_ctx.
  destruct (lc_hash_init _) as [ret ctx].
  rewrite (xdrbg_encode_cut _ _ alpha). reflexivity.
Qed.

Lemma xdrbg_loop_cut (alpha : list Z) fuel : forall st outlen out tr,
  loop fuel st alpha outlen out tr =
  loop fuel st (ztake 84 alpha) outlen out tr.
Proof.
  induction fuel as [| fuel IH]; intros st outlen out tr; [reflexivity |].
  cbn [generate_loop]. rewrite <- xdrbg_fke_init_ctx_cut.
  destruct (outlen =? 0); [reflexivity |].
  destruct (fke_init_ctx _ _) as [[[ret st'] ctx] ev].
  destruct (negb (ret =? 0)); [reflexivity |].
  destruct (lc_xdrbg_xof_final _ _ _) as [ctx' bytes]. apply IH.
Qed.

(** X10.  Alpha of the XDRBG beyond 84 bytes is ignored: generate and
    seed give the same return code, state, output and writes for [alpha]
    as for the 84 left-most bytes of [alpha]. *)
Theorem xdrbg_alpha_cut _state (seed alpha : list Z) outlen :
  lc_xdrbg_drng_generate _state alpha outlen =
    lc_xdrbg_drng_generate _state (ztake 84 alpha) outlen /\
  lc_xdrbg_drng_seed_nocheck _state seed alpha =
    lc_xdrbg_drng_seed_nocheck _state seed (ztake 84 alpha).
Proof.
  split.
  - destruct _state as [st |]; [| reflexivity].
    unfold lc_xdrbg_drng_generate. rewrite xdrbg_loop_cut. reflexivity.
  - destruct _state as [st |]; [| reflexivity].
    unfold lc_xdrbg_drng_seed_nocheck, seed_body. cbn [deref bind].
    destruct (lc_hash_init _) as [ret ctx].
    destruct (negb (ret =? 0)); [reflexivity |].
    destruct (if negb (_ =? 0) then _ else _) as [ctx' st'].
    rewrite (xdrbg_encode_cut _ _ alpha). reflexivity.
Qed.

Lemma xdrbg_loop_acc (alpha : list Z) fuel : forall st outlen out tr,
  loop fuel st alpha outlen out tr =
  option_map (prepend out tr) (loop fuel st alpha outlen [] []).
Proof.
  induction fuel as [| fuel IH]; intros st outlen out tr.
  - cbn. destruct (outlen =? 0); cbn; rewrite ?app_nil_r; reflexivity.
  - cbn [generate_loop]. destruct (outlen =? 0).
    { cbn. rewrite !app_nil_r. reflexivity. }
    destruct (fke_init_ctx _ _) as [[[ret st'] ctx] ev].
    destruct (negb (ret =? 0)).
    { cbn. rewrite app_nil_r. reflexivity. }
    destruct (lc_xdrbg_xof_final _ _ _) as [ctx' bytes].
    rewrite IH. rewrite (IH _ _ ([] ++ bytes)).
    destruct (loop fuel st' alpha _ [] []) as [[[[c s] o] t] |]; cbn;
      [| reflexivity].
    rewrite <- !app_assoc. reflexivity.
Qed.

Lemma xdrbg_loop_fuel (alpha : list Z) :
  forall f1 f2 st outlen out tr,
    hash_init_ret (xof st) = 0 -> 0 < chunksize st ->
    0 <= outlen -> (Z.to_nat outlen <= f1)%nat ->
    (Z.to_nat outlen <= f2)%nat ->
    loop f1 st alpha outlen out tr = loop f2 st alpha outlen out tr.
Proof.
  induction f1 as [| f1 IH]; intros f2 st outlen out tr Hret Hc H0 H1 H2.
  - assert (outlen = 0) by lia. subst. destruct f2; reflexivity.
  - destruct (Z.eqb_spec outlen 0) as [-> | Hne].
    { destruct f2; reflexivity. }
    destruct f2 as [| f2]; [lia |].
    cbn [generate_loop]. destruct (Z.eqb_spec outlen 0); [lia |].
    rewrite xdrbg_fke_init_ctx_ok by exact Hret. cbn [Z.eqb negb].
    pose proof (min_size_spec outlen (chunksize st)) as Ht.
    destruct (lc_xdrbg_xof_final _ _ _) as [ctx' bytes].
    apply IH; cbn [xof chunksize set_v]; lia.
Qed.

Definition xdrbg_run (st : lc_xdrbg_drng_state) (alpha : list Z) (n : Z) :=
  loop (Z.to_nat n) st alpha n [] [].

Lemma xdrbg_generate_run st alpha n :
  lc_xdrbg_drng_generate (Some st) alpha n =
  option_map (fun res => (fst (fst (fst res)), Some res))
    (xdrbg_run st alpha n).
Proof. reflexivity. Qed.

Lemma xdrbg_run_step st alpha n :
  hash_init_ret (xof st) = 0 -> 0 < chunksize st -> 0 < n ->
  xdrbg_run st alpha n =
  option_map
    (prepend (next_out alpha st (Z.min n (chunksize st)))
       [StoreKey (next_key alpha st);
        Release (next_out alpha st (Z.min n (chunksize st)))])
    (xdrbg_run (set_v st (next_key alpha st)) alpha
       (n - Z.min n (chunksize st))).
Proof.
  intros Hret Hc Hn. unfold xdrbg_run.
  destruct (Z.to_nat n) as [| f] eqn:Ef; [lia |].
  cbn [generate_loop]. destruct (Z.eqb_spec n 0); [lia |].
  rewrite xdrbg_fke_init_ctx_ok by exact Hret. cbn [Z.eqb negb].
  unfold lc_xdrbg_xof_final. cbn [hash_msg hash_squeezed xof set_v chunksize].
  rewrite min_size_spec.
  rewrite xdrbg_loop_acc.
  rewrite (xdrbg_loop_fuel alpha f
             (Z.to_nat (n - Z.min n (chunksize st))))
    by (cbn [xof chunksize set_v]; (assumption || lia)).
  reflexivity.
Qed.

Lemma xdrbg_run_chunks alpha (k : nat) b :
  0 <= b ->
  forall st,
  hash_init_ret (xof st) = 0 -> 0 < chunksize st ->
  exists st1 out1 tr1 st2 out2 tr2,
    xdrbg_run st alpha (Z.of_nat k * chunksize st) =
      Some (0, st1, out1, tr1) /\
    xdrbg_run st1 alpha b = Some (0, st2, out2, tr2) /\
    xdrbg_run st alpha (Z.of_nat k * chunksize st + b) =
      Some (0, st2, out1 ++ out2, tr1 ++ tr2).
Proof.
  intros Hb. induction k as [| k IH]; intros st Hret Hc.
  - destruct (xdrbg_generate_loop_ok LC_XDRBG_DRNG_KEYSIZE_MASK
                lc_xdrbg_keysize_xdrbg128 lc_xdrbg_keysize_xdrbg256
                lc_xdrbg_keysize_xdrbg512 LC_XDRBG128_DRNG_KEYSIZE
                LC_XDRBG256_DRNG_KEYSIZE LC_XDRBG512_DRNG_KEYSIZE alpha
                (Z.to_nat b) st b [] [] Hret Hc Hb (Nat.le_refl _))
      as (st2 & tr2 & Hloop & _ & _).
    exists st, [], [], st2, (released tr2), tr2.
    split; [reflexivity |]. split; exact Hloop.
  - set (c := chunksize st) in *.
    set (n := Z.of_nat (S k) * c).
    assert (Hn : n = c + Z.of_nat k * c) by (unfold n; lia).
    destruct (IH (set_v st (next_key alpha st)) Hret Hc)
      as (st1 & out1 & tr1 & st2 & out2 & tr2 & H1 & H2 & H3).
    cbn [chunksize set_v] in H1, H3. fold c in H1, H3.
    exists st1, (next_out alpha st c ++ out1),
      ([StoreKey (next_key alpha st); Release (next_out alpha st c)] ++ tr1),
      st2, out2, tr2.
    split; [| split; [exact H2 |]].
    + rewrite xdrbg_run_step by (assumption || lia). fold c.
      rewrite (Z.min_r n c) by lia.
      replace (n - c) with (Z.of_nat k * c) by lia.
      rewrite H1. reflexivity.
    + rewrite xdrbg_run_step by (assumption || lia). fold c.
      rewrite (Z.min_r (n + b) c) by lia.
      replace (n + b - c) with (Z.of_nat k * c + b) by lia.
      rewrite H3. cbn. rewrite <- !app_assoc. reflexivity.
Qed.

(** X12.  Chunking of the XDRBG generate is transparent at chunk
    boundaries: a call for [k * chunksize + b] bytes returns the output
    of a call for [k * chunksize] bytes followed by the output of a call
    for [b] bytes on the state the first one left, and ends in the same
    state. *)
Theorem xdrbg_generate_chunks st alpha (k : nat) b :
  hash_init_ret (xof st) = 0 -> 0 < chunksize st -> 0 <= b ->
  exists st1 out1 tr1 st2 out2 tr2,
    lc_xdrbg_drng_generate (Some st) alpha (Z.of_nat k * chunksize st) =
      Some (0, Some (0, st1, out1, tr1)) /\
    lc_xdrbg_drng_generate (Some st1) alpha b =
      Some (0, Some (0, st2, out2, tr2)) /\
    lc_xdrbg_drng_generate (Some st) alpha (Z.of_nat k * chunksize st + b) =
      Some (0, Some (0, st2, out1 ++ out2, tr1 ++ tr2)).
Proof.
  intros Hret Hc Hb.
  destruct (xdrbg_run_chunks alpha k b Hb st Hret Hc)
    as (st1 & out1 & tr1 & st2 & out2 & tr2 & H1 & H2 & H3).
  exists st1, out1, tr1, st2, out2, tr2.
  rewrite !xdrbg_generate_run, H1, H2, H3. auto.
Qed.

Lemma testbit_u8 a n :
  0 <= n -> Z.testbit (u8 a) n = (n <? 8) && Z.testbit a n.
Proof.
  intros Hn. unfold u8. change 256 with (2 ^ 8).
  destruct (Z.ltb_spec n 8).
  - rewrite Z.mod_pow2_bits_low by lia. reflexivity.
  - rewrite Z.mod_pow2_bits_high by lia. reflexivity.
Qed.

(** Clearing with the [uint8_t] complement of the flag leaves no bit of
    the flag. *)
Lemma land_clear_flag s f : Z.land (Z.land s (u8 (Z.lnot f))) f = 0.
Proof.
  apply Z.bits_inj'. intros n Hn.
  rewrite !Z.land_spec, Z.bits_0, testbit_u8, Z.lnot_spec by exact Hn.
  destruct (Z.testbit s n), (n <? 8), (Z.testbit f n); reflexivity.
Qed.

Lemma land_clear_flag_mask s f m :
  Z.land f m = 0 -> 0 <= m < 256 ->
  Z.land (Z.land s (u8 (Z.lnot f))) m = Z.land s m.
Proof.
  intros Hfm Hm. apply Z.bits_inj'. intros n Hn.
  rewrite !Z.land_spec, testbit_u8, Z.lnot_spec by exact Hn.
  assert (Hf : Z.testbit f n && Z.testbit m n = false).
  { rewrite <- Z.land_spec, Hfm. apply Z.bits_0. }
  assert (Hm8 : Z.testbit m n = (n <? 8) && Z.testbit m n).
  { rewrite <- testbit_u8 by exact Hn. unfold u8.
    rewrite Z.mod_small by exact Hm. reflexivity. }
  rewrite Hm8.
  destruct (Z.testbit s n), (n <? 8), (Z.testbit f n), (Z.testbit m n);
    cbn in *; congruence.
Qed.

Lemma store_store (d a b : list Z) :
  length a = length b -> store (store d a) b = store d b.
Proof.
  intros H. unfold store. rewrite <- H.
  rewrite drop_app_length. reflexivity.
Qed.

(** X14.  lc_xdrbg_drng_zero makes the next seed an INSTANTIATE: it
    clears the seeded flag and keeps the key size (the flag lying outside
    the key size mask), so the seed that follows absorbs no V', encodes
    n = 0 and stores XOF(seed || encode(alpha)) over the first key size
    bytes of [v]: the new V does not depend on the old one. *)
Theorem xdrbg_zero_then_seed st (seed alpha : list Z) :
  hash_init_ret (xof st) = 0 ->
  Z.land LC_XDRBG_DRNG_INITIALLY_SEEDED LC_XDRBG_DRNG_KEYSIZE_MASK = 0 ->
  0 <= LC_XDRBG_DRNG_KEYSIZE_MASK < 256 ->
  let k0 := stream_bytes (hash_xof (xof st) (seed ++ encoded 0 alpha)) 0
              (keysize st) in
  let status' :=
    Z.lor (Z.land (status st) (u8 (Z.lnot LC_XDRBG_DRNG_INITIALLY_SEEDED)))
          LC_XDRBG_DRNG_INITIALLY_SEEDED in
  lc_xdrbg_drng_seed_nocheck (lc_xdrbg_drng_zero (Some st)) seed alpha =
    Done (0,
          Some (mk_state status' (chunksize st) (xof st) (store (v st) k0)),
          [StoreKey k0]).
Proof.
  intros Hret Hfm Hm k0 status'.
  unfold lc_xdrbg_drng_zero, lc_xdrbg_drng_seed_nocheck, seed_body,
    lc_hash_init, lc_xdrbg_initially_seeded, lc_xdrbg_keysize.
  cbn [deref bind status chunksize xof v set_v].
  rewrite Hret. cbn [Z.eqb negb].
  rewrite land_clear_flag, land_clear_flag_mask by assumption.
  cbn [Z.eqb negb status chunksize xof v set_v].
  rewrite xdrbg_encode_absorbs by lia.
  unfold lc_hash_update, lc_xdrbg_xof_final.
  cbn [hash_msg hash_squeezed app xof].
  fold (lc_xdrbg_keysize LC_XDRBG_DRNG_KEYSIZE_MASK
          lc_xdrbg_keysize_xdrbg128 lc_xdrbg_keysize_xdrbg256
          lc_xdrbg_keysize_xdrbg512 LC_XDRBG128_DRNG_KEYSIZE
          LC_XDRBG256_DRNG_KEYSIZE LC_XDRBG512_DRNG_KEYSIZE st).
  fold keysize. fold k0.
  unfold set_v. cbn [status chunksize xof v].
  rewrite store_store; [reflexivity |].
  unfold k0, stream_bytes. rewrite repeat_length, length_map, length_seq.
  reflexivity.
Qed.

(** X18.  When the XOF context fails to initialise, generate and seed of
    the XDRBG return its error code, release no byte and leave the state
    as it was, the seeded flag included. *)
Theorem xdrbg_init_failure st (seed alpha : list Z) outlen :
  hash_init_ret (xof st) <> 0 -> 0 < outlen ->
  lc_xdrbg_drng_generate (Some st) alpha outlen =
    Some (hash_init_ret (xof st),
          Some (hash_init_ret (xof st), st, [], [])) /\
  lc_xdrbg_drng_seed_nocheck (Some st) seed alpha =
    Done (hash_init_ret (xof st), Some st, []).
Proof.
  intros Hret Hout. split.
  - unfold lc_xdrbg_drng_generate.
    rewrite xdrbg_generate_loop_fail by (assumption || lia). reflexivity.
  - unfold lc_xdrbg_drng_seed_nocheck, seed_body, lc_hash_init.
    cbn [deref bind].
    assert (Hb : (hash_init_ret (xof st) =? 0) = false)
      by (apply Z.eqb_neq; exact Hret).
    rewrite Hb. reflexivity.
Qed.

End XdrbgMore.

(** Witness of [kmac_generate_chunks]: one chunk and five bytes. *)
Lemma kmac_generate_chunks_witness :
  exists st1 out1 tr1 st2 out2 tr2,
    Kmac.lc_kmac256_drng_generate KmacXof.KMACXOF256 0 (Some kmac_state)
      [1; 2; 3] (Z.of_nat 1 * 208) = Some (0, Some (0, st1, out1, tr1)) /\
    Kmac.lc_kmac256_drng_generate KmacXof.KMACXOF256 0 (Some st1)
      [1; 2; 3] 5 = Some (0, Some (0, st2, out2, tr2)) /\
    Kmac.lc_kmac256_drng_generate KmacXof.KMACXOF256 0 (Some kmac_state)
      [1; 2; 3] (Z.of_nat 1 * 208 + 5) =
      Some (0, Some (0, st2, out1 ++ out2, tr1 ++ tr2)).
Proof.
  apply (kmac_generate_chunks KmacXof.KMACXOF256 0 kmac_state [1; 2; 3] 1 5);
    [reflexivity | lia].
Defined.

(** Witness of [kmac_zero_then_seed]: a state holding a key of 64 bytes
    and the seeded flag. *)
Lemma kmac_zero_then_seed_witness :
  let k0 := stream_bytes
              (KmacXof.KMACXOF256 [] (selftest_seed ++ encoded 0 [9])
                 seed_string) 0 64 in
  Kmac.lc_kmac256_drng_seed_nocheck KmacXof.KMACXOF256 0
    (Kmac.lc_kmac256_drng_zero (Some (Kmac.mk_state 1 (repeat 7 64))))
    selftest_seed [9] =
  Done (0, Some (Kmac.mk_state 1 k0), [StoreKey k0]).
Proof.
  apply (kmac_zero_then_seed KmacXof.KMACXOF256 0
           (Kmac.mk_state 1 (repeat 7 64)) selftest_seed [9]);
    reflexivity.
Defined.

(** Witness of [kmac_init_failure]: the initialisation returning
    -EINVAL. *)
Lemma kmac_init_failure_witness :
  Kmac.lc_kmac256_drng_generate KmacXof.KMACXOF256 (- EINVAL)
    (Some kmac_state) [] 10 =
    Some (- EINVAL, Some (- EINVAL, kmac_state, [], [])) /\
  Kmac.lc_kmac256_drng_seed_nocheck KmacXof.KMACXOF256 (- EINVAL)
    (Some kmac_state) selftest_seed [] =
    Done (- EINVAL, Some kmac_state, []).
Proof.
  apply (kmac_init_failure KmacXof.KMACXOF256 (- EINVAL) kmac_state
           selftest_seed [] 10); [discriminate | lia].
Defined.

(** Witness of [xdrbg_generate_chunks]: two chunks of 4 bytes and 3
    bytes. *)
Lemma xdrbg_generate_chunks_witness :
  exists st1 out1 tr1 st2 out2 tr2,
    Xdrbg.lc_xdrbg_drng_generate 15 1 2 3 32 64 128 (Some xdrbg256_state)
      [1; 2; 3] (Z.of_nat 2 * 4) = Some (0, Some (0, st1, out1, tr1)) /\
    Xdrbg.lc_xdrbg_drng_generate 15 1 2 3 32 64 128 (Some st1)
      [1; 2; 3] 3 = Some (0, Some (0, st2, out2, tr2)) /\
    Xdrbg.lc_xdrbg_drng_generate 15 1 2 3 32 64 128 (Some xdrbg256_state)
      [1; 2; 3] (Z.of_nat 2 * 4 + 3) =
      Some (0, Some (0, st2, out1 ++ out2, tr1 ++ tr2)).
Proof.
  apply (xdrbg_generate_chunks 15 1 2 3 32 64 128 xdrbg256_state
           [1; 2; 3] 2 3); [reflexivity | reflexivity | lia].
Defined.

(** Witness of [xdrbg_zero_then_seed]: a seeded XDRBG-256 state. *)
Lemma xdrbg_zero_then_seed_witness :
  let st := Xdrbg.mk_state 130 4 KmacXof.lc_shake256 (repeat 7 64) in
  let k0 := stream_bytes
              (Xdrbg.hash_xof KmacXof.lc_shake256
                 (selftest_seed ++ encoded 0 [9])) 0 64 in
  Xdrbg.lc_xdrbg_drng_seed_nocheck 128 15 1 2 3 32 64 128
    (Xdrbg.lc_xdrbg_drng_zero 128 15 1 2 3 32 64 128 (Some st))
    selftest_seed [9] =
  Done (0, Some (Xdrbg.mk_state 130 4 KmacXof.lc_shake256 k0),
        [StoreKey k0]).
Proof.
  apply (xdrbg_zero_then_seed 128 15 1 2 3 32 64 128
           (Xdrbg.mk_state 130 4 KmacXof.lc_shake256 (repeat 7 64))
           selftest_seed [9]); [reflexivity | reflexivity | lia].
Defined.

(** Witness of [xdrbg_init_failure]: an XOF whose initialisation returns
    -EINVAL. *)
Lemma xdrbg_init_failure_witness :
  let st := Xdrbg.mk_state 2 4 (Xdrbg.mk_hash (- EINVAL) (fun _ _ => 0))
              (repeat 0 64) in
  Xdrbg.lc_xdrbg_drng_generate 15 1 2 3 32 64 128 (Some st) [] 10 =
    Some (- EINVAL, Some (- EINVAL, st, [], [])) /\
  Xdrbg.lc_xdrbg_drng_seed_nocheck 128 15 1 2 3 32 64 128 (Some st)
    selftest_seed [] = Done (- EINVAL, Some st, []).
Proof.
  apply (xdrbg_init_failure 128 15 1 2 3 32 64 128
           (Xdrbg.mk_state 2 4 (Xdrbg.mk_hash (- EINVAL) (fun _ _ => 0))
              (repeat 0 64)) selftest_seed [] 10); [discriminate | lia].
Defined.

End DrngProps.

(** ** ChaCha20 DRNG: seeding in pieces, output length, key update *)

Module ChaCha20Props.

Import ChaCha20Drng.

(** The loop of lc_cc20_drng_seed takes at least one byte per iteration,
    so any budget of at least the input length gives the same state. *)
Lemma seed_loop_fuel f1 : forall f2 s (inbuf : list Z),
  (length inbuf <= f1)%nat -> (length inbuf <= f2)%nat ->
  seed_loop f1 s inbuf = seed_loop f2 s inbuf.
Proof.
  induction f1 as [| f1 IH]; intros f2 s inbuf H1 H2.
  - destruct inbuf; [| cbn in H1; lia]. destruct f2; reflexivity.
  - destruct inbuf as [| b rest]; [destruct f2; reflexivity |].
    destruct f2 as [| f2]; [cbn in H2; lia |].
    cbn [seed_loop].
    set (todo := min_size (len (b :: rest)) LC_CC20_KEY_SIZE).
    assert (Ht : 0 < todo).
    { unfold todo, min_size, len, LC_CC20_KEY_SIZE. cbn [length].
      destruct (_ <? _); lia. }
    apply IH; unfold zdrop; rewrite length_drop; cbn [length] in *; lia.
Qed.

Lemma seed_loop_block f s (a b : list Z) :
  length a = 32%nat ->
  seed_loop (S f) s (a ++ b) =
  seed_loop f
    (lc_cc20_drng_update (set_key (xor_key_bytes (key s) 0 a) s) []
       LC_CC20_BLOCK_SIZE_WORDS) b.
Proof.
  intros Ha. destruct a as [| x a]; [discriminate |].
  cbn [seed_loop app].
  change (x :: a ++ b) with ((x :: a) ++ b).
  assert (Ht : min_size (len ((x :: a) ++ b)) LC_CC20_KEY_SIZE = 32).
  { unfold min_size, len, LC_CC20_KEY_SIZE. rewrite length_app, Ha.
    destruct (Z.ltb_spec (Z.of_nat (32 + length b)) 32); lia. }
  rewrite Ht. unfold ztake, zdrop. change (Z.to_nat 32) with 32%nat.
  rewrite (take_app_length' (x :: a) b 32), (drop_app_length' (x :: a) b 32)
    by (symmetry; exact Ha).
  reflexivity.
Qed.

Lemma seed_loop_app (k : nat) : forall s (a b : list Z),
  length a = (32 * k)%nat ->
  seed_loop (length (a ++ b)) s (a ++ b) =
  seed_loop (length b) (seed_loop (length a) s a) b.
Proof.
  induction k as [| k IH]; intros s a b Ha.
  - destruct a; [reflexivity | cbn in Ha; lia].
  - rewrite <- (take_drop 32 a), <- app_assoc.
    set (a1 := take 32 a). set (a2 := drop 32 a).
    assert (H1 : length a1 = 32%nat) by (unfold a1; rewrite length_take; lia).
    assert (H2 : length a2 = (32 * k)%nat)
      by (unfold a2; rewrite length_drop; lia).
    assert (Hl : length (a1 ++ a2 ++ b) = S (31 + length (a2 ++ b)))
      by (rewrite length_app; lia).
    rewrite Hl, seed_loop_block by exact H1.
    rewrite (seed_loop_fuel _ (length (a2 ++ b))) by lia.
    rewrite IH by exact H2.
    f_equal.
    assert (Hl' : length (a1 ++ a2) = S (31 + length a2))
      by (rewrite length_app; lia).
    rewrite Hl', seed_loop_block by exact H1.
    apply seed_loop_fuel; lia.
Qed.

(** X15.  Seeding in pieces.  When the first piece is a whole number of
    key-size blocks (32 bytes), seeding with it and then with the second
    piece leaves the state that one seed call with the concatenation
    leaves. *)
Theorem seed_in_pieces s (a b : list Z) (k : nat) :
  length a = (32 * k)%nat ->
  lc_cc20_drng_seed (snd (lc_cc20_drng_seed (Some s) a)) b =
  lc_cc20_drng_seed (Some s) (a ++ b).
Proof.
  intros Ha. cbn [lc_cc20_drng_seed snd].
  rewrite (seed_loop_app k) by exact Ha. reflexivity.
Qed.

(** The 16 words of the state. *)
Definition cc20_wf (s : lc_sym_state) : Prop :=
  length (constants s) = 4%nat /\ length (key s) = 8%nat /\
  length (counter s) = 4%nat.

Lemma length_quarterround a b c d ws :
  length (quarterround a b c d ws) = length ws.
Proof. unfold quarterround. rewrite !length_insert. reflexivity. Qed.

Lemma length_doubleround ws : length (doubleround ws) = length ws.
Proof. unfold doubleround. rewrite !length_quarterround. reflexivity. Qed.

Lemma length_rounds n ws : length (Nat.iter n doubleround ws) = length ws.
Proof.
  induction n as [| n IH]; [reflexivity |].
  rewrite Nat.iter_succ, length_doubleround. exact IH.
Qed.

Lemma length_state_words s : cc20_wf s -> length (state_words s) = 16%nat.
Proof.
  intros (H1 & H2 & H3). unfold state_words.
  rewrite !length_app, H1, H2, H3. reflexivity.
Qed.

Lemma cc20_block_wf s :
  cc20_wf s ->
  cc20_wf (fst (cc20_block s)) /\ length (snd (cc20_block s)) = 16%nat.
Proof.
  intros Hwf. pose proof (length_state_words s Hwf) as Hl.
  destruct Hwf as (H1 & H2 & H3). unfold cc20_block. cbn [fst snd]. split.
  - unfold cc20_wf. cbn. rewrite length_insert. auto.
  - rewrite length_zip_with, length_rounds, Hl. reflexivity.
Qed.

Lemma length_words_bytes ws : length (words_bytes ws) = (4 * length ws)%nat.
Proof.
  unfold words_bytes. induction ws as [| w ws IH]; [reflexivity |].
  cbn [flat_map length app word_bytes]. rewrite IH. lia.
Qed.

Lemma length_increment_nonce c : length (increment_nonce c) = length c.
Proof.
  unfold increment_nonce.
  destruct (_ =? 0); [destruct (_ =? 0) |]; rewrite !length_insert;
    reflexivity.
Qed.

Lemma update_wf s buf used_words :
  cc20_wf s -> cc20_wf (lc_cc20_drng_update s buf used_words).
Proof.
  intros Hwf. unfold lc_cc20_drng_update.
  assert (Hx : forall k src, length k = 8%nat ->
                 length (xor_key k src) = 8%nat).
  { intros k src Hk. unfold xor_key.
    rewrite length_zip_with, length_take, length_app, repeat_length. lia. }
  destruct (LC_CC20_KEY_SIZE_WORDS <? used_words).
  - destruct (cc20_block_wf s Hwf) as ((H1 & H2 & H3) & _).
    destruct (cc20_block s) as [s1 tmp]. cbn [fst] in *.
    unfold cc20_wf. cbn. rewrite length_increment_nonce, Hx; auto.
  - destruct Hwf as (H1 & H2 & H3).
    unfold cc20_wf. cbn. rewrite length_increment_nonce, Hx; auto.
Qed.

Lemma generate_blocks_wf n : forall s out,
  cc20_wf s ->
  cc20_wf (fst (generate_blocks n s out)) /\
  length (snd (generate_blocks n s out)) = (length out + 64 * n)%nat.
Proof.
  induction n as [| n IH]; intros s out Hwf.
  - cbn. split; [exact Hwf | lia].
  - cbn [generate_blocks].
    destruct (cc20_block_wf s Hwf) as (Hwf1 & Hl).
    destruct (cc20_block s) as [s1 stream]. cbn [fst snd] in *.
    destruct (IH s1 (out ++ words_bytes stream) Hwf1) as (Hwf2 & Hl2).
    split; [exact Hwf2 |].
    rewrite Hl2, length_app, length_words_bytes, Hl. lia.
Qed.

(** X16.  lc_cc20_drng_generate delivers exactly the number of bytes
    asked for, whole blocks and the partial last block together, and
    leaves a state of 16 words. *)
Theorem generate_length s outbuflen :
  cc20_wf s -> 0 <= outbuflen ->
  len (snd (lc_cc20_drng_generate s outbuflen)) = outbuflen /\
  cc20_wf (fst (lc_cc20_drng_generate s outbuflen)).
Proof.
  intros Hwf Hn. unfold lc_cc20_drng_generate, LC_CC20_BLOCK_SIZE.
  destruct (generate_blocks_wf (Z.to_nat (outbuflen / 64)) s [] Hwf)
    as (Hwf1 & Hl1).
  destruct (generate_blocks _ s []) as [s1 out]. cbn [fst snd length] in *.
  pose proof (Z.mod_pos_bound outbuflen 64 ltac:(lia)) as Hm.
  pose proof (Z.div_mod outbuflen 64 ltac:(lia)) as Hdm.
  destruct (Z.eqb_spec (outbuflen mod 64) 0) as [E | E]; cbn [negb].
  - cbn [fst snd]. split; [| apply update_wf; exact Hwf1].
    unfold len. rewrite Hl1. lia.
  - destruct (cc20_block_wf s1 Hwf1) as (Hwf2 & Hl2).
    destruct (cc20_block s1) as [s2 buf]. cbn [fst snd] in *.
    split; [| apply update_wf; exact Hwf2].
    unfold len, ztake.
    rewrite length_app, length_take, length_words_bytes, Hl1, Hl2. lia.
Qed.

Lemma words_bytes_app a b :
  words_bytes (a ++ b) = words_bytes a ++ words_bytes b.
Proof. unfold words_bytes. apply flat_map_app. Qed.

(** X20.  Key update after a short request.  For a request of 1 to 32
    bytes the output is cut from the first [used] words of one ChaCha20
    block, [used] being the number of words the request touches, and the
    key is XORed with the eight words that follow them: no word that
    was released enters the key. *)
Theorem generate_short_request s r :
  cc20_wf s -> 0 < r <= 32 ->
  let '(s1, blk) := cc20_block s in
  let used := Z.to_nat ((r + 3) / 4) in
  lc_cc20_drng_generate s r =
    (set_counter (increment_nonce (counter s1))
       (set_key (xor_key (key s1) (take 8 (drop used blk))) s1),
     ztake r (words_bytes (take used blk))).
Proof.
  intros Hwf Hr.
  destruct (cc20_block_wf s Hwf) as (_ & Hl).
  unfold lc_cc20_drng_generate, LC_CC20_BLOCK_SIZE.
  rewrite Z.div_small, Z.mod_small by lia.
  change (generate_blocks (Z.to_nat 0) s []) with (s, @nil Z).
  cbv beta iota.
  destruct (cc20_block s) as [s1 blk]. cbn [snd] in Hl. cbv zeta.
  destruct (Z.eqb_spec r 0); [lia |]. cbn [negb app].
  assert (Hu : 1 <= (r + 3) / 4 <= 8 /\ r <= 4 * ((r + 3) / 4)).
  { pose proof (Z.div_mod (r + 3) 4 ltac:(lia)).
    pose proof (Z.mod_pos_bound (r + 3) 4 ltac:(lia)). lia. }
  destruct Hu as (Hu & Hr4).
  f_equal.
  - unfold lc_cc20_drng_update, LC_CC20_KEY_SIZE_WORDS.
    replace (r + 4 - 1) with (r + 3) by lia.
    destruct (Z.ltb_spec 8 ((r + 3) / 4)); [lia |].
    do 2 f_equal. unfold xor_key. f_equal.
    set (src := drop (Z.to_nat ((r + 3) / 4)) blk).
    assert (Hs : (8 <= length src)%nat)
      by (unfold src; rewrite length_drop, Hl; lia).
    rewrite (take_app_le src) by exact Hs.
    rewrite (take_app_le (take 8 src)) by (rewrite length_take; lia).
    rewrite take_take, Nat.min_id. reflexivity.
  - rewrite <- (take_drop (Z.to_nat ((r + 3) / 4)) blk) at 1.
    rewrite words_bytes_app. unfold ztake. apply take_app_le.
    rewrite length_words_bytes, length_take, Hl.
    lia.
Qed.

(** Witness of [seed_in_pieces]: a block of 32 bytes, then 3 bytes. *)
Lemma seed_in_pieces_witness :
  lc_cc20_drng_seed
    (snd (lc_cc20_drng_seed (Some zero_state) (repeat 5 32))) [1; 2; 3] =
  lc_cc20_drng_seed (Some zero_state) (repeat 5 32 ++ [1; 2; 3]).
Proof.
  apply (seed_in_pieces zero_state (repeat 5 32) [1; 2; 3] 1). reflexivity.
Defined.

Lemma zero_state_wf : cc20_wf zero_state.
Proof. repeat split. Qed.

(** Witness of [generate_length]: 100 bytes from the zero state. *)
Lemma generate_length_witness :
  len (snd (lc_cc20_drng_generate zero_state 100)) = 100 /\
  cc20_wf (fst (lc_cc20_drng_generate zero_state 100)).
Proof.
  apply (generate_length zero_state 100); [exact zero_state_wf | lia].
Defined.

(** Witness of [generate_short_request]: 5 bytes from the zero state. *)
Lemma generate_short_request_witness :
  let '(s1, blk) := cc20_block zero_state in
  let used := Z.to_nat ((5 + 3) / 4) in
  lc_cc20_drng_generate zero_state 5 =
    (set_counter (increment_nonce (counter s1))
       (set_key (xor_key (key s1) (take 8 (drop used blk))) s1),
     ztake 5 (words_bytes (take used blk))).
Proof.
  apply (generate_short_request zero_state 5); [exact zero_state_wf | lia].
Defined.

End ChaCha20Props.

(** ** Conditional moves *)

Module SideChannelProps.

Import SideChannel.
Import KeccakGlueProps.

(** What one round of cmov stores at an index. *)
Definition cmov_byte (b k ri xi : Z) : Z :=
  u8 (Z.lxor ri (Z.lxor (Z.land b (Z.lxor ri xi)) k)).

Lemma cmov_loop_zip n : forall (r x : list Z) i b k,
  (i + n <= length r)%nat -> (i + n <= length x)%nat ->
  cmov_loop n r x i b k =
    take i r ++
    zip_with (cmov_byte b k) (take n (drop i r)) (take n (drop i x)) ++
    drop (i + n) r.
Proof.
  induction n as [| n IH]; intros r x i b k Hr Hx.
  - cbn. rewrite Nat.add_0_r. symmetry. apply take_drop.
  - cbn [cmov_loop].
    destruct (lookup_lt_is_Some_2 r i ltac:(lia)) as [ri Hri].
    destruct (lookup_lt_is_Some_2 x i ltac:(lia)) as [xi Hxi].
    rewrite (nth_lookup_Some _ _ _ _ Hri), (nth_lookup_Some _ _ _ _ Hxi).
    fold (cmov_byte b k ri xi).
    rewrite IH by (rewrite ?length_insert; lia).
    rewrite (drop_S _ _ _ Hri), (drop_S _ _ _ Hxi). cbn [take zip_with].
    assert (Hi : (i < length r)%nat) by lia.
    rewrite (take_S_r (<[i:=cmov_byte b k ri xi]> r) i (cmov_byte b k ri xi))
      by (apply list_lookup_insert_eq; exact Hi).
    rewrite take_insert_ge by lia.
    rewrite !drop_insert_lt by lia.
    rewrite <- app_assoc. cbn [app].
    replace (S i + n)%nat with (i + S n)%nat by lia. reflexivity.
Qed.

Lemma land_255 y : 0 <= y < 256 -> Z.land 255 y = y.
Proof.
  intros H. rewrite Z.land_comm. change 255 with (Z.ones 8).
  rewrite Z.land_ones by lia. apply Z.mod_small. exact H.
Qed.

Lemma u8_byte y : 0 <= y < 256 -> u8 y = y.
Proof. intros H. apply Z.mod_small. exact H. Qed.

Lemma u8_range y : 0 <= u8 y < 256.
Proof. apply Z.mod_pos_bound. lia. Qed.

Lemma lxor_cancel a b : Z.lxor a (Z.lxor a b) = b.
Proof. rewrite <- Z.lxor_assoc, Z.lxor_nilpotent. apply Z.lxor_0_l. Qed.

Lemma cmov_byte_take k ri xi :
  0 <= ri < 256 -> 0 <= xi < 256 -> 0 <= k < 256 ->
  cmov_byte 255 k ri xi = Z.lxor xi k.
Proof.
  intros Hr Hx Hk. unfold cmov_byte.
  rewrite land_255 by (apply lxor_byte; assumption).
  rewrite <- Z.lxor_assoc, lxor_cancel.
  apply u8_byte, lxor_byte; assumption.
Qed.

Lemma cmov_byte_keep k ri xi :
  0 <= ri < 256 -> 0 <= k < 256 -> cmov_byte 0 k ri xi = Z.lxor ri k.
Proof.
  intros Hr Hk. unfold cmov_byte. rewrite Z.land_0_l, Z.lxor_0_l.
  apply u8_byte, lxor_byte; assumption.
Qed.

Lemma zip_with_take (k : Z) (rs : list Z) : forall xs,
  bytes rs -> bytes xs -> length rs = length xs -> 0 <= k < 256 ->
  zip_with (cmov_byte 255 k) rs xs = map (fun v => Z.lxor v k) xs.
Proof.
  induction rs as [| ri rs IH]; intros [| xi xs] Hrs Hxs Hl Hk;
    cbn in Hl |- *; try discriminate; [reflexivity |].
  inversion Hrs; inversion Hxs; subst.
  rewrite cmov_byte_take by assumption. f_equal. apply IH; auto.
Qed.

Lemma zip_with_keep (k : Z) (rs : list Z) : forall xs,
  bytes rs -> length rs = length xs -> 0 <= k < 256 ->
  zip_with (cmov_byte 0 k) rs xs = map (fun v => Z.lxor v k) rs.
Proof.
  induction rs as [| ri rs IH]; intros [| xi xs] Hrs Hl Hk;
    cbn in Hl |- *; try discriminate; [reflexivity |].
  inversion Hrs; subst.
  rewrite cmov_byte_keep by assumption. f_equal. apply IH; auto.
Qed.

Lemma map_lxor_0 (l : list Z) : map (fun v => Z.lxor v 0) l = l.
Proof.
  induction l as [| a l IH]; cbn; [reflexivity |].
  rewrite Z.lxor_0_r, IH. reflexivity.
Qed.

(** X24.  cmov with the condition 1 copies the first [n] bytes of [x]
    over those of [r], with the condition 0 it leaves [r] as it is, and
    in both cases the bytes of [r] from [n] on stay; the value of the
    optimization blocker is XORed into each of the [n] bytes, so the
    move is exact when the blocker is 0. *)
Theorem cmov_selects k (r x : list Z) (n : nat) :
  bytes r -> bytes x -> (n <= length r)%nat -> (n <= length x)%nat ->
  cmov k r x (Z.of_nat n) 1 =
    map (fun v => Z.lxor v (u8 k)) (take n x) ++ drop n r /\
  cmov k r x (Z.of_nat n) 0 =
    map (fun v => Z.lxor v (u8 k)) (take n r) ++ drop n r /\
  cmov 0 r x (Z.of_nat n) 1 = take n x ++ drop n r /\
  cmov 0 r x (Z.of_nat n) 0 = r.
Proof.
  intros Hr Hx Hnr Hnx.
  assert (H1 : forall k', cmov k' r x (Z.of_nat n) 1 =
            map (fun v => Z.lxor v (u8 k')) (take n x) ++ drop n r).
  { intros k'. unfold cmov. rewrite Nat2Z.id.
    change (u8 (Z.opp 1)) with 255.
    rewrite cmov_loop_zip by (cbn; lia).
    rewrite take_0, !drop_0, Nat.add_0_l. cbn [app].
    rewrite zip_with_take; auto using bytes_take, u8_range.
    rewrite !length_take. lia. }
  assert (H0 : forall k', cmov k' r x (Z.of_nat n) 0 =
            map (fun v => Z.lxor v (u8 k')) (take n r) ++ drop n r).
  { intros k'. unfold cmov. rewrite Nat2Z.id.
    change (u8 (Z.opp 0)) with 0.
    rewrite cmov_loop_zip by (cbn; lia).
    rewrite take_0, !drop_0, Nat.add_0_l. cbn [app].
    rewrite zip_with_keep; auto using bytes_take, u8_range.
    rewrite !length_take. lia. }
  split; [apply H1 |]. split; [apply H0 |]. split.
  - rewrite H1. change (u8 0) with 0. rewrite map_lxor_0. reflexivity.
  - rewrite H0. change (u8 0) with 0. rewrite map_lxor_0. apply take_drop.
Qed.

(** Values whose quotient by [p] is 0 or -1 are those from [-p] to
    [p - 1]. *)
Lemma signed_range_div p x :
  0 < p -> (- p <= x < p <-> x / p = 0 \/ x / p = - 1).
Proof.
  intros Hp. pose proof (Z.div_mod x p ltac:(lia)) as E.
  pose proof (Z.mod_pos_bound x p Hp) as B. split.
  - intros H. assert (- 1 <= x / p < 1) by nia. lia.
  - intros [H | H]; rewrite H in E; lia.
Qed.

Lemma lxor_signed_range n a b :
  0 <= n -> - 2 ^ n <= a < 2 ^ n -> - 2 ^ n <= b < 2 ^ n ->
  - 2 ^ n <= Z.lxor a b < 2 ^ n.
Proof.
  intros Hn Ha Hb. assert (Hp : 0 < 2 ^ n) by (apply Z.pow_pos_nonneg; lia).
  apply (signed_range_div _ _ Hp) in Ha, Hb. apply (signed_range_div _ _ Hp).
  rewrite <- !Z.shiftr_div_pow2 in * by lia. rewrite Z.shiftr_lxor.
  destruct Ha as [-> | ->], Hb as [-> | ->]; cbn; auto.
Qed.

Lemma s16_id x : - 2 ^ 15 <= x < 2 ^ 15 -> s16 x = x.
Proof. intros H. unfold s16. rewrite Z.mod_small; lia. Qed.

Lemma s32_id x : - 2 ^ 31 <= x < 2 ^ 31 -> s32 x = x.
Proof. intros H. unfold s32. rewrite Z.mod_small; lia. Qed.

Lemma s16_mod x : s16 (x mod 2 ^ 16) = s16 x.
Proof. unfold s16. rewrite Zplus_mod_idemp_l. reflexivity. Qed.

Lemma land_lxor_distr a b c :
  Z.land (Z.lxor a b) c = Z.lxor (Z.land a c) (Z.land b c).
Proof.
  apply Z.bits_inj'. intros n _.
  rewrite Z.land_spec, !Z.lxor_spec, !Z.land_spec.
  destruct (Z.testbit a n), (Z.testbit b n), (Z.testbit c n); reflexivity.
Qed.

Lemma land_ones_l n x : 0 <= n -> Z.land (Z.ones n) x = x mod 2 ^ n.
Proof. intros H. rewrite Z.land_comm. apply Z.land_ones. exact H. Qed.

(** X25.  cmov_int16 and cmov_uint32 are exact conditional moves: with
    the condition 1 the result is [v], with the condition 0 it is the
    old value, over the whole range of the type, negative values
    included. *)
Theorem cmov_int16_uint32_select r16 v16 r32 v32 :
  - 2 ^ 15 <= r16 < 2 ^ 15 -> - 2 ^ 15 <= v16 < 2 ^ 15 ->
  0 <= r32 < 2 ^ 32 -> 0 <= v32 < 2 ^ 32 ->
  cmov_int16 r16 v16 1 = v16 /\ cmov_int16 r16 v16 0 = r16 /\
  cmov_uint32 r32 v32 1 = v32 /\ cmov_uint32 r32 v32 0 = r32.
Proof.
  intros Hr Hv Hr' Hv'.
  pose proof (lxor_signed_range 15 _ _ ltac:(lia) Hr Hv) as Hx.
  assert (Hx' : 0 <= Z.lxor r32 v32 < 2 ^ 32).
  { split; [apply Z.lxor_nonneg; lia |].
    apply (lxor_signed_range 32); lia. }
  unfold cmov_int16, cmov_uint32. cbv zeta. repeat split.
  - change (u16 (Z.opp 1)) with (Z.ones 16). rewrite land_ones_l by lia.
    rewrite s16_mod, (s16_id _ Hx), lxor_cancel. apply s16_id, Hv.
  - change (u16 (Z.opp 0)) with 0. rewrite Z.land_0_l.
    change (s16 0) with 0. rewrite Z.lxor_0_r. apply s16_id, Hr.
  - change (u32 (Z.opp 1)) with (Z.ones 32). rewrite land_ones_l by lia.
    unfold u32. rewrite Zmod_mod, (Z.mod_small _ _ Hx'), lxor_cancel.
    apply Z.mod_small, Hv'.
  - change (u32 (Z.opp 0)) with 0. rewrite Z.land_0_l.
    change (u32 0) with 0. rewrite Z.lxor_0_r. apply Z.mod_small, Hr'.
Qed.

(** X26.  cmov_int moves the low 16 bits only.  Its condition is a
    [uint16_t], so the mask [-b] has no bit above bit 15: with the
    condition 1 the result has the low 16 bits of [v] and keeps the
    upper bits of the old value, and it is [v] exactly when the two
    agree from bit 16 on.  With the condition 0 the old value stays. *)
Theorem cmov_int_low_half r v :
  - 2 ^ 31 <= r < 2 ^ 31 -> - 2 ^ 31 <= v < 2 ^ 31 ->
  cmov_int r v 0 = r /\
  cmov_int r v 1 = 2 ^ 16 * (r / 2 ^ 16) + v mod 2 ^ 16 /\
  (cmov_int r v 1 = v <-> r / 2 ^ 16 = v / 2 ^ 16).
Proof.
  intros Hr Hv.
  assert (H1 : cmov_int r v 1 = 2 ^ 16 * (r / 2 ^ 16) + v mod 2 ^ 16).
  { unfold cmov_int. cbv zeta. change (u16 (Z.opp 1)) with (Z.ones 16).
    rewrite land_ones_l by lia.
    set (m := Z.lxor r v mod 2 ^ 16).
    assert (Hm : 0 <= m < 2 ^ 16) by (apply Z.mod_pos_bound; lia).
    rewrite (s32_id m) by lia.
    assert (Hq : Z.lxor r m / 2 ^ 16 = r / 2 ^ 16).
    { rewrite <- !Z.shiftr_div_pow2 by lia. rewrite Z.shiftr_lxor.
      rewrite (Z.shiftr_div_pow2 m) by lia.
      rewrite (Z.div_small m) by lia. apply Z.lxor_0_r. }
    assert (Hl : Z.lxor r m mod 2 ^ 16 = v mod 2 ^ 16).
    { rewrite <- !Z.land_ones by lia. rewrite land_lxor_distr.
      unfold m. rewrite (Z.land_ones (_ mod _)) by lia. rewrite Zmod_mod.
      rewrite <- (Z.land_ones (Z.lxor r v)) by lia.
      rewrite land_lxor_distr. apply lxor_cancel. }
    pose proof (Z.div_mod (Z.lxor r m) (2 ^ 16) ltac:(lia)) as E.
    rewrite Hq, Hl in E. rewrite E.
    apply s32_id.
    pose proof (Z.mod_pos_bound v (2 ^ 16) ltac:(lia)).
    assert (- 2 ^ 15 <= r / 2 ^ 16 < 2 ^ 15).
    { split; [apply Z.div_le_lower_bound | apply Z.div_lt_upper_bound]; lia. }
    lia. }
  split; [| split; [exact H1 |]].
  - unfold cmov_int. cbv zeta. change (u16 (Z.opp 0)) with 0.
    rewrite Z.land_0_l.
    change (s32 0) with 0. rewrite Z.lxor_0_r. apply s32_id, Hr.
  - rewrite H1. pose proof (Z.div_mod v (2 ^ 16) ltac:(lia)). lia.
Qed.

Lemma cmov_selects_witness :
  cmov 0 [1; 2; 3] [7; 8; 9] (Z.of_nat 2) 1 = [7; 8; 3].
Proof.
  assert (B1 : bytes [1; 2; 3]) by (repeat constructor; lia).
  assert (B2 : bytes [7; 8; 9]) by (repeat constructor; lia).
  exact (proj1 (proj2 (proj2
    (cmov_selects 0 [1; 2; 3] [7; 8; 9] 2 B1 B2 ltac:(cbn; lia)
       ltac:(cbn; lia))))).
Defined.

Lemma cmov_int16_uint32_select_witness :
  cmov_int16 (- 5) 7 1 = 7 /\ cmov_int16 (- 5) 7 0 = - 5 /\
  cmov_uint32 4000000000 7 1 = 7 /\ cmov_uint32 4000000000 7 0 = 4000000000.
Proof.
  apply (cmov_int16_uint32_select (- 5) 7 4000000000 7); lia.
Defined.

Lemma cmov_int_low_half_witness :
  cmov_int 0 (- 22) 0 = 0 /\
  cmov_int 0 (- 22) 1 = 2 ^ 16 * (0 / 2 ^ 16) + (- 22) mod 2 ^ 16 /\
  (cmov_int 0 (- 22) 1 = - 22 <-> 0 / 2 ^ 16 = (- 22) / 2 ^ 16).
Proof.
  apply (cmov_int_low_half 0 (- 22)); lia.
Defined.

(** Moving -22 (-EINVAL) over 0 gives 65514. *)
Example cmov_int_negative_over_zero : cmov_int 0 (- 22) 1 = 65514.
Proof. reflexivity. Qed.

End SideChannelProps.

(** ** GF(2^8) helpers of HQC *)

Module GfProps.

Import Gf.

(** Bit [i] of [a] as the code reads it. *)
Lemma bit_of a i :
  0 <= i -> Z.land (Z.shiftr a i) 1 = Z.b2z (Z.testbit a i).
Proof.
  intros Hi. change 1 with (Z.ones 1) at 1. rewrite Z.land_ones by lia.
  change (2 ^ 1) with 2. rewrite <- Z.bit0_mod, Z.shiftr_spec by lia.
  rewrite Z.add_0_l. reflexivity.
Qed.

(** The count after [n] rounds. *)
Definition tz_state (a : Z) (n : nat) : Z * Z :=
  fold_left (tzbc_round a) (map Z.of_nat (seq 0 n)) (0, 65535).

Lemma tz_state_S a n :
  tz_state a (S n) = tzbc_round a (tz_state a n) (Z.of_nat n).
Proof.
  unfold tz_state. rewrite seq_S, map_app, fold_left_app. reflexivity.
Qed.

Lemma tzbc_round_open a i :
  0 <= i < 14 ->
  tzbc_round a (i, 65535) i =
    if Z.testbit a i then (i, 0) else (i + 1, 65535).
Proof.
  intros Hi. unfold tzbc_round. rewrite bit_of by lia.
  destruct (Z.testbit a i); cbn [Z.b2z].
  - change (u16 (Z.land (1 - 1) 65535)) with 0.
    change (u16 (Z.land 65535 (u16 (- (1 - 1))))) with 0.
    rewrite Z.add_0_r. unfold u16. rewrite Z.mod_small by lia. reflexivity.
  - change (u16 (Z.land (1 - 0) 65535)) with 1.
    change (u16 (Z.land 65535 (u16 (- (1 - 0))))) with 65535.
    unfold u16. rewrite Z.mod_small by lia. reflexivity.
Qed.

Lemma tzbc_round_closed a t i :
  0 <= t < 14 -> tzbc_round a (t, 0) i = (t, 0).
Proof.
  intros Ht. unfold tzbc_round. rewrite Z.land_0_r, Z.land_0_l.
  change (u16 0) with 0. rewrite Z.add_0_r. unfold u16.
  rewrite Z.mod_small by lia. reflexivity.
Qed.

(** After [n] rounds either the [n] low bits are all clear, the count is
    [n] and the mask is open, or the count stands at the lowest set bit
    and the mask is closed. *)
Lemma tz_state_spec a n :
  (n <= 14)%nat ->
  (tz_state a n = (Z.of_nat n, 65535) /\
   forall j, 0 <= j < Z.of_nat n -> Z.testbit a j = false) \/
  (exists t, 0 <= t < Z.of_nat n /\ tz_state a n = (t, 0) /\
     Z.testbit a t = true /\
     forall j, 0 <= j < t -> Z.testbit a j = false).
Proof.
  induction n as [| n IH]; intros Hn.
  - left. split; [reflexivity | intros j Hj; lia].
  - rewrite tz_state_S. destruct IH as [[E Hz] | (t & Ht & E & Hb & Hz)];
      [lia | |]; rewrite E.
    + rewrite tzbc_round_open by lia.
      destruct (Z.testbit a (Z.of_nat n)) eqn:Hbit.
      * right. exists (Z.of_nat n). repeat split; auto; lia.
      * left. split; [f_equal; lia |]. intros j Hj.
        destruct (Z.eq_dec j (Z.of_nat n)) as [-> | Hne]; [exact Hbit |].
        apply Hz. lia.
    + right. exists t. rewrite tzbc_round_closed by lia.
      repeat split; auto; lia.
Qed.

(** X27.  trailing_zero_bits_count returns the number of trailing zero
    bits of [a] capped at 14: every bit below the result is clear, a
    result below 14 is the position of the lowest set bit, and the
    result is 14 exactly when the 14 low bits are all clear, bits 14 and
    15 never being looked at (so 0, 0x4000 and 0x8000 all give 14). *)
Theorem trailing_zero_bits_count_spec a :
  0 <= a < 2 ^ 16 ->
  let t := trailing_zero_bits_count a in
  0 <= t <= 14 /\
  (forall j, 0 <= j < t -> Z.testbit a j = false) /\
  (t < 14 -> Z.testbit a t = true) /\
  (t = 14 <-> a mod 2 ^ 14 = 0).
Proof.
  intros Ha t.
  assert (H : 0 <= t <= 14 /\
    (forall j, 0 <= j < t -> Z.testbit a j = false) /\
    (t < 14 -> Z.testbit a t = true)).
  { unfold t, trailing_zero_bits_count. fold (tz_state a 14).
    destruct (tz_state_spec a 14 ltac:(lia))
      as [[E Hz] | (t' & Ht & E & Hb & Hz)]; rewrite E; cbn [fst].
    - repeat split; try lia. exact Hz.
    - repeat split; try lia; auto. }
  destruct H as (Hr & Hz & Hs). repeat split; auto; try lia.
  - intros ->. apply Z.bits_inj'. intros n Hn.
    rewrite Z.testbit_mod_pow2, Z.bits_0 by lia.
    destruct (n <? 14) eqn:Hlt; [| reflexivity].
    apply Z.ltb_lt in Hlt. cbn [andb]. apply Hz. lia.
  - intros Hm. destruct (Z.eq_dec t 14) as [| Hne]; [assumption |].
    assert (Hb : Z.testbit (a mod 2 ^ 14) t = true).
    { rewrite Z.mod_pow2_bits_low by lia. apply Hs. lia. }
    rewrite Hm, Z.bits_0 in Hb. discriminate.
Qed.

Lemma trailing_zero_bits_count_spec_witness :
  0 <= trailing_zero_bits_count 40 <= 14 /\
  (forall j, 0 <= j < trailing_zero_bits_count 40 ->
     Z.testbit 40 j = false) /\
  (trailing_zero_bits_count 40 < 14 ->
     Z.testbit 40 (trailing_zero_bits_count 40) = true) /\
  (trailing_zero_bits_count 40 = 14 <-> 40 mod 2 ^ 14 = 0).
Proof.
  apply (trailing_zero_bits_count_spec 40). lia.
Defined.

(** *** Carry-less multiplication *)

(** The product of two polynomials over GF(2) given by their bits: the
    XOR of [b] shifted to every set bit of the byte [a]. *)
Definition clmul (a b : Z) : Z :=
  fold_right
    (fun i acc => Z.lxor (if Z.testbit a i then Z.shiftl b i else 0) acc)
    0 [0; 1; 2; 3; 4; 5; 6; 7].

Lemma select_mask_spec d :
  - 3 <= d <= 3 ->
  select_mask (u32 (u64 d)) = if d =? 0 then 4294967295 else 0.
Proof.
  intros H.
  assert (C : d = - 3 \/ d = - 2 \/ d = - 1 \/ d = 0 \/ d = 1 \/ d = 2 \/
              d = 3) by lia.
  destruct C as [-> | [-> | [-> | [-> | [-> | [-> | ->]]]]]];
    vm_compute; reflexivity.
Qed.

Lemma land_u32_ones x : 0 <= x < 2 ^ 16 -> Z.land x 4294967295 = x.
Proof.
  intros H. change 4294967295 with (Z.ones 32). rewrite Z.land_ones by lia.
  apply Z.mod_small. lia.
Qed.

Lemma u16_id x : 0 <= x < 2 ^ 16 -> u16 x = x.
Proof. intros H. apply Z.mod_small. exact H. Qed.

(** The branch-free table lookup picks the entry of index [tmp1]. *)
Lemma select_u_nth u0 u1 u2 u3 t :
  0 <= u0 < 2 ^ 16 -> 0 <= u1 < 2 ^ 16 -> 0 <= u2 < 2 ^ 16 ->
  0 <= u3 < 2 ^ 16 -> 0 <= t <= 3 ->
  select_u [u0; u1; u2; u3] t = nth (Z.to_nat t) [u0; u1; u2; u3] 0.
Proof.
  intros H0 H1 H2 H3 Ht. unfold select_u. cbn [fold_left].
  rewrite !select_mask_spec by lia.
  change (nth (Z.to_nat 0) [u0; u1; u2; u3] 0) with u0.
  change (nth (Z.to_nat 1) [u0; u1; u2; u3] 0) with u1.
  change (nth (Z.to_nat 2) [u0; u1; u2; u3] 0) with u2.
  change (nth (Z.to_nat 3) [u0; u1; u2; u3] 0) with u3.
  assert (C : t = 0 \/ t = 1 \/ t = 2 \/ t = 3) by lia.
  destruct C as [-> | [-> | [-> | ->]]]; cbn [Z.sub Z.eqb Z.add Z.opp
    Z.pos_sub Pos.pred_double Z.succ_double Z.pred_double Z.double
    Pos.eqb Z.to_nat Pos.to_nat Pos.iter_op Nat.add nth];
    rewrite ?Z.land_0_r, ?land_u32_ones by assumption;
    change (u16 0) with 0; rewrite ?u16_id by assumption;
    rewrite ?Z.lxor_0_r, ?Z.lxor_0_l; reflexivity.
Qed.

Lemma window_bits a i :
  0 <= i ->
  Z.land (Z.shiftr a i) 3 =
    Z.b2z (Z.testbit a i) + 2 * Z.b2z (Z.testbit a (i + 1)).
Proof.
  intros Hi. change 3 with (Z.ones 2). rewrite Z.land_ones by lia.
  change (2 ^ 2) with (2 * 2). rewrite Z.rem_mul_r by lia.
  rewrite <- Z.bit0_mod. change 2 with (2 ^ 1) at 2.
  rewrite <- Z.testbit_spec' by lia. rewrite !Z.shiftr_spec by lia.
  rewrite Z.add_0_l, (Z.add_comm 1 i). reflexivity.
Qed.

Lemma lxor_u16 x y :
  0 <= x < 2 ^ 16 -> 0 <= y < 2 ^ 16 -> 0 <= Z.lxor x y < 2 ^ 16.
Proof.
  intros Hx Hy. split; [apply Z.lxor_nonneg; lia |].
  apply (SideChannelProps.lxor_signed_range 16); lia.
Qed.

(** A window of two bits of [a] selects the XOR of the two multiples. *)
Lemma window_select a i u1 u2 :
  0 <= i -> 0 <= u1 < 2 ^ 16 -> 0 <= u2 < 2 ^ 16 ->
  select_u [0; u1; u2; Z.lxor u2 u1] (Z.land (Z.shiftr a i) 3) =
    Z.lxor (if Z.testbit a i then u1 else 0)
           (if Z.testbit a (i + 1) then u2 else 0).
Proof.
  intros Hi H1 H2. pose proof (lxor_u16 _ _ H2 H1) as H3.
  rewrite window_bits by lia.
  rewrite select_u_nth by
    (try lia; destruct (Z.testbit a i), (Z.testbit a (i + 1)); cbn; lia).
  destruct (Z.testbit a i), (Z.testbit a (i + 1)); cbn [Z.b2z];
    [change (nth (Z.to_nat (1 + 2 * 1)) [0; u1; u2; Z.lxor u2 u1] 0)
       with (Z.lxor u2 u1); apply Z.lxor_comm
    | change (nth (Z.to_nat (1 + 2 * 0)) [0; u1; u2; Z.lxor u2 u1] 0)
       with u1; symmetry; apply Z.lxor_0_r
    | change (nth (Z.to_nat (0 + 2 * 1)) [0; u1; u2; Z.lxor u2 u1] 0)
       with u2; symmetry; apply Z.lxor_0_l
    | reflexivity ].
Qed.

(** The mask of the top bit of [b]: [-((b >> 7) & 1)] as [uint16_t]. *)
Lemma top_mask b :
  u16 (- Z.land (Z.shiftr b 7) 1) = if Z.testbit b 7 then 65535 else 0.
Proof.
  rewrite bit_of by lia. destruct (Z.testbit b 7); reflexivity.
Qed.

Lemma testbit_if (c : bool) x n :
  Z.testbit (if c then x else 0) n = c && Z.testbit x n.
Proof. destruct c; [reflexivity | apply Z.bits_0]. Qed.

Lemma testbit_land_mask (c : bool) x n :
  0 <= n < 16 ->
  Z.testbit (Z.land x (if c then 65535 else 0)) n = Z.testbit x n && c.
Proof.
  intros Hn. rewrite Z.land_spec. destruct c.
  - change 65535 with (Z.ones 16). rewrite Z.ones_spec_low by lia.
    reflexivity.
  - rewrite Z.bits_0. reflexivity.
Qed.

Lemma testbit_byte_high x n : 0 <= x < 256 -> 8 <= n -> Z.testbit x n = false.
Proof.
  intros Hx Hn. rewrite <- (Z.mod_small x (2 ^ 8)) by lia.
  apply Z.mod_pow2_bits_high. lia.
Qed.

(** Two bytes with the same eight bits are equal. *)
Lemma byte_ext x y :
  0 <= x < 256 -> 0 <= y < 256 ->
  Z.testbit x 0 = Z.testbit y 0 -> Z.testbit x 1 = Z.testbit y 1 ->
  Z.testbit x 2 = Z.testbit y 2 -> Z.testbit x 3 = Z.testbit y 3 ->
  Z.testbit x 4 = Z.testbit y 4 -> Z.testbit x 5 = Z.testbit y 5 ->
  Z.testbit x 6 = Z.testbit y 6 -> Z.testbit x 7 = Z.testbit y 7 ->
  x = y.
Proof.
  intros Hx Hy E0 E1 E2 E3 E4 E5 E6 E7. apply Z.bits_inj'. intros n Hn.
  destruct (Z_lt_le_dec n 8) as [Hlt | Hge].
  - assert (C : n = 0 \/ n = 1 \/ n = 2 \/ n = 3 \/ n = 4 \/ n = 5 \/
                n = 6 \/ n = 7) by lia.
    destruct C as [-> | [-> | [-> | [-> | [-> | [-> | [-> | ->]]]]]]];
      assumption.
  - rewrite !testbit_byte_high by assumption. reflexivity.
Qed.

Lemma clmul_bound a b : 0 <= b < 256 -> 0 <= clmul a b < 2 ^ 16.
Proof.
  intros Hb. unfold clmul. cbn [fold_right].
  assert (T : forall i, 0 <= i <= 7 ->
            0 <= (if Z.testbit a i then Z.shiftl b i else 0) < 2 ^ 16).
  { intros i Hi. destruct (Z.testbit a i); [| lia].
    rewrite Z.shiftl_mul_pow2 by lia.
    assert (0 < 2 ^ i <= 2 ^ 7).
    { split; [apply Z.pow_pos_nonneg; lia |].
      apply Z.pow_le_mono_r; lia. }
    change (2 ^ 7) with 128 in *. nia. }
  repeat (apply lxor_u16; [apply T; lia |]). lia.
Qed.

(** Reading one bit of the expressions the function is made of. *)
Ltac bit_neg :=
  match goal with
  | |- context [Z.testbit ?x (Z.neg ?p)] =>
      rewrite (Z.testbit_neg_r x (Z.neg p)) by lia
  end.

Ltac bit_step :=
  first
    [ bit_neg
    | rewrite Z.lxor_spec
    | rewrite testbit_if
    | rewrite testbit_land_mask by lia
    | rewrite Z.land_spec
    | rewrite Z.shiftl_spec by lia
    | rewrite Z.shiftr_spec by lia
    | rewrite Z.mod_pow2_bits_low by lia
    | rewrite Z.div_pow2_bits by lia
    | rewrite Z.bits_0 ].

Ltac bit_index :=
  repeat match goal with
  | |- context [Z.testbit ?x (?p - ?q)] =>
      let v := eval cbv in (p - q) in change (p - q) with v
  | |- context [Z.testbit ?x (?p + ?q)] =>
      let v := eval cbv in (p + q) in change (p + q) with v
  end.

Ltac bit_consts :=
  repeat match goal with
  | |- context [Z.testbit 127 ?k] =>
      let v := eval cbv in (Z.testbit 127 k) in
      change (Z.testbit 127 k) with v
  end.

Ltac bits := repeat (bit_step; bit_index); bit_consts.

(** Bits 8 and above of a byte are clear. *)
Ltac bit_high H :=
  repeat match goal with
  | |- context [Z.testbit ?x ?k] =>
      rewrite (testbit_byte_high x k H) by lia
  end.

(** X28.  gf_carryless_mul, written without branches or table lookups
    that depend on the data, returns the carry-less product of its two
    byte arguments: [c[0]] is the low byte and [c[1]] the high byte of
    the XOR of [b] shifted to every set bit of [a]. *)
Theorem gf_carryless_mul_clmul a b :
  0 <= a < 256 -> 0 <= b < 256 ->
  gf_carryless_mul a b = (clmul a b mod 256, clmul a b / 256).
Proof.
  intros Ha Hb. unfold gf_carryless_mul.
  assert (H1 : 0 <= Z.land b 127 < 2 ^ 16).
  { change 127 with (Z.ones 7). rewrite Z.land_ones by lia.
    pose proof (Z.mod_pos_bound b (2 ^ 7) ltac:(lia)). lia. }
  assert (H2 : 0 <= u16 (Z.shiftl (Z.land b 127) 1) < 2 ^ 16)
    by (apply Z.mod_pos_bound; lia).
  cbv zeta. cbn [fold_left].
  rewrite <- (Z.shiftr_0_r a) at 1.
  rewrite !window_select by lia. rewrite top_mask.
  pose proof (clmul_bound a b Hb) as Hc.
  change 256 with (2 ^ 8). unfold u8. change 256 with (2 ^ 8).
  f_equal.
  - apply byte_ext;
      [ apply Z.mod_pos_bound; lia | apply Z.mod_pos_bound; lia | ..];
      unfold clmul, u16; cbn [fold_right]; bits.
    all: btauto.
  - apply byte_ext;
      [ apply Z.mod_pos_bound; lia
      | split; [apply Z.div_pos; lia | apply Z.div_lt_upper_bound; lia]
      | ..];
      unfold clmul, u16; cbn [fold_right]; bits; bit_high Hb; bit_high Ha.
    all: btauto.
Qed.

Lemma gf_carryless_mul_clmul_witness :
  gf_carryless_mul 87 131 = (clmul 87 131 mod 256, clmul 87 131 / 256).
Proof. apply (gf_carryless_mul_clmul 87 131); lia. Defined.

End GfProps.
